(** * single-quote-keys: the quote conversions and the libcst transformer

    A shallow embedding of [sqk/strings.py], [sqk/transformer.py] and
    [sqk/processor.py], with the parts of Python and libcst they call
    ([ast.literal_eval], [repr], [json.dumps], [str.splitlines], the
    bottom-up [visit] of a CSTTransformer and the identity-keyed position
    metadata) written out next to them. *)

From Stdlib Require Import List NArith Bool Ascii String Arith Lia.
Import ListNotations.
Local Open Scope N_scope.

(* ================================================================== *)
(** * Python text *)

(** A Python [str] is a sequence of Unicode code points. *)
Definition str := list N.

Definition chr (a : ascii) : N := N_of_ascii a.
Arguments chr a%_char.

Definition SQ : N := 39.         (* the single quote ' *)
Definition DQ : N := 34.         (* the double quote *)
Definition BACKSLASH : N := 92.
Definition NEWLINE : N := 10.
Definition CR : N := 13.

(** [py s] is the text [s]; a backquote in [s] stands for a double quote
    (the backquote is no Python 3 token, so no source text needs it). *)
Fixpoint py (s : string) : str :=
  match s with
  | EmptyString => []
  | String a s' => (if Ascii.eqb a "`" then DQ else N_of_ascii a) :: py s'
  end.
Arguments py s%_string.

Fixpoint str_eqb (a b : str) : bool :=
  match a, b with
  | [], [] => true
  | x :: a', y :: b' => (x =? y) && str_eqb a' b'
  | _, _ => false
  end.

(** [name in names] on a set of strings. *)
Definition mem (name : str) (names : list str) : bool :=
  existsb (str_eqb name) names.

(** [s.startswith(p)] *)
Fixpoint startswith (p s : str) : bool :=
  match p, s with
  | [], _ => true
  | a :: p', b :: s' => (a =? b) && startswith p' s'
  | _ :: _, [] => false
  end.

(** [needle in s] on two strings: a substring test. *)
Fixpoint contains (needle s : str) : bool :=
  startswith needle s ||
  match s with
  | [] => false
  | _ :: s' => contains needle s'
  end.

(** [c in s] for one character. *)
Definition has_char (c : N) (s : str) : bool := existsb (N.eqb c) s.

(** [str.lower()] on the ASCII letters.  Outside ASCII only U+212A and
    U+0130 lower to something holding an ASCII letter (k and i), so for the
    letters r, b and u tested below this is Python's answer. *)
Definition lower_char (c : N) : N :=
  if (65 <=? c) && (c <=? 90) then c + 32 else c.
Definition lower (s : str) : str := map lower_char s.

(** [s.replace(c, "")] for one character [c]. *)
Definition remove_char (c : N) (s : str) : str :=
  filter (fun x => negb (x =? c)) s.

(** [sep.join(parts)] *)
Fixpoint join (sep : str) (parts : list str) : str :=
  match parts with
  | [] => []
  | [p] => p
  | p :: rest => p ++ sep ++ join sep rest
  end.

(** [s.split(sep)[-1]] for a one-character separator: the text after the
    last [sep], the whole of [s] when there is none. *)
Fixpoint split_last_acc (sep : N) (cur : str) (s : str) : str :=
  match s with
  | [] => rev cur
  | c :: s' => if c =? sep then split_last_acc sep [] s'
               else split_last_acc sep (c :: cur) s'
  end.
Definition split_last (sep : N) (s : str) : str := split_last_acc sep [] s.

(** The line boundaries of [str.splitlines]. *)
Definition is_linebreak (c : N) : bool :=
  (c =? 10) || (c =? 13) || (c =? 11) || (c =? 12) || (c =? 28) ||
  (c =? 29) || (c =? 30) || (c =? 133) || (c =? 8232) || (c =? 8233).

(** [s.splitlines()]: no line ends are kept, CR LF is one boundary, and a
    text that ends in a boundary has no empty last line. *)
Fixpoint splitlines_acc (cur : str) (s : str) : list str :=
  match s with
  | [] => match cur with [] => [] | _ => [rev cur] end
  | c :: s' =>
      if is_linebreak c then
        match s' with
        | d :: s'' =>
            if (c =? CR) && (d =? NEWLINE)
            then rev cur :: splitlines_acc [] s''
            else rev cur :: splitlines_acc [] s'
        | [] => rev cur :: splitlines_acc [] s'
        end
      else splitlines_acc (c :: cur) s'
  end.
Definition splitlines (s : str) : list str := splitlines_acc [] s.

(* ================================================================== *)
(** * sqk/strings.py: prefix and quoting of a literal token *)

Definition is_quote (c : N) : bool := (c =? SQ) || (c =? DQ).

Record ParsedStringPrefix := {
  has_raw : bool;
  has_bytes : bool;
  has_unicode : bool;
  raw_prefix : str
}.

(** Split a literal token into [(prefix, rest)]: the prefix runs up to
    the first quote character. *)
Fixpoint _split_prefix_and_quoting (text : str) : str * str :=
  match text with
  | [] => ([], [])
  | c :: rest =>
      if is_quote c then ([], text)
      else let '(p, r) := _split_prefix_and_quoting rest in (c :: p, r)
  end.

Definition parse_prefix (text : str) : ParsedStringPrefix :=
  let prefix := fst (_split_prefix_and_quoting text) in
  let lowered := lower prefix in
  {| has_raw := has_char (chr "r") lowered;
     has_bytes := has_char (chr "b") lowered;
     has_unicode := has_char (chr "u") lowered;
     raw_prefix := prefix |}.

Definition is_triple_quoted (text : str) : bool :=
  let rest := snd (_split_prefix_and_quoting text) in
  startswith [SQ; SQ; SQ] rest || startswith [DQ; DQ; DQ] rest.

Definition is_single_quoted (text : str) : bool :=
  let rest := snd (_split_prefix_and_quoting text) in
  negb (is_triple_quoted text) && startswith [SQ] rest.

(* ================================================================== *)
(** * Python's string literals: evaluation, [repr] and [json.dumps] *)

(** What [ast.literal_eval] returns on one string-literal token. *)
Inductive value :=
| PyStr (s : str)
| PyBytes (b : list N).

(** The two tables of the Unicode character database that the literal
    syntax and [repr] consult: the character names of the N-escape and
    [str.isprintable] outside ASCII. *)
Record unicodedata := {
  ucd_lookup : str -> option N;
  ucd_printable : N -> bool
}.

Definition MAX_CODEPOINT : N := 1114111.   (* 0x10FFFF *)

Definition is_surrogate (c : N) : bool := (55296 <=? c) && (c <=? 57343).

(** A character a source text can hold: [ast.parse] encodes its argument
    to UTF-8 and refuses NUL, so a lone surrogate or a NUL in the token is
    a ValueError. *)
Definition source_char (c : N) : bool :=
  (0 <? c) && (c <=? MAX_CODEPOINT) && negb (is_surrogate c).

(** ** Hexadecimal and octal digits *)

Definition hexdigit (d : N) : N := if d <? 10 then 48 + d else 87 + d.

Definition hexval (c : N) : option N :=
  if (48 <=? c) && (c <=? 57) then Some (c - 48)
  else if (97 <=? c) && (c <=? 102) then Some (c - 87)
  else if (65 <=? c) && (c <=? 70) then Some (c - 55)
  else None.

Fixpoint hexnum (acc : N) (ds : str) : option N :=
  match ds with
  | [] => Some acc
  | d :: ds' =>
      match hexval d with
      | Some v => hexnum (16 * acc + v) ds'
      | None => None
      end
  end.

(** [n] in lowercase hexadecimal, exactly [width] digits (the low ones). *)
Fixpoint hexfmt (width : nat) (n : N) : str :=
  match width with
  | O => []
  | S w => hexfmt w (n / 16) ++ [hexdigit (n mod 16)]
  end.

Definition is_octal (c : N) : bool := (48 <=? c) && (c <=? 55).

Definition octnum (ds : str) : N :=
  fold_left (fun acc d => 8 * acc + (d - 48)) ds 0.

(** ** The tokenizer's view of a string literal *)

(** Source lines reach the tokenizer with CR LF and CR turned into LF. *)
Fixpoint universal_newlines (s : str) : str :=
  match s with
  | [] => []
  | c :: s' =>
      if c =? CR then
        match s' with
        | d :: s'' => if d =? NEWLINE then NEWLINE :: universal_newlines s''
                      else NEWLINE :: universal_newlines s'
        | [] => [NEWLINE]
        end
      else c :: universal_newlines s'
  end.

(** The body of a one-quote literal whose opening quote [q] was read: it
    runs to the first [q] not behind a backslash, which must end the
    token; a backslash takes the next character with it, whatever it is,
    and a bare line end is an error. *)
Fixpoint scan_single (q : N) (l : str) : option str :=
  match l with
  | [] => None
  | c :: l' =>
      if c =? q then match l' with [] => Some [] | _ :: _ => None end
      else if c =? NEWLINE then None
      else if c =? BACKSLASH then
        match l' with
        | [] => None
        | e :: l'' => option_map (fun b => c :: e :: b) (scan_single q l'')
        end
      else option_map (cons c) (scan_single q l')
  end.

(** The body of a triple-quoted literal: it runs to the first three
    consecutive [q] not behind a backslash, which must end the token. *)
Fixpoint scan_triple (q : N) (l : str) : option str :=
  match l with
  | [] => None
  | c :: l' =>
      if c =? BACKSLASH then
        match l' with
        | [] => None
        | e :: l'' => option_map (fun b => c :: e :: b) (scan_triple q l'')
        end
      else if (c =? q) && startswith [q; q] l' then
        match l' with
        | [_; _] => Some []
        | _ => None
        end
      else option_map (cons c) (scan_triple q l')
  end.

(** The text between the quotes of [rest] (a token without its prefix). *)
Definition string_body (rest : str) : option str :=
  match rest with
  | q :: rest1 =>
      if is_quote q then
        if startswith [q; q] rest1 then scan_triple q (skipn 2 rest1)
        else scan_single q rest1
      else None
  | [] => None
  end.

(** ** Escape sequences *)

(** The one-character escapes shared by str and bytes literals. *)
Definition simple_escape (e : N) : option N :=
  if e =? BACKSLASH then Some BACKSLASH
  else if e =? SQ then Some SQ
  else if e =? DQ then Some DQ
  else if e =? chr "a" then Some 7
  else if e =? chr "b" then Some 8
  else if e =? chr "f" then Some 12
  else if e =? chr "n" then Some 10
  else if e =? chr "r" then Some 13
  else if e =? chr "t" then Some 9
  else if e =? chr "v" then Some 11
  else None.

(** An escape that denotes the code point [v], before the decoded rest
    [r]; no code point lies above U+10FFFF. *)
Definition escaped (v : option N) (r : option str) : option str :=
  match v, r with
  | Some c, Some s => if c <=? MAX_CODEPOINT then Some (c :: s) else None
  | _, _ => None
  end.

Section Literals.
Variable ucd : unicodedata.

(** The body of a str literal (not raw) with its escapes resolved.  A
    backslash before a line end joins the lines; an unknown escape keeps
    its backslash; a truncated hexadecimal escape, an unknown character
    name and a code point above U+10FFFF are errors. *)
Fixpoint decode_escapes (l : str) : option str :=
  match l with
  | [] => Some []
  | c :: l1 =>
    if negb (c =? BACKSLASH) then option_map (cons c) (decode_escapes l1)
    else
    match l1 with
    | [] => None
    | e :: l2 =>
      if e =? NEWLINE then decode_escapes l2 else
      match simple_escape e with
      | Some v => option_map (cons v) (decode_escapes l2)
      | None =>
        if is_octal e then
          match l2 with
          | d2 :: l3 =>
              if is_octal d2 then
                match l3 with
                | d3 :: l4 =>
                    if is_octal d3
                    then option_map (cons (octnum [e; d2; d3])) (decode_escapes l4)
                    else option_map (cons (octnum [e; d2])) (decode_escapes l3)
                | [] => option_map (cons (octnum [e; d2])) (decode_escapes l3)
                end
              else option_map (cons (octnum [e])) (decode_escapes l2)
          | [] => option_map (cons (octnum [e])) (decode_escapes l2)
          end
        else if e =? chr "x" then
          match l2 with
          | h1 :: h2 :: l4 => escaped (hexnum 0 [h1; h2]) (decode_escapes l4)
          | _ => None
          end
        else if e =? chr "u" then
          match l2 with
          | h1 :: h2 :: h3 :: h4 :: l6 =>
              escaped (hexnum 0 [h1; h2; h3; h4]) (decode_escapes l6)
          | _ => None
          end
        else if e =? chr "U" then
          match l2 with
          | h1 :: h2 :: h3 :: h4 :: h5 :: h6 :: h7 :: h8 :: l10 =>
              escaped (hexnum 0 [h1; h2; h3; h4; h5; h6; h7; h8])
                      (decode_escapes l10)
          | _ => None
          end
        else if e =? chr "N" then
          match l2 with
          | b :: l3 =>
              if b =? chr "{" then
                (fix named (acc : str) (l' : str) : option str :=
                   match l' with
                   | [] => None
                   | c' :: l'' =>
                       if c' =? chr "}"
                       then escaped (ucd_lookup ucd (rev acc)) (decode_escapes l'')
                       else named (c' :: acc) l''
                   end) [] l3
              else None
          | [] => None
          end
        else option_map (fun r => BACKSLASH :: e :: r) (decode_escapes l2)
      end
    end
  end.

(** The body of a bytes literal (not raw) with its escapes resolved: the
    same one-character and octal escapes (an octal value keeps its low
    eight bits), the two-digit hexadecimal escape, and every other
    backslash kept. *)
Fixpoint decode_bytes_escapes (l : str) : option (list N) :=
  match l with
  | [] => Some []
  | c :: l1 =>
    if negb (c =? BACKSLASH) then option_map (cons c) (decode_bytes_escapes l1)
    else
    match l1 with
    | [] => None
    | e :: l2 =>
      if e =? NEWLINE then decode_bytes_escapes l2 else
      match simple_escape e with
      | Some v => option_map (cons v) (decode_bytes_escapes l2)
      | None =>
        if is_octal e then
          match l2 with
          | d2 :: l3 =>
              if is_octal d2 then
                match l3 with
                | d3 :: l4 =>
                    if is_octal d3
                    then option_map (cons (octnum [e; d2; d3] mod 256))
                                    (decode_bytes_escapes l4)
                    else option_map (cons (octnum [e; d2])) (decode_bytes_escapes l3)
                | [] => option_map (cons (octnum [e; d2])) (decode_bytes_escapes l3)
                end
              else option_map (cons (octnum [e])) (decode_bytes_escapes l2)
          | [] => option_map (cons (octnum [e])) (decode_bytes_escapes l2)
          end
        else if e =? chr "x" then
          match l2 with
          | h1 :: h2 :: l4 => escaped (hexnum 0 [h1; h2]) (decode_bytes_escapes l4)
          | _ => None
          end
        else option_map (fun r => BACKSLASH :: e :: r) (decode_bytes_escapes l2)
      end
    end
  end.

(** The kinds of literal by lowered prefix: [(bytes, raw)]; any other
    prefix is no string literal (an f-string is no constant, and
    [literal_eval] raises ValueError on it). *)
Definition prefix_kind (lowered : str) : option (bool * bool) :=
  if str_eqb lowered [] then Some (false, false)
  else if str_eqb lowered (py "u") then Some (false, false)
  else if str_eqb lowered (py "r") then Some (false, true)
  else if str_eqb lowered (py "b") then Some (true, false)
  else if str_eqb lowered (py "br") then Some (true, true)
  else if str_eqb lowered (py "rb") then Some (true, true)
  else None.

(** [ast.literal_eval(token)] on the text of one string-literal token:
    [None] stands for the SyntaxError or ValueError the callers catch.
    On a text that is no single string-literal token the model answers
    [None]; libcst puts no such text in a SimpleString. *)
Definition literal_eval (token : str) : option value :=
  if negb (forallb source_char token) then None else
  let '(prefix, rest) := _split_prefix_and_quoting (universal_newlines token) in
  match prefix_kind (lower prefix), string_body rest with
  | Some (is_bytes, is_raw), Some body =>
      if is_bytes then
        if forallb (fun c => c <? 128) body then
          if is_raw then Some (PyBytes body)
          else option_map PyBytes (decode_bytes_escapes body)
        else None
      else
        if is_raw then Some (PyStr body)
        else option_map PyStr (decode_escapes body)
  | _, _ => None
  end.

End Literals.

(** ** Exceptions *)

(** The exceptions that nothing in the package catches. *)
Inductive exn := TypeError | IndexError.

Inductive result (A : Type) :=
| Ok (a : A)
| Raise (e : exn).
Arguments Ok {A} a.
Arguments Raise {A} e.

Definition bind {A B} (r : result A) (k : A -> result B) : result B :=
  match r with
  | Ok a => k a
  | Raise e => Raise e
  end.

Notation "x <- c ;; k" := (bind c (fun x => k))
  (at level 61, c at next level, right associativity).

(** [mapM f l]: [f] on every element from left to right, up to the first
    exception. *)
Definition mapM {A B} (f : A -> result B) : list A -> result (list B) :=
  fix go (l : list A) : result (list B) :=
    match l with
    | [] => Ok []
    | a :: l' => b <- f a ;; bs <- go l' ;; Ok (b :: bs)
    end.

(** ** [repr] *)

Section Repr.
Variable ucd : unicodedata.

(** [str.isprintable] of one character: the ASCII range is fixed, the rest
    is the database's; no surrogate and nothing above U+10FFFF is
    printable. *)
Definition isprintable (c : N) : bool :=
  if c <? 128 then (32 <=? c) && (c <? 127)
  else ucd_printable ucd c && (c <=? MAX_CODEPOINT) && negb (is_surrogate c).

(** The quote [repr] wraps a value in: the single quote, unless the value
    holds one and holds no double quote. *)
Definition repr_quote (s : list N) : N :=
  if has_char SQ s && negb (has_char DQ s) then DQ else SQ.

Definition repr_char (quote c : N) : str :=
  if (c =? quote) || (c =? BACKSLASH) then [BACKSLASH; c]
  else if c =? 9 then py "\t"
  else if c =? 10 then py "\n"
  else if c =? 13 then py "\r"
  else if (c <? 32) || (c =? 127) then py "\x" ++ hexfmt 2 c
  else if c <? 127 then [c]
  else if isprintable c then [c]
  else if c <=? 255 then py "\x" ++ hexfmt 2 c
  else if c <=? 65535 then py "\u" ++ hexfmt 4 c
  else py "\U" ++ hexfmt 8 c.

Definition repr_bytes_char (quote c : N) : str :=
  if (c =? quote) || (c =? BACKSLASH) then [BACKSLASH; c]
  else if c =? 9 then py "\t"
  else if c =? 10 then py "\n"
  else if c =? 13 then py "\r"
  else if (c <? 32) || (127 <=? c) then py "\x" ++ hexfmt 2 c
  else [c].

(** [repr(value)] *)
Definition repr (v : value) : str :=
  match v with
  | PyStr s =>
      let q := repr_quote s in
      q :: flat_map (repr_char q) s ++ [q]
  | PyBytes b =>
      let q := repr_quote b in
      chr "b" :: q :: flat_map (repr_bytes_char q) b ++ [q]
  end.

End Repr.

(** ** [json.dumps] *)

(** One character of a JSON string under [ensure_ascii]: the escapes of
    the encoder's table, printable ASCII as it is, a four-digit escape
    below U+10000 and a surrogate pair from there on. *)
Definition json_char (c : N) : str :=
  if c =? DQ then [BACKSLASH; DQ]
  else if c =? BACKSLASH then [BACKSLASH; BACKSLASH]
  else if c =? 10 then py "\n"
  else if c =? 13 then py "\r"
  else if c =? 9 then py "\t"
  else if c =? 12 then py "\f"
  else if c =? 8 then py "\b"
  else if (32 <=? c) && (c <=? 126) then [c]
  else if c <? 65536 then py "\u" ++ hexfmt 4 c
  else
    let n := c - 65536 in
    let s1 := N.lor 55296 (N.land (N.shiftr n 10) 1023) in
    let s2 := N.lor 56320 (N.land n 1023) in
    py "\u" ++ hexfmt 4 s1 ++ py "\u" ++ hexfmt 4 s2.

(** [json.dumps(value)]: bytes are not JSON serializable. *)
Definition json_dumps (v : value) : result str :=
  match v with
  | PyStr s => Ok (DQ :: flat_map json_char s ++ [DQ])
  | PyBytes _ => Raise TypeError
  end.

(** [needle in value] for a str [needle]: a TypeError on bytes
    (a bytes-like object is required, not str). *)
Definition py_in (needle : str) (v : value) : result bool :=
  match v with
  | PyStr s => Ok (contains needle s)
  | PyBytes _ => Raise TypeError
  end.

(* ================================================================== *)
(** * sqk/strings.py: the two conversions *)

(** The conversions read [simple.value] only, so they are given the token;
    [Some t] stands for the returned node [cst.SimpleString(t)] (built by
    [new_SimpleString] below) and [None] for Python's [None]. *)

Section Conversions.
Variable ucd : unicodedata.

Definition to_single_quoted_string (original : str) : option str :=
  if is_single_quoted original then None
  else if is_triple_quoted original then None
  else
    let prefix := parse_prefix original in
    if has_raw prefix || has_bytes prefix then None
    else
      match literal_eval ucd original with
      | None => None
      | Some value =>
          let new_token := repr ucd value in
          let nonempty := negb (str_eqb (raw_prefix prefix) []) in
          let new_token :=
            if has_unicode prefix && negb nonempty then chr "u" :: new_token
            else if has_unicode prefix && nonempty
                 then raw_prefix prefix ++ new_token
                 else new_token in
          let new_token :=
            if nonempty &&
               negb (has_unicode prefix && nonempty &&
                     startswith (raw_prefix prefix) new_token)
            then
              let kept := raw_prefix prefix in
              let kept :=
                if has_char (chr "u") (lower kept)
                then remove_char (chr "U") (remove_char (chr "u") kept)
                else kept in
              kept ++ new_token
            else new_token in
          if str_eqb new_token original then None else Some new_token
      end.

Definition to_double_quoted_string (original : str) : result (option str) :=
  if is_triple_quoted original then Ok None
  else
    let prefix := parse_prefix original in
    if has_raw prefix || has_bytes prefix then Ok None
    else
      let rest := snd (_split_prefix_and_quoting original) in
      if startswith [DQ] rest && negb (startswith [DQ; DQ; DQ] rest) then Ok None
      else
        match literal_eval ucd original with
        | None => Ok None
        | Some value =>
            dq <- json_dumps value ;;
            let nonempty := negb (str_eqb (raw_prefix prefix) []) in
            let dq :=
              if has_unicode prefix && negb nonempty then chr "u" :: dq
              else if nonempty then raw_prefix prefix ++ dq
              else dq in
            if str_eqb dq original then Ok None else Ok (Some dq)
        end.

End Conversions.

(* ================================================================== *)
(** * libcst: the syntax tree, its code and its positions *)

Record CodePosition := { line : nat; column : nat }.
Record CodeRange := { start : CodePosition; end_ : CodePosition }.

(** What every expression node carries besides its own fields.
    [metadata] is the entry of this node object in the PositionProvider
    table of the MetadataWrapper.  The table is keyed by object identity
    (a CSTNode equals itself only), so [Some] marks a node of the wrapped
    module and an object built later has [None]. *)
Record header := {
  metadata : option CodeRange;
  lpar : str;
  rpar : str
}.

(** The header of a copy of a node ([with_changes], or the copy each
    [_visit_and_replace_children] makes): the same parentheses, a new
    object. *)
Definition rebuilt (h : header) : header :=
  {| metadata := None; lpar := lpar h; rpar := rpar h |}.

(** The header of a node made by its constructor with defaults. *)
Definition fresh : header := {| metadata := None; lpar := []; rpar := [] |}.

Inductive Arg_ (T : Type) :=
| Arg (pre : str) (value : T) (post : str).

Inductive element_ (T : Type) :=
| Element (value : T) (post : str)
| StarredElement (pre : str) (value : T) (post : str).

Inductive dict_element_ (T : Type) :=
| DictElement (key : T) (colon : str) (value : T) (post : str)
| StarredDictElement (pre : str) (value : T) (post : str).

(** Verbatim text and child nodes of a node the transformer has no rule
    for. *)
Inductive part_ (T : Type) :=
| Text (s : str)
| Child (n : T).

Inductive slice_ (T : Type) :=
| Index (star : str) (value : T)
| Slice (parts : list (part_ T)).

Inductive subscript_element_ (T : Type) :=
| SubscriptElement (slice : slice_ T) (post : str).

Arguments Arg {T}. Arguments Element {T}. Arguments StarredElement {T}.
Arguments DictElement {T}. Arguments StarredDictElement {T}.
Arguments Text {T}. Arguments Child {T}.
Arguments Index {T}. Arguments Slice {T}.
Arguments SubscriptElement {T}.

Inductive collection_kind := KList | KTuple | KSet.

Set Warnings "-register-all".

(** The nodes of the tree.  White space, commas, brackets and comments
    are kept as the verbatim text fields ([dot], [opening], [pre], [post]
    and so on); [Other] is every node kind the transformer does not
    look at (statements, operators, comprehensions, the module). *)
Inductive node :=
| Name (h : header) (value : str)
| Attribute (h : header) (value : node) (dot : str) (attr : str)
| Call (h : header) (func : node) (opening : str)
       (args : list (Arg_ node)) (closing : str)
| Dict (h : header) (opening : str)
       (elements : list (dict_element_ node)) (closing : str)
| Collection (h : header) (kind : collection_kind) (opening : str)
       (elements : list (element_ node)) (closing : str)
| Subscript (h : header) (value : node) (opening : str)
       (slice : list (subscript_element_ node)) (closing : str)
| SimpleString (h : header) (value : str)
| Other (h : header) (parts : list (part_ node)).

Abbreviation Arg' := (Arg_ node).
Abbreviation element := (element_ node).
Abbreviation dict_element := (dict_element_ node).
Abbreviation part := (part_ node).
Abbreviation subscript_element := (subscript_element_ node).

Definition header_of (n : node) : header :=
  match n with
  | Name h _ | Attribute h _ _ _ | Call h _ _ _ _ | Dict h _ _ _
  | Collection h _ _ _ _ | Subscript h _ _ _ _ | SimpleString h _
  | Other h _ => h
  end.

(** [cst.SimpleString(token)] *)
Definition new_SimpleString (token : str) : node := SimpleString fresh token.

Definition arg_value (a : Arg') : node :=
  match a with Arg _ v _ => v end.

Definition element_value (e : element) : node :=
  match e with
  | Element v _ | StarredElement _ v _ => v
  end.

(** [elt.with_changes(value=v)] on an argument and on a list element. *)
Definition arg_with_value (a : Arg') (v : node) : Arg' :=
  match a with Arg pre _ post => Arg pre v post end.

Definition element_with_value (e : element) (v : node) : element :=
  match e with
  | Element _ post => Element v post
  | StarredElement pre _ post => StarredElement pre v post
  end.

(** [l[i] = x] on a copy of [l], for an index in range. *)
Fixpoint replace_nth {A} (i : nat) (x : A) (l : list A) : list A :=
  match l, i with
  | [], _ => []
  | _ :: l', O => x :: l'
  | a :: l', S j => a :: replace_nth j x l'
  end.

(** ** Code generation: [node.code] *)

Definition code_parts (code : node -> str) (ps : list part) : str :=
  flat_map (fun p => match p with Text s => s | Child n => code n end) ps.

Fixpoint code (n : node) : str :=
  match n with
  | Name h v => lpar h ++ v ++ rpar h
  | Attribute h v dot attr => lpar h ++ code v ++ dot ++ attr ++ rpar h
  | Call h f op args cl =>
      lpar h ++ code f ++ op ++
      flat_map (fun a => match a with
                         | Arg pre v post => pre ++ code v ++ post
                         end) args ++
      cl ++ rpar h
  | Dict h op elts cl =>
      lpar h ++ op ++
      flat_map (fun e => match e with
                         | DictElement k colon v post =>
                             code k ++ colon ++ code v ++ post
                         | StarredDictElement pre v post =>
                             pre ++ code v ++ post
                         end) elts ++
      cl ++ rpar h
  | Collection h _ op elts cl =>
      lpar h ++ op ++
      flat_map (fun e => match e with
                         | Element v post => code v ++ post
                         | StarredElement pre v post => pre ++ code v ++ post
                         end) elts ++
      cl ++ rpar h
  | Subscript h v op sl cl =>
      lpar h ++ code v ++ op ++
      flat_map (fun s => match s with
                         | SubscriptElement (Index star v) post =>
                             star ++ code v ++ post
                         | SubscriptElement (Slice ps) post =>
                             code_parts code ps ++ post
                         end) sl ++
      cl ++ rpar h
  | SimpleString h tok => lpar h ++ tok ++ rpar h
  | Other h ps => lpar h ++ code_parts code ps ++ rpar h
  end.

(** A deep copy: the same tree, every node a new object. *)
Fixpoint clone (n : node) : node :=
  match n with
  | Name h v => Name (rebuilt h) v
  | Attribute h v dot attr => Attribute (rebuilt h) (clone v) dot attr
  | Call h f op args cl =>
      Call (rebuilt h) (clone f) op
           (map (fun a => match a with
                          | Arg pre v post => Arg pre (clone v) post
                          end) args) cl
  | Dict h op elts cl =>
      Dict (rebuilt h) op
           (map (fun e => match e with
                          | DictElement k colon v post =>
                              DictElement (clone k) colon (clone v) post
                          | StarredDictElement pre v post =>
                              StarredDictElement pre (clone v) post
                          end) elts) cl
  | Collection h k op elts cl =>
      Collection (rebuilt h) k op
           (map (fun e => match e with
                          | Element v post => Element (clone v) post
                          | StarredElement pre v post =>
                              StarredElement pre (clone v) post
                          end) elts) cl
  | Subscript h v op sl cl =>
      Subscript (rebuilt h) (clone v) op
           (map (fun s => match s with
                          | SubscriptElement (Index star v) post =>
                              SubscriptElement (Index star (clone v)) post
                          | SubscriptElement (Slice ps) post =>
                              SubscriptElement
                                (Slice (map (fun p => match p with
                                                      | Text t => Text t
                                                      | Child c => Child (clone c)
                                                      end) ps)) post
                          end) sl) cl
  | SimpleString h tok => SimpleString (rebuilt h) tok
  | Other h ps =>
      Other (rebuilt h)
            (map (fun p => match p with
                           | Text t => Text t
                           | Child c => Child (clone c)
                           end) ps)
  end.

Definition clone_arg (a : Arg') : Arg' :=
  match a with Arg pre v post => Arg pre (clone v) post end.

(** The names a call target is made of, as [leave_Call] collects them in
    [parts]: the [attr] of every Attribute from the outermost inwards,
    then the Name at the base of the chain, if it is one. *)
Fixpoint dotted_parts (cur : node) : list str :=
  match cur with
  | Attribute _ v _ attr => attr :: dotted_parts v
  | Name _ v => [v]
  | _ => []
  end.

(** [func_name]: the dotted name of a Name or Attribute target, [None]
    for any other target. *)
Definition func_name_of (func : node) : option str :=
  match func with
  | Name _ _ | Attribute _ _ _ _ =>
      Some (join (py ".") (rev (dotted_parts func)))
  | _ => None
  end.

(** [func_name and func_name.split(".")[-1] in names] *)
Definition last_segment_in (func_name : option str) (names : list str) : bool :=
  match func_name with
  | Some ((_ :: _) as name) => mem (split_last (chr ".") name) names
  | _ => false
  end.

(** [func.attr.value] when [func] is an Attribute (its [attr] is a Name
    by construction). *)
Definition method_name (func : node) : option str :=
  match func with
  | Attribute _ _ _ attr => Some attr
  | _ => None
  end.

Definition method_in (func : node) (names : list str) : bool :=
  match method_name func with
  | Some meth => mem meth names
  | None => false
  end.

Definition nonempty {A} (l : list A) : bool :=
  match l with [] => false | _ :: _ => true end.

Definition is_list_or_tuple (k : collection_kind) : bool :=
  match k with KList | KTuple => true | KSet => false end.

Definition is_SimpleString (n : node) : bool :=
  match n with SimpleString _ _ => true | _ => false end.

(** [new or old] on an optional new token and the node at hand. *)
Definition or_node (new : option str) (old : node) : node :=
  match new with
  | Some t => new_SimpleString t
  | None => old
  end.

(* ================================================================== *)
(** * sqk/constants.py *)

Definition NOQA_TAG : str := py "quote-keys".
Definition ATTR_FUNCS : list str :=
  [py "getattr"; py "hasattr"; py "setattr"; py "delattr"].
Definition MAPPING_FIRST_KEY_METHODS : list str :=
  [py "get"; py "pop"; py "setdefault"].
Definition OPERATOR_GETTERS : list str :=
  [py "attrgetter"; py "itemgetter"; py "methodcaller"].
Definition FROM_KEYS : list str := [py "fromkeys"].
Definition DUUNDER_KEY : list str := [py "__getitem__"; py "__setitem__"].
Definition DUUNDER_ATTR : list str :=
  [py "__getattr__"; py "__setattr__"; py "__delattr__"; py "__getattribute__"].

(* ================================================================== *)
(** * sqk/transformer.py: QuoteKeysTransformer *)

Record QuoteKeysTransformer := {
  _lines : list str;
  _source_has_noqa : bool
}.

Definition __init__ (source_code : str) : QuoteKeysTransformer :=
  {| _lines := splitlines source_code;
     _source_has_noqa := contains (py "# noqa: quote-keys") source_code |}.

Section Transformer.
Variable ucd : unicodedata.
Variable self : QuoteKeysTransformer.

(** [True] if the node's line contains the noqa tag.  [get_metadata]
    raises KeyError on an object that is no key of the table, which the
    method catches; the list index raises IndexError out of range. *)
Definition _has_noqa_comment (n : node) : result bool :=
  match metadata (header_of n) with
  | None => Ok false
  | Some code_range =>
      let line_no :=
        Nat.max 1 (Nat.min (List.length (_lines self)) (line (end_ code_range))) in
      match nth_error (_lines self) (line_no - 1) with
      | Some line_text => Ok (contains NOQA_TAG line_text)
      | None => Raise IndexError
      end
  end.

(** [_maybe_requote(node, s)], with [None] when the method returns the
    object [s] itself and [Some] when it returns a new node. *)
Definition _maybe_requote_new (n s : node) : result (option node) :=
  if _source_has_noqa self then Ok None else
  a <- _has_noqa_comment n ;;
  if a then Ok None else
  b <- _has_noqa_comment s ;;
  if b then Ok None else
  match s with
  | SimpleString _ tok =>
      Ok (option_map new_SimpleString (to_single_quoted_string ucd tok))
  | _ => Ok None
  end.

Definition _maybe_requote (n s : node) : result node :=
  r <- _maybe_requote_new n s ;;
  Ok (match r with Some new_s => new_s | None => s end).

(** [args[i]] requoted in a copy of [args]. *)
Definition requote_arg (n : node) (i : nat) (args : list Arg')
  : result (list Arg') :=
  match nth_error args i with
  | Some a =>
      new_value <- _maybe_requote n (arg_value a) ;;
      Ok (replace_nth i (arg_with_value a new_value) args)
  | None => Raise IndexError
  end.

(** The key of a DictElement of [first] requoted, as the constructor
    branch of [leave_Call] does it. *)
Definition requote_dict_key (first : node) (elt : dict_element)
  : result dict_element :=
  match elt with
  | DictElement k colon v post =>
      new_key <- _maybe_requote first k ;;
      Ok (DictElement new_key colon v post)
  | StarredDictElement _ _ _ => Ok elt
  end.

(** One element of the list given to a dict constructor: when it is a
    non-empty Tuple or List, its first element is requoted. *)
Definition requote_pair (elt : element) : result element :=
  match elt with
  | Element ((Collection hv k opv (pair0 :: pair_rest) clv) as value) post =>
      if is_list_or_tuple k then
        new0_val <- _maybe_requote value (element_value pair0) ;;
        Ok (Element
              (Collection (rebuilt hv) k opv
                 (element_with_value pair0 new0_val :: pair_rest) clv)
              post)
      else Ok elt
  | _ => Ok elt
  end.

(** One element of the sequence given to fromkeys.  On a StarredElement
    the method gets back the element itself (it is no SimpleString); the
    elements carry no header here, so only the position of [target] is
    asked for. *)
Definition requote_element (target : node) (elt : element) : result element :=
  match elt with
  | Element v post =>
      new_value <- _maybe_requote target v ;;
      Ok (Element new_value post)
  | StarredElement _ _ _ =>
      if _source_has_noqa self then Ok elt
      else _ <- _has_noqa_comment target ;; Ok elt
  end.

(** The index of the first SimpleString among the first two arguments. *)
Definition first_string_index (args : list Arg') : option nat :=
  match args with
  | a0 :: rest =>
      if is_SimpleString (arg_value a0) then Some 0%nat
      else match rest with
           | a1 :: _ => if is_SimpleString (arg_value a1) then Some 1%nat else None
           | [] => None
           end
  | [] => None
  end.

(** The last rules of [leave_Call]: the dunder key and attr methods. *)
Definition leave_Call_dunder (updated_node : node) : result node :=
  match updated_node with
  | Call h func op args cl =>
      match method_name func with
      | Some dunder =>
          if mem dunder DUUNDER_KEY && nonempty args then
            new_args <- requote_arg updated_node 0 args ;;
            Ok (Call (rebuilt h) func op new_args cl)
          else if mem dunder DUUNDER_ATTR && nonempty args then
            match first_string_index args with
            | Some idx =>
                new_args <- requote_arg updated_node idx args ;;
                Ok (Call (rebuilt h) func op new_args cl)
            | None => Ok updated_node
            end
          else Ok updated_node
      | None => Ok updated_node
      end
  | _ => Ok updated_node
  end.

(** The fromkeys rule, then the dunder rules. *)
Definition leave_Call_fromkeys (updated_node : node) : result node :=
  match updated_node with
  | Call h func op (Arg pre ((Collection ht k opt elts clt) as target) post :: rest) cl =>
      if method_in func FROM_KEYS then
        new_elts <- mapM (requote_element target) elts ;;
        Ok (Call (rebuilt h) func op
              (Arg pre (Collection (rebuilt ht) k opt new_elts clt) post :: rest)
              cl)
      else leave_Call_dunder updated_node
  | _ => leave_Call_dunder updated_node
  end.

(** The dict and OrderedDict rule ([deep_replace] copies every node on
    its way), then the rules after it when the first argument is neither
    a Dict nor a List or Tuple. *)
Definition leave_Call_constructor (updated_node : node) : result node :=
  match updated_node with
  | Call h func op (Arg pre first post :: rest) cl =>
      if last_segment_in (func_name_of func) [py "dict"; py "OrderedDict"] then
        match first with
        | Dict hd opd elts cld =>
            new_elements <- mapM (requote_dict_key first) elts ;;
            Ok (Call (rebuilt h) (clone func) op
                  (Arg pre (Dict (rebuilt hd) opd new_elements cld) post
                     :: map clone_arg rest) cl)
        | Collection hc k opc elts clc =>
            if is_list_or_tuple k then
              new_elts <- mapM requote_pair elts ;;
              Ok (Call (rebuilt h) (clone func) op
                    (Arg pre (Collection (rebuilt hc) k opc new_elts clc) post
                       :: map clone_arg rest) cl)
            else leave_Call_fromkeys updated_node
        | _ => leave_Call_fromkeys updated_node
        end
      else leave_Call_fromkeys updated_node
  | _ => leave_Call_fromkeys updated_node
  end.

(** Rewrite arguments to calls that treat the first string as a key. *)
Definition leave_Call (updated_node : node) : result node :=
  match updated_node with
  | Call h func op args cl =>
      let func_name := func_name_of func in
      if last_segment_in func_name ATTR_FUNCS && (2 <=? List.length args)%nat then
        new_args <- requote_arg updated_node 1 args ;;
        Ok (Call (rebuilt h) func op new_args cl)
      else if method_in func MAPPING_FIRST_KEY_METHODS && nonempty args then
        new_args <- requote_arg updated_node 0 args ;;
        Ok (Call (rebuilt h) func op new_args cl)
      else if last_segment_in func_name OPERATOR_GETTERS && nonempty args then
        new_args <- requote_arg updated_node 0 args ;;
        Ok (Call (rebuilt h) func op new_args cl)
      else leave_Call_constructor updated_node
  | _ => Ok updated_node
  end.

(** One element of a dict literal with its key requoted, and whether
    the key is a new object ([new_key is not elt.key]). *)
Definition requote_key_changed (n : node) (elt : dict_element)
  : result (dict_element * bool) :=
  match elt with
  | DictElement k colon v post =>
      r <- _maybe_requote_new n k ;;
      Ok (match r with
          | Some new_key => (DictElement new_key colon v post, true)
          | None => (elt, false)
          end)
  | StarredDictElement _ _ _ => Ok (elt, false)
  end.

(** Rewrite dict literal keys to single-quoted form where applicable. *)
Definition leave_Dict (updated_node : node) : result node :=
  match updated_node with
  | Dict h op elts cl =>
      new_elements <- mapM (requote_key_changed updated_node) elts ;;
      if existsb snd new_elements
      then Ok (Dict (rebuilt h) op (map fst new_elements) cl)
      else Ok updated_node
  | _ => Ok updated_node
  end.

(** One element of a subscript: a plain index is requoted and, when the
    result is a new object, wrapped in a new [cst.Index(value=...)]. *)
Definition requote_index_changed (n : node) (s : subscript_element)
  : result (subscript_element * bool) :=
  match s with
  | SubscriptElement (Index _ target) post =>
      r <- _maybe_requote_new n target ;;
      Ok (match r with
          | Some new_target => (SubscriptElement (Index [] new_target) post, true)
          | None => (s, false)
          end)
  | SubscriptElement (Slice _) _ => Ok (s, false)
  end.

(** Rewrite subscript keys. *)
Definition leave_Subscript (updated_node : node) : result node :=
  match updated_node with
  | Subscript h v op sl cl =>
      new_elems <- mapM (requote_index_changed updated_node) sl ;;
      if existsb snd new_elems
      then Ok (Subscript (rebuilt h) v op (map fst new_elems) cl)
      else Ok updated_node
  | _ => Ok updated_node
  end.

(** Prefer the quote style that minimizes escaping for textual strings. *)
Definition leave_SimpleString (updated_node : node) : result node :=
  match updated_node with
  | SimpleString _ token =>
      match literal_eval ucd token with
      | None =>
          new_node <- to_double_quoted_string ucd token ;;
          Ok (or_node new_node updated_node)
      | Some value =>
          has_single <- py_in [SQ] value ;;
          has_double <- py_in [DQ] value ;;
          if has_double && negb has_single then
            Ok (or_node (to_single_quoted_string ucd token) updated_node)
          else
            preferred <- to_double_quoted_string ucd token ;;
            Ok (or_node preferred updated_node)
      end
  | _ => Ok updated_node
  end.

(** ** [node.visit(transformer)]

    libcst visits the children of a node first, builds a copy of the
    node around the results ([_visit_and_replace_children]) and hands that
    copy to the transformer's [leave_] method as [updated_node]; a node
    kind without a method of its own is left as the copy.

    [visit] is what the transformer's methods do on the way.  Two errors
    of libcst and Python themselves are outside it, since the tree has
    no node kinds to validate and no depth bound: libcst validates every
    node it rebuilds, and refuses a prefixed literal that has lost its
    parentheses directly after a keyword (CSTValidationError on
    [return(u'a')]); Python ends a traversal of deeply nested expressions
    with RecursionError.  So [Ok x] reads: the methods have returned, and
    [x] is the tree they have built. *)
Fixpoint visit (n : node) : result node :=
  match n with
  | Name h v => Ok (Name (rebuilt h) v)
  | Attribute h v dot attr =>
      v' <- visit v ;;
      Ok (Attribute (rebuilt h) v' dot attr)
  | Call h f op args cl =>
      f' <- visit f ;;
      args' <- mapM (fun a => match a with
                              | Arg pre v post =>
                                  v' <- visit v ;; Ok (Arg pre v' post)
                              end) args ;;
      leave_Call (Call (rebuilt h) f' op args' cl)
  | Dict h op elts cl =>
      elts' <- mapM (fun e => match e with
                              | DictElement k colon v post =>
                                  k' <- visit k ;;
                                  v' <- visit v ;;
                                  Ok (DictElement k' colon v' post)
                              | StarredDictElement pre v post =>
                                  v' <- visit v ;;
                                  Ok (StarredDictElement pre v' post)
                              end) elts ;;
      leave_Dict (Dict (rebuilt h) op elts' cl)
  | Collection h k op elts cl =>
      elts' <- mapM (fun e => match e with
                              | Element v post =>
                                  v' <- visit v ;; Ok (Element v' post)
                              | StarredElement pre v post =>
                                  v' <- visit v ;;
                                  Ok (StarredElement pre v' post)
                              end) elts ;;
      Ok (Collection (rebuilt h) k op elts' cl)
  | Subscript h v op sl cl =>
      v' <- visit v ;;
      sl' <- mapM (fun s => match s with
                            | SubscriptElement (Index star i) post =>
                                i' <- visit i ;;
                                Ok (SubscriptElement (Index star i') post)
                            | SubscriptElement (Slice ps) post =>
                                ps' <- mapM (fun p => match p with
                                                      | Text t => Ok (Text t)
                                                      | Child c =>
                                                          c' <- visit c ;;
                                                          Ok (Child c')
                                                      end) ps ;;
                                Ok (SubscriptElement (Slice ps') post)
                            end) sl ;;
      leave_Subscript (Subscript (rebuilt h) v' op sl' cl)
  | SimpleString h tok => leave_SimpleString (SimpleString (rebuilt h) tok)
  | Other h ps =>
      ps' <- mapM (fun p => match p with
                            | Text t => Ok (Text t)
                            | Child c => c' <- visit c ;; Ok (Child c')
                            end) ps ;;
      Ok (Other (rebuilt h) ps')
  end.

End Transformer.

(* ================================================================== *)
(** * sqk/processor.py *)

(** Transform [code] and return [(new_code, changed)].  The argument is
    the module [cst.parse_module(code)] as the MetadataWrapper holds it,
    for a text that the parser gives back, so that the text is
    [code module].  The parser drops a byte order mark at the start and a
    CR at the end of a text: there [code module] is shorter than the text
    and the source reports a change where this definition compares with
    [code module]. *)
Definition transform_code (ucd : unicodedata) (module : node)
  : result (str * bool) :=
  let source := code module in
  new_module <- visit ucd (__init__ source) module ;;
  let new_code := code new_module in
  Ok (new_code, negb (str_eqb new_code source)).

(* ================================================================== *)
(** * The string literals of a tree *)

(** The tokens of the string literals below an argument, an element and the
    like, given those of a node. *)
Definition arg_tokens (tokens : node -> list str) (a : Arg') : list str :=
  match a with Arg _ v _ => tokens v end.

Definition dict_element_tokens (tokens : node -> list str) (e : dict_element)
  : list str :=
  match e with
  | DictElement k _ v _ => tokens k ++ tokens v
  | StarredDictElement _ v _ => tokens v
  end.

Definition element_tokens (tokens : node -> list str) (e : element) : list str :=
  match e with
  | Element v _ | StarredElement _ v _ => tokens v
  end.

Definition part_tokens (tokens : node -> list str) (p : part) : list str :=
  match p with
  | Text _ => []
  | Child c => tokens c
  end.

Definition subscript_element_tokens (tokens : node -> list str)
    (s : subscript_element) : list str :=
  match s with
  | SubscriptElement (Index _ i) _ => tokens i
  | SubscriptElement (Slice ps) _ => flat_map (part_tokens tokens) ps
  end.

(** The tokens of the SimpleString nodes of [n], in source order. *)
Fixpoint tokens (n : node) : list str :=
  match n with
  | Name _ _ => []
  | Attribute _ v _ _ => tokens v
  | Call _ f _ args _ => tokens f ++ flat_map (arg_tokens tokens) args
  | Dict _ _ elts _ => flat_map (dict_element_tokens tokens) elts
  | Collection _ _ _ elts _ => flat_map (element_tokens tokens) elts
  | Subscript _ v _ sl _ =>
      tokens v ++ flat_map (subscript_element_tokens tokens) sl
  | SimpleString _ tok => [tok]
  | Other _ ps => flat_map (part_tokens tokens) ps
  end.

(* ================================================================== *)
(** * Notions of the statements *)

(** A token neither conversion touches: triple-quoted, or with a raw or a
    bytes prefix. *)
Definition excluded (tok : str) : bool :=
  is_triple_quoted tok || has_raw (parse_prefix tok) || has_bytes (parse_prefix tok).

(** The traversal of a transformer that has [leave_SimpleString] and no
    other method: every node is rebuilt around its visited children, and
    only string literals are handed to a method. *)
Fixpoint default_pass (ucd : unicodedata) (n : node) : result node :=
  match n with
  | Name h v => Ok (Name (rebuilt h) v)
  | Attribute h v dot attr =>
      v' <- default_pass ucd v ;;
      Ok (Attribute (rebuilt h) v' dot attr)
  | Call h f op args cl =>
      f' <- default_pass ucd f ;;
      args' <- mapM (fun a => match a with
                              | Arg pre v post =>
                                  v' <- default_pass ucd v ;; Ok (Arg pre v' post)
                              end) args ;;
      Ok (Call (rebuilt h) f' op args' cl)
  | Dict h op elts cl =>
      elts' <- mapM (fun e => match e with
                              | DictElement k colon v post =>
                                  k' <- default_pass ucd k ;;
                                  v' <- default_pass ucd v ;;
                                  Ok (DictElement k' colon v' post)
                              | StarredDictElement pre v post =>
                                  v' <- default_pass ucd v ;;
                                  Ok (StarredDictElement pre v' post)
                              end) elts ;;
      Ok (Dict (rebuilt h) op elts' cl)
  | Collection h k op elts cl =>
      elts' <- mapM (fun e => match e with
                              | Element v post =>
                                  v' <- default_pass ucd v ;; Ok (Element v' post)
                              | StarredElement pre v post =>
                                  v' <- default_pass ucd v ;;
                                  Ok (StarredElement pre v' post)
                              end) elts ;;
      Ok (Collection (rebuilt h) k op elts' cl)
  | Subscript h v op sl cl =>
      v' <- default_pass ucd v ;;
      sl' <- mapM (fun s => match s with
                            | SubscriptElement (Index star i) post =>
                                i' <- default_pass ucd i ;;
                                Ok (SubscriptElement (Index star i') post)
                            | SubscriptElement (Slice ps) post =>
                                ps' <- mapM (fun p => match p with
                                                      | Text t => Ok (Text t)
                                                      | Child c =>
                                                          c' <- default_pass ucd c ;;
                                                          Ok (Child c')
                                                      end) ps ;;
                                Ok (SubscriptElement (Slice ps') post)
                            end) sl ;;
      Ok (Subscript (rebuilt h) v' op sl' cl)
  | SimpleString h tok => leave_SimpleString ucd (SimpleString (rebuilt h) tok)
  | Other h ps =>
      ps' <- mapM (fun p => match p with
                            | Text t => Ok (Text t)
                            | Child c => c' <- default_pass ucd c ;; Ok (Child c')
                            end) ps ;;
      Ok (Other (rebuilt h) ps')
  end.

(** ** Values in the Basic Multilingual Plane *)

(** A value, a literal and a tree without code points above U+FFFF. *)
Definition bmp (v : str) : Prop := Forall (fun c => c < 65536) v.

Definition bmp_token (ucd : unicodedata) (tok : str) : Prop :=
  forall v, literal_eval ucd tok = Some (PyStr v) -> bmp v.

Definition bmp_tree (ucd : unicodedata) (n : node) : Prop :=
  Forall (bmp_token ucd) (tokens n).

(** ** Sample modules *)

(** A database without character names in which nothing outside ASCII is
    printable. *)
Definition ucd_ascii : unicodedata :=
  {| ucd_lookup := fun _ => None; ucd_printable := fun _ => false |}.

(** The header of a parsed node on line [l], from column [c1] to [c2]. *)
Definition at_ (l c1 c2 : nat) : header :=
  {| metadata := Some {| start := {| line := l; column := c1 |};
                         end_ := {| line := l; column := c2 |} |};
     lpar := []; rpar := [] |}.

(** The number of characters of the text of a node. *)
Definition width (n : node) : nat := List.length (code n).

(** A module of one expression statement on line 1, with the rest of the
    line: the Module, its SimpleStatementLine and the Expr. *)
Definition module1 (expr : node) (trailing : str) : node :=
  let w := width expr in
  Other (at_ 1 0 (w + List.length trailing))
    [Child (Other (at_ 1 0 w) [Child (Other (at_ 1 0 w) [Child expr]); Text trailing])].

(** [hasattr(obj, tok)] *)
Definition hasattr_call (tok : str) : node :=
  Call (at_ 1 0 (14 + List.length tok))
    (Name (at_ 1 0 7) (py "hasattr")) (py "(")
    [Arg [] (Name (at_ 1 8 11) (py "obj")) (py ", ");
     Arg [] (SimpleString (at_ 1 13 (13 + List.length tok)) tok) []]
    (py ")").


(** [{tok: 1}] *)
Definition dict_literal (tok : str) : node :=
  Dict (at_ 1 0 (5 + List.length tok)) (py "{")
    [DictElement (SimpleString (at_ 1 1 (1 + List.length tok)) tok) (py ": ")
       (Other (at_ 1 (3 + List.length tok) (4 + List.length tok)) [Text (py "1")]) []]
    (py "}").

(** [d.get(tok)] *)
Definition get_call (tok : str) : node :=
  Call (at_ 1 0 (7 + List.length tok))
    (Attribute (at_ 1 0 5) (Name (at_ 1 0 1) (py "d")) (py ".") (py "get"))
    (py "(")
    [Arg [] (SimpleString (at_ 1 6 (6 + List.length tok)) tok) []]
    (py ")").

(** [d[tok]] *)
Definition subscript (tok : str) : node :=
  Subscript (at_ 1 0 (3 + List.length tok)) (Name (at_ 1 0 1) (py "d")) (py "[")
    [SubscriptElement (Index [] (SimpleString (at_ 1 2 (2 + List.length tok)) tok)) []]
    (py "]").

(** [x = tok], an Assign statement in place of the Expr. *)
Definition assignment (tok : str) : node :=
  let w := (4 + List.length tok)%nat in
  Other (at_ 1 0 w)
    [Child (Other (at_ 1 0 w)
       [Child (Other (at_ 1 0 w)
          [Child (Name (at_ 1 0 1) (py "x")); Text (py " = ");
           Child (SimpleString (at_ 1 4 w) tok)])])].

(** [hasattr(obj, "key")  #noqa: quote-keys]: the opt-out tag in a comment
    on the line of the call, without the file-wide annotation text. *)
Definition inline_tag_module : node :=
  module1 (hasattr_call (py "`key`")) (py "  #noqa: quote-keys").

(** [d.get("quote-keys")]: the opt-out tag inside the literal itself. *)
Definition tag_in_literal_module : node :=
  module1 (get_call (py "`quote-keys`")) [].

(** No opt-out on the line of the key of a dict element. *)
Definition key_opt_out_free (self : QuoteKeysTransformer) (e : dict_element) : Prop :=
  match e with
  | DictElement k _ _ _ => _has_noqa_comment self k = Ok false
  | StarredDictElement _ _ _ => True
  end.

(** What [leave_Dict] makes of one element: a string-literal key is
    requoted, with the same value and single quotes unless the value holds
    a single quote and no double quote, when the literal is an ordinary
    one; any other element is kept. *)
Definition key_forced (ucd : unicodedata) (e e' : dict_element) : Prop :=
  match e with
  | DictElement (SimpleString hs tok) colon val post =>
      exists hs' tok',
        e' = DictElement (SimpleString hs' tok') colon val post /\
        forall v, literal_eval ucd tok = Some (PyStr v) -> excluded tok = false ->
          literal_eval ucd tok' = Some (PyStr v) /\
          (is_single_quoted tok' = true \/
           has_char SQ v = true /\ has_char DQ v = false)
  | _ => e' = e
  end.


(** The character U+1F600, above U+FFFF, between single quotes. *)
Definition astral_token : str := [SQ; 128512; SQ].

(** The same value as [json.dumps] writes it: a surrogate pair. *)
Definition astral_token_dumped : str := py "`\ud83d\ude00`".

(** ** Further sample nodes *)

(** The header of a parsed node on line 1 that carries one pair of
    parentheses of its own, as a Tuple does. *)
Definition at_par (c1 c2 : nat) : header :=
  {| metadata := Some {| start := {| line := 1; column := c1 |};
                         end_ := {| line := 1; column := c2 |} |};
     lpar := py "("; rpar := py ")" |}.

(** The call [dict({`a`: 1})] of the repository's tests, a backquote for
    each double quote. *)
Definition dict_of_dict : node :=
  Call (at_ 1 0 14) (Name (at_ 1 0 4) (py "dict")) (py "(")
    [Arg []
       (Dict (at_ 1 5 13) (py "{")
          [DictElement (SimpleString (at_ 1 6 9) (py "`a`")) (py ": ")
             (Other (at_ 1 11 12) [Text (py "1")]) []]
          (py "}")) []]
    (py ")").

(** [dict([(`a`, 1), (`b`, 2)])] *)
Definition dict_of_pairs : node :=
  Call (at_ 1 0 26) (Name (at_ 1 0 4) (py "dict")) (py "(")
    [Arg []
       (Collection (at_ 1 5 25) KList (py "[")
          [Element
             (Collection (at_par 6 14) KTuple []
                [Element (SimpleString (at_ 1 7 10) (py "`a`")) (py ", ");
                 Element (Other (at_ 1 12 13) [Text (py "1")]) []] [])
             (py ", ");
           Element
             (Collection (at_par 16 24) KTuple []
                [Element (SimpleString (at_ 1 17 20) (py "`b`")) (py ", ");
                 Element (Other (at_ 1 22 23) [Text (py "2")]) []] [])
             []]
          (py "]")) []]
    (py ")").

(** [dict.fromkeys([`a`, `b`])] *)
Definition fromkeys_call : node :=
  Call (at_ 1 0 25)
    (Attribute (at_ 1 0 13) (Name (at_ 1 0 4) (py "dict")) (py ".") (py "fromkeys"))
    (py "(")
    [Arg []
       (Collection (at_ 1 14 24) KList (py "[")
          [Element (SimpleString (at_ 1 15 18) (py "`a`")) (py ", ");
           Element (SimpleString (at_ 1 20 23) (py "`b`")) []]
          (py "]")) []]
    (py ")").

(** [type.__getattr__(obj, `a`)] *)
Definition dunder_getattr_call : node :=
  Call (at_ 1 0 26)
    (Attribute (at_ 1 0 16) (Name (at_ 1 0 4) (py "type")) (py ".") (py "__getattr__"))
    (py "(")
    [Arg [] (Name (at_ 1 17 20) (py "obj")) (py ", ");
     Arg [] (SimpleString (at_ 1 22 25) (py "`a`")) []]
    (py ")").

(** ** Bytes literals *)

(** A token that [ast.literal_eval] evaluates to a bytes object. *)
Definition is_bytes_literal (ucd : unicodedata) (tok : str) : bool :=
  match literal_eval ucd tok with
  | Some (PyBytes _) => true
  | _ => false
  end.

(** ** Key positions *)

(** What [_maybe_requote] makes of a node when no opt-out is in force: a
    string literal stays a string literal, with the same value and single
    quotes unless the value holds a single quote and no double quote, when
    it is an ordinary one; any other node is handed back. *)
Definition requoted (ucd : unicodedata) (s s' : node) : Prop :=
  match s with
  | SimpleString hs tok =>
      exists hs' tok',
        s' = SimpleString hs' tok' /\
        forall v, literal_eval ucd tok = Some (PyStr v) -> excluded tok = false ->
          literal_eval ucd tok' = Some (PyStr v) /\
          (is_single_quoted tok' = true \/
           has_char SQ v = true /\ has_char DQ v = false)
  | _ => s' = s
  end.

(** No opt-out on the line of an element of the sequence given to
    fromkeys. *)
Definition element_opt_out_free (self : QuoteKeysTransformer) (e : element) : Prop :=
  match e with
  | Element v _ => _has_noqa_comment self v = Ok false
  | StarredElement _ _ _ => True
  end.

(** What the fromkeys rule makes of one element. *)
Definition element_forced (ucd : unicodedata) (e e' : element) : Prop :=
  match e with
  | Element v post => exists v', e' = Element v' post /\ requoted ucd v v'
  | StarredElement _ _ _ => e' = e
  end.

(** No opt-out on the line of a pair given to a dict constructor, nor
    on the line of its first element. *)
Definition pair_opt_out_free (self : QuoteKeysTransformer) (e : element) : Prop :=
  match e with
  | Element ((Collection _ k _ (pair0 :: _) _) as value) _ =>
      is_list_or_tuple k = true ->
      _has_noqa_comment self value = Ok false /\
      _has_noqa_comment self (element_value pair0) = Ok false
  | _ => True
  end.

(** What the constructor rule makes of one element of the list of
    pairs: in a non-empty Tuple or List the first element is requoted and
    the pair is built anew; any other element is kept. *)
Definition pair_forced (ucd : unicodedata) (e e' : element) : Prop :=
  match e with
  | Element (Collection hv k opv (pair0 :: pair_rest) clv) post =>
      if is_list_or_tuple k then
        exists key',
          e' = Element
                 (Collection (rebuilt hv) k opv
                    (element_with_value pair0 key' :: pair_rest) clv) post /\
          requoted ucd (element_value pair0) key'
      else e' = e
  | _ => e' = e
  end.

(** No opt-out on the line of the index of a subscript element. *)
Definition index_opt_out_free (self : QuoteKeysTransformer) (s : subscript_element)
  : Prop :=
  match s with
  | SubscriptElement (Index _ target) _ => _has_noqa_comment self target = Ok false
  | SubscriptElement (Slice _) _ => True
  end.

(** What [leave_Subscript] makes of one element: an index that is a
    string literal is either kept as it is, or replaced by a new Index
    around a new literal, built with defaults (no star, no parentheses);
    the value and the quotes are as in [requoted].  Any other element is
    kept. *)
Definition index_forced (ucd : unicodedata) (s s' : subscript_element) : Prop :=
  match s with
  | SubscriptElement (Index star (SimpleString hs tok)) post =>
      exists star' hs' tok',
        s' = SubscriptElement (Index star' (SimpleString hs' tok')) post /\
        (tok' = tok /\ star' = star /\ hs' = hs \/
         tok' <> tok /\ star' = [] /\ hs' = fresh) /\
        forall v, literal_eval ucd tok = Some (PyStr v) -> excluded tok = false ->
          literal_eval ucd tok' = Some (PyStr v) /\
          (is_single_quoted tok' = true \/
           has_char SQ v = true /\ has_char DQ v = false)
  | _ => s' = s
  end.

(** ** The tree around the literals *)

(** The tree around the string literals: every header rebuilt, every
    SimpleString blanked (token and parentheses), and no star before an
    index that is a string literal. *)
Fixpoint skeleton (n : node) : node :=
  match n with
  | Name h v => Name (rebuilt h) v
  | Attribute h v dot attr => Attribute (rebuilt h) (skeleton v) dot attr
  | Call h f op args cl =>
      Call (rebuilt h) (skeleton f) op
           (map (fun a => match a with
                          | Arg pre v post => Arg pre (skeleton v) post
                          end) args) cl
  | Dict h op elts cl =>
      Dict (rebuilt h) op
           (map (fun e => match e with
                          | DictElement k colon v post =>
                              DictElement (skeleton k) colon (skeleton v) post
                          | StarredDictElement pre v post =>
                              StarredDictElement pre (skeleton v) post
                          end) elts) cl
  | Collection h k op elts cl =>
      Collection (rebuilt h) k op
           (map (fun e => match e with
                          | Element v post => Element (skeleton v) post
                          | StarredElement pre v post =>
                              StarredElement pre (skeleton v) post
                          end) elts) cl
  | Subscript h v op sl cl =>
      Subscript (rebuilt h) (skeleton v) op
           (map (fun s => match s with
                          | SubscriptElement (Index star v) post =>
                              SubscriptElement
                                (Index (if is_SimpleString v then [] else star)
                                       (skeleton v)) post
                          | SubscriptElement (Slice ps) post =>
                              SubscriptElement
                                (Slice (map (fun p => match p with
                                                      | Text t => Text t
                                                      | Child c => Child (skeleton c)
                                                      end) ps)) post
                          end) sl) cl
  | SimpleString _ _ => SimpleString fresh []
  | Other h ps =>
      Other (rebuilt h)
            (map (fun p => match p with
                           | Text t => Text t
                           | Child c => Child (skeleton c)
                           end) ps)
  end.

(* ================================================================== *)
(** * Notions of the proofs *)

(** Characters the tokenizer reads as plain body characters. *)
Definition plain (q c : N) : Prop := c <> q /\ c <> NEWLINE /\ c <> BACKSLASH.

Section PieceNotion.
Variable ucd : unicodedata.

(** What makes the encoding [piece] of one character [c] safe inside a
    literal quoted by [q]. *)
Record piece_ok (q : N) (piece : str) (c : N) : Prop := {
  po_scan : forall rest,
    scan_single q (piece ++ rest) = option_map (app piece) (scan_single q rest);
  po_decode : forall rest,
    decode_escapes ucd (piece ++ rest) =
    option_map (cons c) (decode_escapes ucd rest);
  po_source : forallb source_char piece = true;
  po_nocr : forallb (fun x => negb (x =? CR)) piece = true;
  po_head : exists x l, piece = x :: l /\ x <> q
}.

End PieceNotion.

(** The prefixes of a cooked str literal. *)
Definition str_prefix (p : str) : Prop := p = [] \/ p = py "u" \/ p = py "U".

(** A code point. *)
Definition valid (c : N) : Prop := c <= MAX_CODEPOINT.

Section ValidNotion.
Variable ucd : unicodedata.

(** Decoding a body of at most [n] code points gives code points. *)
Definition decodes_valid (n : nat) : Prop :=
  forall l v, (List.length l <= n)%nat -> Forall valid l ->
              decode_escapes ucd l = Some v -> Forall valid v.

End ValidNotion.

Section CanonicalForms.
Variable ucd : unicodedata.

(** The two canonical tokens of a value under a prefix. *)
Definition single_form (p : str) (v : str) : str := p ++ repr ucd (PyStr v).

Definition double_form (p : str) (v : str) : str :=
  p ++ DQ :: flat_map json_char v ++ [DQ].

End CanonicalForms.

Section TokenNotions.
Variable ucd : unicodedata.

(** The token the override leaves in a key position. *)
Definition requote_token (tok : str) : str :=
  match to_single_quoted_string ucd tok with
  | Some t => t
  | None => tok
  end.

(** The token the default pass leaves. *)
Definition default_token (tok : str) : result str :=
  match literal_eval ucd tok with
  | None => Ok tok
  | Some (PyBytes _) => Raise TypeError
  | Some (PyStr v) =>
      if has_char DQ v && negb (has_char SQ v) then Ok (requote_token tok)
      else
        match to_double_quoted_string ucd tok with
        | Ok (Some t) => Ok t
        | Ok None => Ok tok
        | Raise e => Raise e
        end
  end.

(** Every token is undecodable, or excluded from both conversions, or an
    ordinary str literal. *)
Inductive token_view (tok : str) : Prop :=
| view_undecodable :
    literal_eval ucd tok = None -> token_view tok
| view_bytes b :
    literal_eval ucd tok = Some (PyBytes b) ->
    has_bytes (parse_prefix tok) = true -> token_view tok
| view_excluded v :
    literal_eval ucd tok = Some (PyStr v) ->
    is_triple_quoted tok || has_raw (parse_prefix tok) = true -> token_view tok
| view_ordinary v p q tail :
    literal_eval ucd tok = Some (PyStr v) ->
    tok = p ++ q :: tail ->
    _split_prefix_and_quoting tok = (p, q :: tail) ->
    str_prefix p -> is_quote q = true ->
    is_triple_quoted tok = false -> Forall valid v -> token_view tok.

End TokenNotions.

(** * Induction on the tree *)

Section NodeInduction.
Variable P : node -> Prop.

Definition P_arg (a : Arg') : Prop := P (arg_value a).

Definition P_dict_element (e : dict_element) : Prop :=
  match e with
  | DictElement k _ v _ => P k /\ P v
  | StarredDictElement _ v _ => P v
  end.

Definition P_element (e : element) : Prop := P (element_value e).

Definition P_part (p : part) : Prop :=
  match p with
  | Text _ => True
  | Child c => P c
  end.

Definition P_subscript_element (s : subscript_element) : Prop :=
  match s with
  | SubscriptElement (Index _ v) _ => P v
  | SubscriptElement (Slice ps) _ => Forall P_part ps
  end.

Hypothesis HName : forall h v, P (Name h v).
Hypothesis HAttribute : forall h v dot attr, P v -> P (Attribute h v dot attr).
Hypothesis HCall : forall h f op args cl,
  P f -> Forall P_arg args -> P (Call h f op args cl).

Hypothesis HDict : forall h op elts cl,
  Forall P_dict_element elts -> P (Dict h op elts cl).

Hypothesis HCollection : forall h k op elts cl,
  Forall P_element elts -> P (Collection h k op elts cl).

Hypothesis HSubscript : forall h v op sl cl,
  P v -> Forall P_subscript_element sl -> P (Subscript h v op sl cl).

Hypothesis HSimpleString : forall h tok, P (SimpleString h tok).
Hypothesis HOther : forall h ps, Forall P_part ps -> P (Other h ps).

Fixpoint node_induction (n : node) : P n :=
  let parts :=
    fix go (l : list part) : Forall P_part l :=
      match l with
      | [] => Forall_nil _
      | p :: l' =>
          Forall_cons p
            (match p return P_part p with
             | Text _ => I
             | Child c => node_induction c
             end) (go l')
      end in
  match n with
  | Name h v => HName h v
  | Attribute h v dot attr => HAttribute h v dot attr (node_induction v)
  | Call h f op args cl =>
      HCall h f op args cl (node_induction f)
        ((fix go (l : list Arg') : Forall P_arg l :=
            match l with
            | [] => Forall_nil _
            | a :: l' =>
                Forall_cons a
                  (match a return P_arg a with
                   | Arg _ v _ => node_induction v
                   end) (go l')
            end) args)
  | Dict h op elts cl =>
      HDict h op elts cl
        ((fix go (l : list dict_element) : Forall P_dict_element l :=
            match l with
            | [] => Forall_nil _
            | e :: l' =>
                Forall_cons e
                  (match e return P_dict_element e with
                   | DictElement k _ v _ => conj (node_induction k) (node_induction v)
                   | StarredDictElement _ v _ => node_induction v
                   end) (go l')
            end) elts)
  | Collection h k op elts cl =>
      HCollection h k op elts cl
        ((fix go (l : list element) : Forall P_element l :=
            match l with
            | [] => Forall_nil _
            | e :: l' =>
                Forall_cons e
                  (match e return P_element e with
                   | Element v _ => node_induction v
                   | StarredElement _ v _ => node_induction v
                   end) (go l')
            end) elts)
  | Subscript h v op sl cl =>
      HSubscript h v op sl cl (node_induction v)
        ((fix go (l : list subscript_element) : Forall P_subscript_element l :=
            match l with
            | [] => Forall_nil _
            | s :: l' =>
                Forall_cons s
                  (match s return P_subscript_element s with
                   | SubscriptElement (Index _ i) _ => node_induction i
                   | SubscriptElement (Slice ps) _ => parts ps
                   end) (go l')
            end) sl)
  | SimpleString h tok => HSimpleString h tok
  | Other h ps => HOther h ps (parts ps)
  end.

End NodeInduction.

(** [clone] on the children of a node. *)
Definition clone_part (p : part) : part :=
  match p with
  | Text t => Text t
  | Child c => Child (clone c)
  end.

Definition clone_dict_element (e : dict_element) : dict_element :=
  match e with
  | DictElement k colon v post => DictElement (clone k) colon (clone v) post
  | StarredDictElement pre v post => StarredDictElement pre (clone v) post
  end.

Definition clone_element (e : element) : element :=
  match e with
  | Element v post => Element (clone v) post
  | StarredElement pre v post => StarredElement pre (clone v) post
  end.

Definition clone_subscript_element (s : subscript_element) : subscript_element :=
  match s with
  | SubscriptElement (Index star v) post => SubscriptElement (Index star (clone v)) post
  | SubscriptElement (Slice ps) post => SubscriptElement (Slice (map clone_part ps)) post
  end.

(** [nometa n]: no node of [n] is a key of the position table. *)
Definition nometa (n : node) : Prop := clone n = n.

(** The class of a node. *)
Inductive node_kind :=
| KName | KAttribute | KCall | KDict | KCollection (k : collection_kind)
| KSubscript | KSimpleString | KOther.

Definition kind_of (n : node) : node_kind :=
  match n with
  | Name _ _ => KName
  | Attribute _ _ _ _ => KAttribute
  | Call _ _ _ _ _ => KCall
  | Dict _ _ _ _ => KDict
  | Collection _ k _ _ _ => KCollection k
  | Subscript _ _ _ _ _ => KSubscript
  | SimpleString _ _ => KSimpleString
  | Other _ _ => KOther
  end.

(** What an enclosing call does to one of its arguments. *)
Inductive ctx := CNone | CKey | CCtor | CFromKeys | CPair.

(** [f] at index [i] of [l]. *)
Fixpoint update_nth {A} (i : nat) (f : A -> A) (l : list A) : list A :=
  match l, i with
  | [], _ => []
  | a :: l', O => f a :: l'
  | a :: l', S j => a :: update_nth j f l'
  end.

Section Plain.
Variable ucd : unicodedata.
Variable b : bool.   (* [_source_has_noqa] *)

(** [_maybe_requote] where no node has a position entry. *)
Definition requote_new_plain (s : node) : option node :=
  if b then None
  else match s with
       | SimpleString _ tok =>
           option_map new_SimpleString (to_single_quoted_string ucd tok)
       | _ => None
       end.

Definition requote_plain (s : node) : node :=
  match requote_new_plain s with
  | Some new_s => new_s
  | None => s
  end.

Definition dict_key_plain (e : dict_element) : dict_element :=
  match e with
  | DictElement k colon v post => DictElement (requote_plain k) colon v post
  | StarredDictElement _ _ _ => e
  end.

Definition element_plain (e : element) : element :=
  match e with
  | Element v post => Element (requote_plain v) post
  | StarredElement _ _ _ => e
  end.

Definition pair_value_plain (x : node) : node :=
  match x with
  | Collection h k op (e0 :: rest) cl =>
      if is_list_or_tuple k
      then Collection h k op
             (element_with_value e0 (requote_plain (element_value e0)) :: rest) cl
      else x
  | _ => x
  end.

Definition pair_plain (e : element) : element :=
  match e with
  | Element v post => Element (pair_value_plain v) post
  | StarredElement _ _ _ => e
  end.

Definition apply_ctx (c : ctx) (x : node) : node :=
  match c with
  | CNone => x
  | CKey => requote_plain x
  | CCtor =>
      match x with
      | Dict h op elts cl => Dict h op (map dict_key_plain elts) cl
      | Collection h k op elts cl =>
          if is_list_or_tuple k then Collection h k op (map pair_plain elts) cl
          else x
      | _ => x
      end
  | CFromKeys =>
      match x with
      | Collection h k op elts cl => Collection h k op (map element_plain elts) cl
      | _ => x
      end
  | CPair => pair_value_plain x
  end.

Definition first_kind (args : list Arg') : option node_kind :=
  match args with
  | a :: _ => Some (kind_of (arg_value a))
  | [] => None
  end.

Definition ctor_first (args : list Arg') : bool :=
  match first_kind args with
  | Some KDict => true
  | Some (KCollection k) => is_list_or_tuple k
  | _ => false
  end.

Definition collection_first (args : list Arg') : bool :=
  match first_kind args with
  | Some (KCollection _) => true
  | _ => false
  end.

(** The argument a call rewrites and how, following the order of the
    rules in [leave_Call]. *)
Definition rule_dunder (func : node) (args : list Arg') : option (nat * ctx) :=
  match method_name func with
  | Some dunder =>
      if mem dunder DUUNDER_KEY && nonempty args then Some (0%nat, CKey)
      else if mem dunder DUUNDER_ATTR && nonempty args then
        match first_string_index args with
        | Some idx => Some (idx, CKey)
        | None => None
        end
      else None
  | None => None
  end.

Definition rule_fromkeys (func : node) (args : list Arg') : option (nat * ctx) :=
  if method_in func FROM_KEYS && collection_first args
  then Some (0%nat, CFromKeys)
  else rule_dunder func args.

Definition rule_constructor (func : node) (args : list Arg') : option (nat * ctx) :=
  if last_segment_in (func_name_of func) [py "dict"; py "OrderedDict"] &&
     ctor_first args
  then Some (0%nat, CCtor)
  else rule_fromkeys func args.

Definition call_rule (func : node) (args : list Arg') : option (nat * ctx) :=
  let func_name := func_name_of func in
  if last_segment_in func_name ATTR_FUNCS && (2 <=? List.length args)%nat
  then Some (1%nat, CKey)
  else if method_in func MAPPING_FIRST_KEY_METHODS && nonempty args
  then Some (0%nat, CKey)
  else if last_segment_in func_name OPERATOR_GETTERS && nonempty args
  then Some (0%nat, CKey)
  else rule_constructor func args.

Definition apply_rule (rule : option (nat * ctx)) (u : node) : node :=
  match u with
  | Call h func op args cl =>
      match rule with
      | Some (i, c) =>
          Call h func op
            (update_nth i (fun a => arg_with_value a (apply_ctx c (arg_value a))) args)
            cl
      | None => u
      end
  | _ => u
  end.

Definition call_plain (u : node) : node :=
  match u with
  | Call _ func _ args _ => apply_rule (call_rule func args) u
  | _ => u
  end.

Definition dict_plain (u : node) : node :=
  match u with
  | Dict h op elts cl => Dict h op (map dict_key_plain elts) cl
  | _ => u
  end.

Definition index_plain (s : subscript_element) : subscript_element :=
  match s with
  | SubscriptElement (Index _ target) post =>
      match requote_new_plain target with
      | Some new_target => SubscriptElement (Index [] new_target) post
      | None => s
      end
  | SubscriptElement (Slice _) _ => s
  end.

Definition subscript_plain (u : node) : node :=
  match u with
  | Subscript h v op sl cl => Subscript h v op (map index_plain sl) cl
  | _ => u
  end.

Definition string_plain (u : node) : result node :=
  match u with
  | SimpleString h tok =>
      d <- default_token ucd tok ;;
      Ok (if str_eqb d tok then u else new_SimpleString d)
  | _ => Ok u
  end.

End Plain.

(** [nometa] on the children of a node. *)
Definition nometa_arg (a : Arg') : Prop := nometa (arg_value a).

Definition nometa_dict_element (e : dict_element) : Prop :=
  match e with
  | DictElement k _ v _ => nometa k /\ nometa v
  | StarredDictElement _ v _ => nometa v
  end.

Definition nometa_element (e : element) : Prop := nometa (element_value e).

Definition nometa_part (p : part) : Prop :=
  match p with Text _ => True | Child c => nometa c end.

Definition nometa_subscript_element (s : subscript_element) : Prop :=
  match s with
  | SubscriptElement (Index _ v) _ => nometa v
  | SubscriptElement (Slice ps) _ => Forall nometa_part ps
  end.

Section ChangedKeys.
Variable ucd : unicodedata.
Variable self : QuoteKeysTransformer.

(** Whether [leave_Dict] and [leave_Subscript] get a new object back for
    the key of an element. *)
Definition dict_key_changed (e : dict_element) : bool :=
  match e with
  | DictElement k _ _ _ =>
      match requote_new_plain ucd (_source_has_noqa self) k with
      | Some _ => true
      | None => false
      end
  | StarredDictElement _ _ _ => false
  end.

Definition index_changed (s : subscript_element) : bool :=
  match s with
  | SubscriptElement (Index _ target) _ =>
      match requote_new_plain ucd (_source_has_noqa self) target with
      | Some _ => true
      | None => false
      end
  | SubscriptElement (Slice _) _ => false
  end.

End ChangedKeys.

Section VisitChildren.
Variable ucd : unicodedata.
Variable self : QuoteKeysTransformer.

(** The traversal on the children of a node, as [visit] runs it. *)
Definition visit_arg (a : Arg') : result Arg' :=
  match a with
  | Arg pre v post => v' <- visit ucd self v ;; Ok (Arg pre v' post)
  end.

Definition visit_dict_element (e : dict_element) : result dict_element :=
  match e with
  | DictElement k colon v post =>
      k' <- visit ucd self k ;;
      v' <- visit ucd self v ;;
      Ok (DictElement k' colon v' post)
  | StarredDictElement pre v post =>
      v' <- visit ucd self v ;;
      Ok (StarredDictElement pre v' post)
  end.

Definition visit_element (e : element) : result element :=
  match e with
  | Element v post => v' <- visit ucd self v ;; Ok (Element v' post)
  | StarredElement pre v post =>
      v' <- visit ucd self v ;; Ok (StarredElement pre v' post)
  end.

Definition visit_part (p : part) : result part :=
  match p with
  | Text t => Ok (Text t)
  | Child c => c' <- visit ucd self c ;; Ok (Child c')
  end.

Definition visit_subscript_element (s : subscript_element) : result subscript_element :=
  match s with
  | SubscriptElement (Index star i) post =>
      i' <- visit ucd self i ;; Ok (SubscriptElement (Index star i') post)
  | SubscriptElement (Slice ps) post =>
      ps' <- mapM visit_part ps ;; Ok (SubscriptElement (Slice ps') post)
  end.

(** [P] holds of what the traversal returns on [n]. *)
Definition visited (P : node -> Prop) (n : node) : Prop :=
  forall x, visit ucd self n = Ok x -> P x.

End VisitChildren.

Section StableNotions.
Variable ucd : unicodedata.
Variable self : QuoteKeysTransformer.

(** A tree that a second visit, followed by what the enclosing call does
    to it, gives back. *)
Definition stable (c : ctx) (x : node) : Prop :=
  exists x',
    visit ucd self (apply_ctx ucd (_source_has_noqa self) c x) = Ok x' /\
    apply_ctx ucd (_source_has_noqa self) c x' =
    apply_ctx ucd (_source_has_noqa self) c x.

(** A tree without position entries that is stable under every context. *)

Definition Stable (x : node) : Prop := nometa x /\ forall c, stable c x.

Definition Stable_part (p : part) : Prop :=
  match p with Text _ => True | Child c => Stable c end.

Definition Stable_element (e : element) : Prop := Stable (element_value e).

Definition Stable_arg (a : Arg') : Prop := Stable (arg_value a).

Definition Stable_dict_element (e : dict_element) : Prop :=
  match e with
  | DictElement k _ v _ => Stable k /\ Stable v
  | StarredDictElement _ v _ => Stable v
  end.

Definition Stable_subscript_element (s : subscript_element) : Prop :=
  match s with
  | SubscriptElement (Index _ v) _ => Stable v
  | SubscriptElement (Slice ps) _ => Forall Stable_part ps
  end.

(** The classes of the values of the arguments of a call. *)
Definition arg_kinds (args : list Arg') : list node_kind :=
  map (fun a => kind_of (arg_value a)) args.

End StableNotions.

Section VisitOk.
Variable ucd : unicodedata.
Variable self : QuoteKeysTransformer.

(** The traversal of a tree of values in the plane returns a stable tree. *)
Definition visit_ok (n : node) : Prop :=
  bmp_tree ucd n -> forall x, visit ucd self n = Ok x -> Stable ucd self x.

End VisitOk.

Section RelatedNotions.
Variable ucd : unicodedata.
Variable self : QuoteKeysTransformer.
Variable R : str -> str -> Prop.

(** The tokens of two trees, place by place, are in the relation [R]. *)
Definition related (x y : node) : Prop := Forall2 R (tokens x) (tokens y).

Definition visit_related (n : node) : Prop :=
  forall x, visit ucd self n = Ok x -> related n x.

End RelatedNotions.

(** ** Notions of the further properties *)

(** The result of a computation that raises TypeError exactly when [bad]. *)
Definition outcome {A} (bad : bool) (r : result A) : Prop :=
  if bad then r = Raise TypeError else exists x, r = Ok x.

(** A token with the prefix of another, and with its value when that is
    a str without code points above U+FFFF. *)
Definition token_kept (ucd : unicodedata) (t t' : str) : Prop :=
  fst (_split_prefix_and_quoting t') = fst (_split_prefix_and_quoting t) /\
  forall v, literal_eval ucd t = Some (PyStr v) -> bmp v ->
            literal_eval ucd t' = Some (PyStr v).

(** The method names the rules of [leave_Call] know. *)
Definition METHOD_NAMES : list str :=
  MAPPING_FIRST_KEY_METHODS ++ FROM_KEYS ++ DUUNDER_KEY ++ DUUNDER_ATTR.

(** [skeleton] on the children of a node. *)
Definition skeleton_arg (a : Arg') : Arg' :=
  match a with Arg pre v post => Arg pre (skeleton v) post end.

Definition skeleton_part (p : part) : part :=
  match p with
  | Text t => Text t
  | Child c => Child (skeleton c)
  end.

Definition skeleton_dict_element (e : dict_element) : dict_element :=
  match e with
  | DictElement k colon v post => DictElement (skeleton k) colon (skeleton v) post
  | StarredDictElement pre v post => StarredDictElement pre (skeleton v) post
  end.

Definition skeleton_element (e : element) : element :=
  match e with
  | Element v post => Element (skeleton v) post
  | StarredElement pre v post => StarredElement pre (skeleton v) post
  end.

Definition skeleton_subscript_element (s : subscript_element) : subscript_element :=
  match s with
  | SubscriptElement (Index star v) post =>
      SubscriptElement (Index (if is_SimpleString v then [] else star) (skeleton v)) post
  | SubscriptElement (Slice ps) post =>
      SubscriptElement (Slice (map skeleton_part ps)) post
  end.

(* ================================================================== *)
(** * Tokenizer and escape decoding *)

Lemma hexval_hexdigit d : d < 16 -> hexval (hexdigit d) = Some d.
Proof.
  intros H. unfold hexval, hexdigit.
  destruct (d <? 10) eqn:E.
  - apply N.ltb_lt in E.
    replace ((48 <=? 48 + d) && (48 + d <=? 57)) with true
      by (symmetry; apply andb_true_iff; split; apply N.leb_le; lia).
    f_equal. lia.
  - apply N.ltb_ge in E.
    replace ((48 <=? 87 + d) && (87 + d <=? 57)) with false
      by (symmetry; apply andb_false_iff; right; apply N.leb_gt; lia).
    replace ((97 <=? 87 + d) && (87 + d <=? 102)) with true
      by (symmetry; apply andb_true_iff; split; apply N.leb_le; lia).
    f_equal. lia.
Qed.

Lemma hexnum_app acc l d :
  hexnum acc (l ++ [d]) =
  match hexnum acc l, hexval d with
  | Some a, Some v => Some (16 * a + v)
  | _, _ => None
  end.
Proof.
  revert acc. induction l as [|x l IH]; intros acc; simpl.
  - destruct (hexval d); reflexivity.
  - destruct (hexval x); [apply IH | reflexivity].
Qed.

Lemma hexnum_hexfmt w n : n < 16 ^ N.of_nat w -> hexnum 0 (hexfmt w n) = Some n.
Proof.
  revert n. induction w as [|w IH]; intros n H.
  - simpl in *. f_equal. lia.
  - cbn [hexfmt]. rewrite hexnum_app.
    rewrite IH.
    + rewrite hexval_hexdigit by (apply N.mod_lt; lia).
      f_equal. pose proof (N.div_mod n 16). lia.
    + rewrite Nat2N.inj_succ, N.pow_succ_r' in H.
      apply N.Div0.div_lt_upper_bound; lia.
Qed.

Lemma scan_single_plain q c rest :
  plain q c -> is_quote q = true ->
  scan_single q (c :: rest) = option_map (cons c) (scan_single q rest).
Proof.
  intros (H1 & H2 & H3) _. cbn [scan_single].
  destruct (N.eqb_spec c q); [contradiction|].
  destruct (N.eqb_spec c NEWLINE); [contradiction|].
  destruct (N.eqb_spec c BACKSLASH); [contradiction|]. reflexivity.
Qed.

Lemma option_map_app {A} (l1 l2 : list A) (o : option (list A)) :
  option_map (app l1) (option_map (app l2) o) = option_map (app (l1 ++ l2)) o.
Proof. destruct o; simpl; [rewrite app_assoc|]; reflexivity. Qed.

Lemma option_map_nil {A} (o : option (list A)) : option_map (app []) o = o.
Proof. destruct o; reflexivity. Qed.

Lemma scan_single_plains q l rest :
  Forall (plain q) l -> is_quote q = true ->
  scan_single q (l ++ rest) = option_map (app l) (scan_single q rest).
Proof.
  intros H Hq. induction H as [|c l Hc Hl IH].
  - simpl. symmetry. apply option_map_nil.
  - cbn [app]. rewrite scan_single_plain, IH by assumption.
    destruct (scan_single q rest); reflexivity.
Qed.

Lemma scan_single_escape q e rest :
  is_quote q = true ->
  scan_single q (BACKSLASH :: e :: rest) =
  option_map (app [BACKSLASH; e]) (scan_single q rest).
Proof.
  intros Hq. cbn [scan_single].
  unfold is_quote, SQ, DQ in Hq.
  destruct (N.eqb_spec BACKSLASH q) as [E|_].
  { subst q. discriminate. }
  destruct (scan_single q rest); reflexivity.
Qed.

Lemma is_quote_cases q : is_quote q = true -> q = SQ \/ q = DQ.
Proof.
  unfold is_quote. intros H. apply orb_true_iff in H.
  destruct H as [H|H]; apply N.eqb_eq in H; auto.
Qed.

Lemma hexdigit_range d : d < 16 -> (48 <= hexdigit d <= 57) \/ (97 <= hexdigit d <= 102).
Proof.
  intros H. unfold hexdigit. destruct (N.ltb_spec d 10); lia.
Qed.

Lemma hexdigit_plain q d : is_quote q = true -> d < 16 -> plain q (hexdigit d).
Proof.
  intros Hq Hd. pose proof (hexdigit_range d Hd).
  apply is_quote_cases in Hq. unfold plain, NEWLINE, BACKSLASH, SQ, DQ in *.
  destruct Hq; subst q; lia.
Qed.

Lemma hexfmt_Forall (P : N -> Prop) w n :
  (forall d, d < 16 -> P (hexdigit d)) -> Forall P (hexfmt w n).
Proof.
  intros H. revert n. induction w as [|w IH]; intros n; cbn [hexfmt].
  - constructor.
  - apply Forall_app. split; [apply IH|].
    constructor; [|constructor]. apply H, N.mod_lt. lia.
Qed.

Lemma scan_single_hex q e w n rest :
  is_quote q = true ->
  scan_single q (BACKSLASH :: e :: hexfmt w n ++ rest) =
  option_map (app (BACKSLASH :: e :: hexfmt w n)) (scan_single q rest).
Proof.
  intros Hq.
  change (BACKSLASH :: e :: hexfmt w n ++ rest)
    with (BACKSLASH :: e :: (hexfmt w n ++ rest)).
  rewrite scan_single_escape by assumption.
  rewrite scan_single_plains by
    (auto; apply hexfmt_Forall; intros; apply hexdigit_plain; assumption).
  rewrite option_map_app. reflexivity.
Qed.

Section DecodeLemmas.
Variable ucd : unicodedata.

Lemma decode_plain c rest :
  c <> BACKSLASH ->
  decode_escapes ucd (c :: rest) = option_map (cons c) (decode_escapes ucd rest).
Proof.
  intros H. cbn [decode_escapes].
  destruct (N.eqb_spec c BACKSLASH); [contradiction|]. reflexivity.
Qed.

Lemma decode_simple e v rest :
  simple_escape e = Some v -> e <> NEWLINE ->
  decode_escapes ucd (BACKSLASH :: e :: rest) =
  option_map (cons v) (decode_escapes ucd rest).
Proof.
  intros H Hn. cbn [decode_escapes].
  change (negb (BACKSLASH =? BACKSLASH)) with false. cbv iota.
  destruct (N.eqb_spec e NEWLINE); [contradiction|].
  rewrite H. reflexivity.
Qed.

Lemma decode_x_unfold h1 h2 rest :
  decode_escapes ucd (BACKSLASH :: chr "x" :: h1 :: h2 :: rest) =
  escaped (hexnum 0 [h1; h2]) (decode_escapes ucd rest).
Proof. reflexivity. Qed.

Lemma decode_u_unfold h1 h2 h3 h4 rest :
  decode_escapes ucd (BACKSLASH :: chr "u" :: h1 :: h2 :: h3 :: h4 :: rest) =
  escaped (hexnum 0 [h1; h2; h3; h4]) (decode_escapes ucd rest).
Proof. reflexivity. Qed.

Lemma decode_U_unfold h1 h2 h3 h4 h5 h6 h7 h8 rest :
  decode_escapes ucd
    (BACKSLASH :: chr "U" :: h1 :: h2 :: h3 :: h4 :: h5 :: h6 :: h7 :: h8 :: rest) =
  escaped (hexnum 0 [h1; h2; h3; h4; h5; h6; h7; h8]) (decode_escapes ucd rest).
Proof. reflexivity. Qed.

Lemma escaped_ok c r :
  c <= MAX_CODEPOINT -> escaped (Some c) r = option_map (cons c) r.
Proof.
  intros H. unfold escaped. destruct r; [|reflexivity].
  destruct (N.leb_spec c MAX_CODEPOINT); [reflexivity | lia].
Qed.

Lemma decode_x c rest :
  c <= 255 ->
  decode_escapes ucd (py "\x" ++ hexfmt 2 c ++ rest) =
  option_map (cons c) (decode_escapes ucd rest).
Proof.
  intros H.
  etransitivity; [exact (decode_x_unfold _ _ rest)|].
  change [hexdigit (c / 16 mod 16); hexdigit (c mod 16)] with (hexfmt 2 c).
  rewrite hexnum_hexfmt by (simpl; lia).
  apply escaped_ok. unfold MAX_CODEPOINT. lia.
Qed.

Lemma decode_u c rest :
  c <= 65535 ->
  decode_escapes ucd (py "\u" ++ hexfmt 4 c ++ rest) =
  option_map (cons c) (decode_escapes ucd rest).
Proof.
  intros H.
  etransitivity; [exact (decode_u_unfold _ _ _ _ rest)|].
  match goal with |- escaped (hexnum 0 ?l) _ = _ => change l with (hexfmt 4 c) end.
  rewrite hexnum_hexfmt by (simpl; lia).
  apply escaped_ok. unfold MAX_CODEPOINT. lia.
Qed.

Lemma decode_U c rest :
  c <= MAX_CODEPOINT ->
  decode_escapes ucd (py "\U" ++ hexfmt 8 c ++ rest) =
  option_map (cons c) (decode_escapes ucd rest).
Proof.
  intros H.
  etransitivity; [exact (decode_U_unfold _ _ _ _ _ _ _ _ rest)|].
  match goal with |- escaped (hexnum 0 ?l) _ = _ => change l with (hexfmt 8 c) end.
  rewrite hexnum_hexfmt by (unfold MAX_CODEPOINT in H; simpl; lia).
  apply escaped_ok. assumption.
Qed.

End DecodeLemmas.

Ltac cmp :=
  repeat match goal with
  | H : context [N.eqb ?a ?b] |- _ => destruct (N.eqb_spec a b)
  | H : context [N.ltb ?a ?b] |- _ => destruct (N.ltb_spec a b)
  | H : context [N.leb ?a ?b] |- _ => destruct (N.leb_spec a b)
  | |- context [N.eqb ?a ?b] => destruct (N.eqb_spec a b)
  | |- context [N.ltb ?a ?b] => destruct (N.ltb_spec a b)
  | |- context [N.leb ?a ?b] => destruct (N.leb_spec a b)
  end.

Section Pieces.
Variable ucd : unicodedata.

Lemma hexfmt_forallb (P : N -> bool) w n :
  (forall d, d < 16 -> P (hexdigit d) = true) -> forallb P (hexfmt w n) = true.
Proof.
  intros H. apply forallb_forall. apply Forall_forall.
  apply hexfmt_Forall. assumption.
Qed.

Lemma hexdigit_source d : d < 16 -> source_char (hexdigit d) = true.
Proof.
  intros H. pose proof (hexdigit_range d H) as R.
  unfold source_char, is_surrogate, MAX_CODEPOINT.
  repeat (apply andb_true_iff; split); try apply negb_true_iff;
    try apply andb_false_iff;
    try (apply N.ltb_lt; lia); try (apply N.leb_le; lia).
  left. apply N.leb_gt. lia.
Qed.

Lemma hexdigit_nocr d : d < 16 -> negb (hexdigit d =? CR) = true.
Proof.
  intros H. pose proof (hexdigit_range d H) as R.
  apply negb_true_iff, N.eqb_neq. unfold CR. lia.
Qed.

Lemma escape_piece_ok q e c :
  is_quote q = true -> simple_escape e = Some c -> e <> NEWLINE ->
  source_char e = true -> e <> CR ->
  piece_ok ucd q [BACKSLASH; e] c.
Proof.
  intros Hq He Hn Hs Hcr. split.
  - intros rest. apply scan_single_escape. assumption.
  - intros rest. apply decode_simple; assumption.
  - cbn [forallb]. rewrite Hs. reflexivity.
  - cbn [forallb]. apply N.eqb_neq in Hcr. rewrite Hcr. reflexivity.
  - exists BACKSLASH, [e]. split; [reflexivity|].
    apply is_quote_cases in Hq. unfold BACKSLASH, SQ, DQ in *.
    destruct Hq; subst q; lia.
Qed.

Lemma hex_piece_ok q e w c :
  is_quote q = true -> source_char e = true -> e <> CR ->
  (forall rest, decode_escapes ucd (BACKSLASH :: e :: hexfmt w c ++ rest) =
                option_map (cons c) (decode_escapes ucd rest)) ->
  piece_ok ucd q (BACKSLASH :: e :: hexfmt w c) c.
Proof.
  intros Hq Hs Hcr Hd. split.
  - intros rest. apply scan_single_hex. assumption.
  - intros rest. apply Hd.
  - cbn [forallb]. rewrite Hs. apply hexfmt_forallb, hexdigit_source.
  - cbn [forallb]. apply N.eqb_neq in Hcr. rewrite Hcr.
    apply hexfmt_forallb, hexdigit_nocr.
  - exists BACKSLASH, (e :: hexfmt w c). split; [reflexivity|].
    apply is_quote_cases in Hq. unfold BACKSLASH, SQ, DQ in *.
    destruct Hq; subst q; lia.
Qed.

Lemma raw_piece_ok q c :
  is_quote q = true -> plain q c -> source_char c = true -> c <> CR ->
  piece_ok ucd q [c] c.
Proof.
  intros Hq Hp Hs Hcr. split.
  - intros rest. cbn [app]. rewrite scan_single_plain by assumption.
    destruct (scan_single q rest); reflexivity.
  - intros rest. apply decode_plain. apply Hp.
  - cbn [forallb]. rewrite Hs. reflexivity.
  - cbn [forallb]. apply N.eqb_neq in Hcr. rewrite Hcr. reflexivity.
  - exists c, []. split; [reflexivity | apply Hp].
Qed.

Lemma repr_char_ok q c :
  is_quote q = true -> c <= MAX_CODEPOINT -> piece_ok ucd q (repr_char ucd q c) c.
Proof.
  intros Hq Hc. pose proof (is_quote_cases q Hq) as Hq'. unfold repr_char.
  destruct ((c =? q) || (c =? BACKSLASH)) eqn:E1.
  { apply escape_piece_ok; auto.
    - apply orb_true_iff in E1. unfold SQ, DQ, BACKSLASH in *.
      destruct E1 as [E|E]; apply N.eqb_eq in E; subst c;
        [destruct Hq'; subst q|]; reflexivity.
    - apply orb_true_iff in E1. unfold SQ, DQ, BACKSLASH, NEWLINE in *.
      destruct E1 as [E|E]; apply N.eqb_eq in E; subst c;
        [destruct Hq'; subst q|]; lia.
    - apply orb_true_iff in E1. unfold SQ, DQ, BACKSLASH in *.
      destruct E1 as [E|E]; apply N.eqb_eq in E; subst c;
        [destruct Hq'; subst q|]; reflexivity.
    - apply orb_true_iff in E1. unfold SQ, DQ, BACKSLASH, CR in *.
      destruct E1 as [E|E]; apply N.eqb_eq in E; subst c;
        [destruct Hq'; subst q|]; lia. }
  apply orb_false_iff in E1. destruct E1 as [E1 E2].
  apply N.eqb_neq in E1, E2.
  destruct (N.eqb_spec c 9) as [->|N9].
  { apply escape_piece_ok; auto; try reflexivity; unfold NEWLINE, CR; cbn; lia. }
  destruct (N.eqb_spec c 10) as [->|N10].
  { apply escape_piece_ok; auto; try reflexivity; unfold NEWLINE, CR; cbn; lia. }
  destruct (N.eqb_spec c 13) as [->|N13].
  { apply escape_piece_ok; auto; try reflexivity; unfold NEWLINE, CR; cbn; lia. }
  destruct ((c <? 32) || (c =? 127)) eqn:E3.
  { apply (hex_piece_ok q (chr "x") 2 c); auto; try reflexivity;
      try (unfold CR; cbn; lia).
    intros rest. apply (decode_x ucd c rest).
      apply orb_true_iff in E3. destruct E3 as [E|E]; cmp; try discriminate; lia. }
  apply orb_false_iff in E3. destruct E3 as [E3 E4].
  apply N.ltb_ge in E3. apply N.eqb_neq in E4.
  assert (Hraw : source_char c = true -> piece_ok ucd q [c] c).
  { intros Hs. apply raw_piece_ok; auto.
    unfold plain, NEWLINE. repeat split; auto. }
  destruct (N.ltb_spec c 127) as [L|L].
  { apply Hraw. unfold source_char, is_surrogate, MAX_CODEPOINT.
    cmp; try reflexivity; lia. }
  destruct (isprintable ucd c) eqn:P.
  { apply Hraw. unfold isprintable in P.
    destruct (N.ltb_spec c 128); [lia|].
    apply andb_true_iff in P. destruct P as [P P3].
    apply andb_true_iff in P. destruct P as [P1 P2].
    unfold source_char. rewrite P2, P3.
    destruct (N.ltb_spec 0 c); [reflexivity | lia]. }
  destruct (N.leb_spec c 255).
  { apply (hex_piece_ok q (chr "x") 2 c); auto; try reflexivity;
      try (unfold CR; cbn; lia).
    intros rest. apply (decode_x ucd c rest). assumption. }
  destruct (N.leb_spec c 65535).
  { apply (hex_piece_ok q (chr "u") 4 c); auto; try reflexivity;
      try (unfold CR; cbn; lia).
    intros rest. apply (decode_u ucd c rest). assumption. }
  apply (hex_piece_ok q (chr "U") 8 c); auto; try reflexivity;
    try (unfold CR; cbn; lia).
  intros rest. apply (decode_U ucd c rest). assumption.
Qed.

End Pieces.

Section Pieces2.
Variable ucd : unicodedata.

Lemma json_char_ok c : c < 65536 -> piece_ok ucd DQ (json_char c) c.
Proof.
  intros Hc. unfold json_char.
  assert (Hq : is_quote DQ = true) by reflexivity.
  destruct (N.eqb_spec c DQ) as [->|N1].
  { apply escape_piece_ok; auto; try reflexivity; unfold NEWLINE, CR, DQ; lia. }
  destruct (N.eqb_spec c BACKSLASH) as [->|N2].
  { apply escape_piece_ok; auto; try reflexivity; unfold NEWLINE, CR, BACKSLASH; lia. }
  destruct (N.eqb_spec c 10) as [->|N10].
  { apply escape_piece_ok; auto; try reflexivity; unfold NEWLINE, CR; cbn; lia. }
  destruct (N.eqb_spec c 13) as [->|N13].
  { apply escape_piece_ok; auto; try reflexivity; unfold NEWLINE, CR; cbn; lia. }
  destruct (N.eqb_spec c 9) as [->|N9].
  { apply escape_piece_ok; auto; try reflexivity; unfold NEWLINE, CR; cbn; lia. }
  destruct (N.eqb_spec c 12) as [->|N12].
  { apply escape_piece_ok; auto; try reflexivity; unfold NEWLINE, CR; cbn; lia. }
  destruct (N.eqb_spec c 8) as [->|N8].
  { apply escape_piece_ok; auto; try reflexivity; unfold NEWLINE, CR; cbn; lia. }
  destruct ((32 <=? c) && (c <=? 126)) eqn:E.
  { apply andb_true_iff in E. destruct E as [E1 E2].
    apply N.leb_le in E1, E2.
    apply raw_piece_ok; auto.
    - unfold plain, NEWLINE. repeat split; auto.
    - unfold source_char, is_surrogate, MAX_CODEPOINT. cmp; try reflexivity; lia. }
  destruct (N.ltb_spec c 65536); [|lia].
  apply (hex_piece_ok ucd DQ (chr "u") 4 c); auto; try reflexivity;
    try (unfold CR; cbn; lia).
  intros rest. apply (decode_u ucd c rest). lia.
Qed.

(** The body made of the pieces of every character of [v]. *)
Lemma pieces_scan q (f : N -> str) v :
  is_quote q = true -> (forall c, In c v -> piece_ok ucd q (f c) c) ->
  scan_single q (flat_map f v ++ [q]) = Some (flat_map f v).
Proof.
  intros Hq H. induction v as [|c v IH]; cbn [flat_map].
  - cbn. rewrite N.eqb_refl. reflexivity.
  - rewrite <- app_assoc. rewrite (po_scan _ _ _ _ (H c (or_introl eq_refl))).
    rewrite IH by (intros; apply H; right; assumption). reflexivity.
Qed.

Lemma pieces_decode q (f : N -> str) v :
  (forall c, In c v -> piece_ok ucd q (f c) c) ->
  decode_escapes ucd (flat_map f v) = Some v.
Proof.
  intros H. induction v as [|c v IH]; cbn [flat_map].
  - reflexivity.
  - rewrite (po_decode _ _ _ _ (H c (or_introl eq_refl))).
    rewrite IH by (intros; apply H; right; assumption). reflexivity.
Qed.

Lemma pieces_forallb (P : N -> bool) (f : N -> str) v :
  (forall c, In c v -> forallb P (f c) = true) ->
  forallb P (flat_map f v) = true.
Proof.
  intros H. induction v as [|c v IH]; cbn [flat_map].
  - reflexivity.
  - rewrite forallb_app, H, IH; auto using in_eq, in_cons.
Qed.

End Pieces2.

Lemma str_eqb_eq a b : str_eqb a b = true <-> a = b.
Proof.
  revert b. induction a as [|x a IH]; intros [|y b]; simpl; split; intros H;
    try reflexivity; try discriminate.
  - apply andb_true_iff in H. destruct H as [H1 H2].
    apply N.eqb_eq in H1. apply IH in H2. congruence.
  - injection H as -> ->. rewrite N.eqb_refl. apply IH. reflexivity.
Qed.

Lemma str_eqb_refl a : str_eqb a a = true.
Proof. apply str_eqb_eq. reflexivity. Qed.

Lemma str_eqb_neq a b : str_eqb a b = false <-> a <> b.
Proof.
  split.
  - intros H E. apply str_eqb_eq in E. congruence.
  - intros H. destruct (str_eqb a b) eqn:E; [|reflexivity].
    apply str_eqb_eq in E. contradiction.
Qed.

Lemma universal_newlines_id s :
  forallb (fun x => negb (x =? CR)) s = true -> universal_newlines s = s.
Proof.
  induction s as [|c s IH]; intros H; [reflexivity|].
  cbn [forallb] in H. apply andb_true_iff in H. destruct H as [H1 H2].
  cbn [universal_newlines]. apply negb_true_iff in H1. rewrite H1.
  f_equal. apply IH. assumption.
Qed.

Lemma split_prefix_app p rest :
  forallb (fun x => negb (is_quote x)) p = true ->
  (match rest with [] => True | c :: _ => is_quote c = true end) ->
  _split_prefix_and_quoting (p ++ rest) = (p, rest).
Proof.
  intros Hp Hr. induction p as [|c p IH].
  - destruct rest as [|c r]; [reflexivity|]. cbn. rewrite Hr. reflexivity.
  - cbn [forallb] in Hp. apply andb_true_iff in Hp. destruct Hp as [H1 H2].
    apply negb_true_iff in H1. cbn [app _split_prefix_and_quoting].
    rewrite H1, IH by assumption. reflexivity.
Qed.

Lemma startswith_app p s : startswith p (p ++ s) = true.
Proof. induction p; simpl; [|rewrite N.eqb_refl]; auto. Qed.

Section Quoted.
Variable ucd : unicodedata.

Lemma pieces_not_triple q (f : N -> str) v :
  (forall c, In c v -> piece_ok ucd q (f c) c) ->
  startswith [q; q] (flat_map f v ++ [q]) = false.
Proof.
  intros H. destruct v as [|c v].
  - cbn. rewrite N.eqb_refl. reflexivity.
  - cbn [flat_map].
    destruct (po_head _ _ _ _ (H c (or_introl eq_refl))) as (x & l & E & Hx).
    rewrite E. cbn. apply N.eqb_neq in Hx. rewrite N.eqb_sym, Hx. reflexivity.
Qed.

Lemma literal_eval_quoted p q (f : N -> str) v :
  str_prefix p -> is_quote q = true ->
  (forall c, In c v -> piece_ok ucd q (f c) c) ->
  literal_eval ucd (p ++ q :: flat_map f v ++ [q]) = Some (PyStr v).
Proof.
  intros Hp Hq H. unfold literal_eval.
  assert (Hqs : source_char q = true /\ negb (q =? CR) = true).
  { destruct (is_quote_cases q Hq); subst q; split; reflexivity. }
  assert (Hps : forallb source_char p = true /\
                forallb (fun x => negb (x =? CR)) p = true /\
                forallb (fun x => negb (is_quote x)) p = true /\
                prefix_kind (lower p) = Some (false, false)).
  { destruct Hp as [->|[->| ->]]; repeat split; reflexivity. }
  destruct Hps as (Hp1 & Hp2 & Hp3 & Hp4). destruct Hqs as [Hq1 Hq2].
  assert (Hsrc : forallb source_char (p ++ q :: flat_map f v ++ [q]) = true).
  { rewrite forallb_app, Hp1. cbn [forallb andb]. rewrite Hq1.
    rewrite forallb_app. cbn [forallb]. rewrite Hq1.
    rewrite pieces_forallb; [reflexivity|].
    intros c Hc. apply (po_source _ _ _ _ (H c Hc)). }
  rewrite Hsrc. cbn [negb].
  rewrite universal_newlines_id.
  2:{ rewrite forallb_app, Hp2. cbn [forallb andb]. rewrite Hq2.
      rewrite forallb_app. cbn [forallb]. rewrite Hq2.
      rewrite pieces_forallb; [reflexivity|].
      intros c Hc. apply (po_nocr _ _ _ _ (H c Hc)). }
  rewrite split_prefix_app by assumption.
  rewrite Hp4. unfold string_body. rewrite Hq.
  rewrite pieces_not_triple by assumption.
  rewrite (pieces_scan ucd q f v Hq H).
  rewrite (pieces_decode ucd q f v H). reflexivity.
Qed.

End Quoted.

(* ================================================================== *)
(** * Decoded values are code points; prefixes *)

Section Valid.
Variable ucd : unicodedata.

Lemma escaped_valid o r v :
  escaped o r = Some v -> exists c s, r = Some s /\ v = c :: s /\ valid c.
Proof.
  unfold escaped. destruct o as [c|]; [|discriminate].
  destruct r as [s|]; [|discriminate].
  destruct (N.leb_spec c MAX_CODEPOINT); [|discriminate].
  intros [= <-]. exists c, s. auto.
Qed.

Lemma simple_escape_valid e c : simple_escape e = Some c -> valid c.
Proof.
  unfold simple_escape, valid, MAX_CODEPOINT, BACKSLASH, SQ, DQ.
  repeat match goal with
  | |- context [if ?b then _ else _] => destruct b
  end; intros [= <-]; lia.
Qed.

Lemma octnum_valid ds :
  (List.length ds <= 3)%nat -> forallb is_octal ds = true -> valid (octnum ds).
Proof.
  unfold valid, MAX_CODEPOINT, octnum, is_octal.
  destruct ds as [|a [|b [|c [|]]]]; cbn [fold_left forallb List.length];
    intros H F; try lia;
    repeat match goal with
    | H : _ && _ = true |- _ => apply andb_true_iff in H; destruct H
    | H : (_ <=? _) = true |- _ => apply N.leb_le in H
    end; lia.
Qed.

Lemma named_valid n (IH : decodes_valid ucd n) :
  forall l3 acc v, (List.length l3 <= n)%nat ->
  (fix named (acc : str) (l' : str) : option str :=
     match l' with
     | [] => None
     | c' :: l'' =>
         if c' =? chr "}"
         then escaped (ucd_lookup ucd (rev acc)) (decode_escapes ucd l'')
         else named (c' :: acc) l''
     end) acc l3 = Some v ->
  Forall valid l3 -> Forall valid v.
Proof.
  induction l3 as [|c l3 IHl]; intros acc v Hlen Hd F; [discriminate|].
  cbn [List.length] in Hlen. inversion F as [|? ? Fc Fl]; subst.
  destruct (c =? chr "}").
  - apply escaped_valid in Hd. destruct Hd as (x & s & E & -> & Hx).
    constructor; [assumption|]. apply (IH l3 s); auto. lia.
  - apply (IHl (c :: acc) v); auto. lia.
Qed.

Lemma option_map_cons_valid (x : N) r v :
  option_map (cons x) r = Some v -> exists s, r = Some s /\ v = x :: s.
Proof. destruct r; [intros [= <-]; eauto | discriminate]. Qed.

Lemma decode_escapes_valid_n n : decodes_valid ucd n.
Proof.
  induction n as [|n IH]; intros l v Hlen F Hd.
  - destruct l; [|simpl in Hlen; lia]. injection Hd as <-. constructor.
  - destruct l as [|c l1]; [injection Hd as <-; constructor|].
    cbn [List.length] in Hlen.
    assert (IH' : forall l' v', (List.length l' <= n)%nat -> Forall valid l' ->
                   decode_escapes ucd l' = Some v' -> Forall valid v') by exact IH.
    inversion F as [|? ? Fc F1]; subst.
    cbn [decode_escapes] in Hd.
    destruct (negb (c =? BACKSLASH)).
    { apply option_map_cons_valid in Hd. destruct Hd as (s & E & ->).
      constructor; [assumption|]. apply (IH' l1 s); auto. lia. }
    destruct l1 as [|e l2]; [discriminate|].
    cbn [List.length] in Hlen. inversion F1 as [|? ? Fe F2]; subst.
    destruct (e =? NEWLINE).
    { apply (IH' l2 v); auto. lia. }
    destruct (simple_escape e) as [x|] eqn:Es.
    { apply option_map_cons_valid in Hd. destruct Hd as (s & E & ->).
      constructor; [eapply simple_escape_valid; eassumption|].
      apply (IH' l2 s); auto. lia. }
    destruct (is_octal e) eqn:Oe.
    { destruct l2 as [|d2 l3].
      { apply option_map_cons_valid in Hd. destruct Hd as (s & E & ->).
        constructor; [apply octnum_valid; simpl; [lia | rewrite Oe; reflexivity]|].
        apply (IH' [] s); auto. simpl; lia. }
      cbn [List.length] in Hlen. inversion F2 as [|? ? Fd2 F3]; subst.
      destruct (is_octal d2) eqn:O2.
      2:{ apply option_map_cons_valid in Hd. destruct Hd as (s & E & ->).
          constructor; [apply octnum_valid; simpl; [lia | rewrite Oe; reflexivity]|].
          apply (IH' (d2 :: l3) s); auto. simpl; lia. }
      destruct l3 as [|d3 l4].
      { apply option_map_cons_valid in Hd. destruct Hd as (s & E & ->).
        constructor; [apply octnum_valid; simpl; [lia | rewrite Oe, O2; reflexivity]|].
        apply (IH' [] s); auto. simpl; lia. }
      cbn [List.length] in Hlen. inversion F3 as [|? ? Fd3 F4]; subst.
      destruct (is_octal d3) eqn:O3.
      - apply option_map_cons_valid in Hd. destruct Hd as (s & E & ->).
        constructor; [apply octnum_valid; simpl; [lia | rewrite Oe, O2, O3; reflexivity]|].
        apply (IH' l4 s); auto. lia.
      - apply option_map_cons_valid in Hd. destruct Hd as (s & E & ->).
        constructor; [apply octnum_valid; simpl; [lia | rewrite Oe, O2; reflexivity]|].
        apply (IH' (d3 :: l4) s); auto. simpl; lia. }
    destruct (e =? chr "x").
    { destruct l2 as [|h1 [|h2 l4]]; try discriminate.
      apply escaped_valid in Hd. destruct Hd as (x & s & E & -> & Hx).
      constructor; [assumption|]. apply (IH' l4 s); auto.
      - simpl in Hlen. lia.
      - do 2 apply Forall_inv_tail in F2. assumption. }
    destruct (e =? chr "u").
    { destruct l2 as [|h1 [|h2 [|h3 [|h4 l6]]]]; try discriminate.
      apply escaped_valid in Hd. destruct Hd as (x & s & E & -> & Hx).
      constructor; [assumption|]. apply (IH' l6 s); auto.
      - simpl in Hlen. lia.
      - do 4 apply Forall_inv_tail in F2. assumption. }
    destruct (e =? chr "U").
    { destruct l2 as [|h1 [|h2 [|h3 [|h4 [|h5 [|h6 [|h7 [|h8 l10]]]]]]]];
        try discriminate.
      apply escaped_valid in Hd. destruct Hd as (x & s & E & -> & Hx).
      constructor; [assumption|]. apply (IH' l10 s); auto.
      - simpl in Hlen. lia.
      - do 8 apply Forall_inv_tail in F2. assumption. }
    destruct (e =? chr "N").
    { destruct l2 as [|b l3]; [discriminate|].
      destruct (b =? chr "{"); [|discriminate].
      cbn [List.length] in Hlen.
      apply (named_valid n IH l3 [] v); auto.
      - lia.
      - apply Forall_inv_tail in F2. assumption. }
    destruct (decode_escapes ucd l2) as [s|] eqn:E; [|discriminate].
    injection Hd as <-. constructor; [unfold valid, MAX_CODEPOINT, BACKSLASH; lia|].
    constructor; [assumption|]. apply (IH' l2 s); auto. lia.
Qed.

Lemma decode_escapes_valid l v :
  Forall valid l -> decode_escapes ucd l = Some v -> Forall valid v.
Proof. apply (decode_escapes_valid_n (List.length l)). lia. Qed.

End Valid.

Lemma source_char_valid c : source_char c = true -> valid c.
Proof.
  unfold source_char, valid. intros H.
  apply andb_true_iff in H. destruct H as [H _].
  apply andb_true_iff in H. destruct H as [_ H]. apply N.leb_le. assumption.
Qed.

Lemma universal_newlines_Forall (P : N -> Prop) s :
  P NEWLINE -> Forall P s -> Forall P (universal_newlines s).
Proof.
  intros HP. remember (List.length s) as n eqn:En.
  revert s En. induction n as [n IH] using lt_wf_ind. intros s En F.
  destruct s as [|c s']; [constructor|].
  inversion F as [|? ? Fc F']; subst. cbn [universal_newlines].
  destruct (c =? CR).
  - destruct s' as [|d s'']; [repeat constructor; assumption|].
    inversion F' as [|? ? Fd F'']; subst.
    destruct (d =? NEWLINE); constructor; auto.
    + apply (IH (List.length s'')); auto; simpl; lia.
    + apply (IH (List.length (d :: s''))); auto; simpl; lia.
  - constructor; auto. apply (IH (List.length s')); auto; simpl; lia.
Qed.

Lemma split_Forall (P : N -> Prop) s :
  Forall P s ->
  Forall P (fst (_split_prefix_and_quoting s)) /\
  Forall P (snd (_split_prefix_and_quoting s)).
Proof.
  induction 1 as [|c s Hc Hs IH]; cbn [_split_prefix_and_quoting].
  - split; constructor.
  - destruct (is_quote c).
    + split; constructor; assumption.
    + destruct (_split_prefix_and_quoting s) as [p r]. simpl in *.
      destruct IH. split; [constructor|]; assumption.
Qed.

Lemma scan_single_Forall (P : N -> Prop) q : forall n l body,
  (List.length l <= n)%nat ->
  scan_single q l = Some body -> Forall P l -> Forall P body.
Proof.
  induction n as [|n IH]; intros l body Hlen H F.
  - destruct l; [discriminate | simpl in Hlen; lia].
  - destruct l as [|c l']; [discriminate|]. cbn [scan_single] in H.
    cbn [List.length] in Hlen. inversion F as [|? ? Fc F']; subst.
    destruct (c =? q).
    { destruct l'; [injection H as <-; constructor | discriminate]. }
    destruct (c =? NEWLINE); [discriminate|].
    destruct (c =? BACKSLASH).
    + destruct l' as [|e l'']; [discriminate|].
      inversion F' as [|? ? Fe F'']; subst.
      destruct (scan_single q l'') as [b|] eqn:E; [|discriminate].
      injection H as <-. repeat constructor; auto.
      apply (IH l'' b); auto. simpl in Hlen. lia.
    + destruct (scan_single q l') as [b|] eqn:E; [|discriminate].
      injection H as <-. constructor; auto. apply (IH l' b); auto. lia.
Qed.

Lemma scan_triple_Forall (P : N -> Prop) q : forall n l body,
  (List.length l <= n)%nat ->
  scan_triple q l = Some body -> Forall P l -> Forall P body.
Proof.
  induction n as [|n IH]; intros l body Hlen H F.
  - destruct l; [discriminate | simpl in Hlen; lia].
  - destruct l as [|c l']; [discriminate|]. cbn [scan_triple] in H.
    cbn [List.length] in Hlen. inversion F as [|? ? Fc F']; subst.
    destruct (c =? BACKSLASH).
    + destruct l' as [|e l'']; [discriminate|].
      inversion F' as [|? ? Fe F'']; subst.
      destruct (scan_triple q l'') as [b|] eqn:E; [|discriminate].
      injection H as <-. repeat constructor; auto.
      apply (IH l'' b); auto. simpl in Hlen. lia.
    + destruct ((c =? q) && startswith [q; q] l').
      { destruct l' as [|? [|? [|]]]; try discriminate.
        injection H as <-. constructor. }
      destruct (scan_triple q l') as [b|] eqn:E; [|discriminate].
      injection H as <-. constructor; auto. apply (IH l' b); auto. lia.
Qed.

Lemma skipn_Forall {A} (P : A -> Prop) n l : Forall P l -> Forall P (skipn n l).
Proof.
  revert l. induction n; intros l F; [assumption|].
  destruct l; [constructor|]. inversion F; subst. simpl. auto.
Qed.

Lemma string_body_Forall (P : N -> Prop) rest body :
  string_body rest = Some body -> Forall P rest -> Forall P body.
Proof.
  unfold string_body. destruct rest as [|q rest1]; [discriminate|].
  intros H F. inversion F as [|? ? Fq F1]; subst.
  destruct (is_quote q); [|discriminate].
  destruct (startswith [q; q] rest1).
  - eapply scan_triple_Forall; [reflexivity | eassumption |].
    apply skipn_Forall. assumption.
  - eapply scan_single_Forall; [reflexivity | eassumption | assumption].
Qed.

Lemma literal_eval_valid ucd tok v :
  literal_eval ucd tok = Some (PyStr v) -> Forall valid v.
Proof.
  unfold literal_eval.
  destruct (forallb source_char tok) eqn:Hs; [|discriminate]. cbn [negb].
  assert (F : Forall valid tok).
  { apply Forall_forall. intros c Hc. apply source_char_valid.
    eapply forallb_forall in Hs; eassumption. }
  apply (universal_newlines_Forall valid) in F;
    [|unfold valid, NEWLINE, MAX_CODEPOINT; lia].
  apply split_Forall in F.
  destruct (_split_prefix_and_quoting (universal_newlines tok)) as [p rest].
  cbn [fst snd] in F. destruct F as [_ F].
  destruct (prefix_kind (lower p)) as [[kb kr]|]; [|discriminate].
  destruct (string_body rest) as [body|] eqn:Eb; [|discriminate].
  apply (string_body_Forall valid) in Eb; [|assumption].
  destruct kb.
  - destruct (forallb (fun c => c <? 128) body); [|discriminate].
    destruct kr; [discriminate|].
    destruct (decode_bytes_escapes body); discriminate.
  - destruct kr.
    + intros [= <-]. assumption.
    + destruct (decode_escapes ucd body) as [s|] eqn:Ed; [|discriminate].
      intros [= <-]. eapply decode_escapes_valid; eassumption.
Qed.

Lemma split_spec tok :
  tok = fst (_split_prefix_and_quoting tok) ++ snd (_split_prefix_and_quoting tok) /\
  forallb (fun x => negb (is_quote x)) (fst (_split_prefix_and_quoting tok)) = true /\
  match snd (_split_prefix_and_quoting tok) with
  | [] => True
  | c :: _ => is_quote c = true
  end.
Proof.
  induction tok as [|c s IH]; cbn [_split_prefix_and_quoting].
  - repeat split.
  - destruct (is_quote c) eqn:E.
    + cbn. rewrite E. repeat split.
    + destruct (_split_prefix_and_quoting s) as [p r]. cbn [fst snd] in *.
      destruct IH as (E1 & E2 & E3). repeat split.
      * cbn. f_equal. assumption.
      * cbn. rewrite E, E2. reflexivity.
      * assumption.
Qed.

Lemma universal_newlines_cons c s :
  c <> CR -> universal_newlines (c :: s) = c :: universal_newlines s.
Proof.
  intros H. cbn [universal_newlines]. apply N.eqb_neq in H. rewrite H. reflexivity.
Qed.

Lemma universal_newlines_CR s :
  exists r, universal_newlines (CR :: s) = NEWLINE :: r.
Proof.
  cbn [universal_newlines]. rewrite N.eqb_refl.
  destruct s as [|d s']; [eexists; reflexivity|].
  destruct (d =? NEWLINE); eexists; reflexivity.
Qed.

Lemma split_universal_newlines tok :
  ~ In NEWLINE (fst (_split_prefix_and_quoting (universal_newlines tok))) ->
  fst (_split_prefix_and_quoting (universal_newlines tok)) =
    fst (_split_prefix_and_quoting tok) /\
  snd (_split_prefix_and_quoting (universal_newlines tok)) =
    universal_newlines (snd (_split_prefix_and_quoting tok)).
Proof.
  induction tok as [|c s IH]; intros H; [split; reflexivity|].
  destruct (N.eq_dec c CR) as [->|Hc].
  - exfalso. apply H. destruct (universal_newlines_CR s) as [r ->].
    cbn [_split_prefix_and_quoting]. change (is_quote NEWLINE) with false.
    cbv iota. destruct (_split_prefix_and_quoting r). left. reflexivity.
  - rewrite universal_newlines_cons in * by assumption.
    cbn [_split_prefix_and_quoting] in *.
    destruct (is_quote c) eqn:Eq.
    + cbn [fst snd]. rewrite universal_newlines_cons by assumption.
      split; reflexivity.
    + destruct (_split_prefix_and_quoting (universal_newlines s)) as [p r].
      destruct (_split_prefix_and_quoting s) as [p0 r0].
      cbn [fst snd] in *.
      destruct IH as [E1 E2]; [intros Hin; apply H; right; assumption|].
      split; congruence.
Qed.

Lemma prefix_kind_cases l k :
  prefix_kind l = Some k ->
  (l = [] /\ k = (false, false)) \/ (l = py "u" /\ k = (false, false)) \/
  (l = py "r" /\ k = (false, true)) \/ (l = py "b" /\ k = (true, false)) \/
  (l = py "br" /\ k = (true, true)) \/ (l = py "rb" /\ k = (true, true)).
Proof.
  unfold prefix_kind. intros H.
  repeat match type of H with
  | (if str_eqb ?a ?b then _ else _) = _ =>
      let E := fresh "E" in
      destruct (str_eqb a b) eqn:E;
      [apply str_eqb_eq in E; injection H as <-; intuition congruence|]
  end. discriminate.
Qed.

Lemma lower_char_cases c x :
  lower_char c = x -> c = x \/ (c + 32 = x /\ 65 <= c <= 90).
Proof.
  unfold lower_char. destruct ((65 <=? c) && (c <=? 90)) eqn:E; [|auto].
  apply andb_true_iff in E. destruct E as [E1 E2].
  apply N.leb_le in E1, E2. intros <-. right. lia.
Qed.

(** What a successful evaluation says about the prefix and the quote. *)
Lemma literal_eval_prefix ucd tok val :
  literal_eval ucd tok = Some val ->
  exists k q tail,
    prefix_kind (lower (fst (_split_prefix_and_quoting tok))) = Some k /\
    snd (_split_prefix_and_quoting tok) = q :: tail /\ is_quote q = true /\
    (fst k = true <-> exists b, val = PyBytes b).
Proof.
  unfold literal_eval.
  destruct (forallb source_char tok); [|discriminate]. cbn [negb].
  pose proof (split_universal_newlines tok) as HA.
  pose proof (split_spec tok) as (_ & _ & Hq).
  destruct (_split_prefix_and_quoting (universal_newlines tok)) as [p rest].
  cbn [fst snd] in HA.
  destruct (prefix_kind (lower p)) as [[kb kr]|] eqn:Ek; [|discriminate].
  destruct HA as [E1 E2].
  { intros Hin.
    assert (In NEWLINE (lower p)).
    { unfold lower. apply in_map_iff. exists NEWLINE. split; [reflexivity|assumption]. }
    apply prefix_kind_cases in Ek.
    destruct Ek as [[E _]|[[E _]|[[E _]|[[E _]|[[E _]|[E _]]]]]];
      rewrite E in H; cbn in H; unfold NEWLINE in H;
      repeat (destruct H as [H|H]; [discriminate|]); contradiction. }
  destruct (string_body rest) as [body|] eqn:Eb; [|discriminate].
  intros Hv.
  destruct (snd (_split_prefix_and_quoting tok)) as [|q tail] eqn:Es.
  { cbn in E2. subst rest. discriminate. }
  exists (kb, kr), q, tail. rewrite <- E1. repeat split; auto.
  - cbn [fst]. intros ->.
    destruct (forallb (fun c => c <? 128) body); [|discriminate].
    destruct kr; [injection Hv as <-; eauto|].
    destruct (decode_bytes_escapes body); [injection Hv as <-; eauto | discriminate].
  - cbn [fst]. intros [b ->]. destruct kb; [reflexivity|].
    destruct kr; [discriminate|].
    destruct (decode_escapes ucd body); discriminate.
Qed.

(* ================================================================== *)
(** * Canonical tokens *)

Section Tokens.
Variable ucd : unicodedata.

(** The prefix flags of a token read off the kind of its prefix. *)
Lemma parse_prefix_kind tok kb kr :
  prefix_kind (lower (fst (_split_prefix_and_quoting tok))) = Some (kb, kr) ->
  has_raw (parse_prefix tok) = kr /\ has_bytes (parse_prefix tok) = kb.
Proof.
  intros H. unfold parse_prefix. cbn [has_raw has_bytes].
  apply prefix_kind_cases in H.
  destruct H as [[E K]|[[E K]|[[E K]|[[E K]|[[E K]|[E K]]]]]];
    rewrite E; injection K as -> ->; split; reflexivity.
Qed.

Lemma lower_nil p : lower p = [] -> p = [].
Proof. destruct p; [reflexivity | discriminate]. Qed.

Lemma lower_u p : lower p = py "u" -> p = py "u" \/ p = py "U".
Proof.
  destruct p as [|c [|]]; try discriminate. cbn. intros [= H].
  apply lower_char_cases in H. destruct H as [->|[H _]]; [left; reflexivity|].
  right. f_equal. lia.
Qed.

(** A token that evaluates to a str and is not raw: its prefix is empty
    or a u, and a quote follows. *)
Lemma ordinary_view tok v :
  literal_eval ucd tok = Some (PyStr v) ->
  has_raw (parse_prefix tok) = false ->
  exists p q tail,
    tok = p ++ q :: tail /\ str_prefix p /\ is_quote q = true /\
    _split_prefix_and_quoting tok = (p, q :: tail) /\
    has_bytes (parse_prefix tok) = false.
Proof.
  intros Hv Hr.
  destruct (literal_eval_prefix ucd tok _ Hv) as ([kb kr] & q & tail & Hk & Hs & Hq & Hb).
  destruct (parse_prefix_kind tok kb kr Hk) as [E1 E2].
  assert (Hkb : kb = false).
  { destruct kb; [|reflexivity]. cbn [fst] in Hb.
    destruct (proj1 Hb eq_refl) as [b Eb]. discriminate. }
  assert (Hkr : kr = false) by congruence.
  pose proof E2 as E2'. rewrite Hkb in E2'. clear E1 E2. subst kb kr.
  exists (fst (_split_prefix_and_quoting tok)), q, tail.
  pose proof (split_spec tok) as (Et & _ & _).
  rewrite Hs in Et. split; [assumption|].
  split; [|split; [assumption|split; [|assumption]]].
  - apply prefix_kind_cases in Hk.
    destruct Hk as [[E K]|[[E K]|[[E K]|[[E K]|[[E K]|[E K]]]]]];
      try discriminate.
    + left. apply lower_nil. assumption.
    + right. apply lower_u. assumption.
  - rewrite <- Hs. destruct (_split_prefix_and_quoting tok); reflexivity.
Qed.

Lemma bytes_view tok b :
  literal_eval ucd tok = Some (PyBytes b) ->
  has_bytes (parse_prefix tok) = true.
Proof.
  intros Hv.
  destruct (literal_eval_prefix ucd tok _ Hv) as ([kb kr] & q & tail & Hk & Hs & Hq & Hb).
  destruct (parse_prefix_kind tok kb kr Hk) as [E1 E2].
  rewrite E2. apply Hb. eauto.
Qed.

Lemma is_triple_quoted_split tok p rest :
  _split_prefix_and_quoting tok = (p, rest) ->
  is_triple_quoted tok = startswith [SQ; SQ; SQ] rest || startswith [DQ; DQ; DQ] rest.
Proof. intros H. unfold is_triple_quoted. rewrite H. reflexivity. Qed.

Lemma parse_prefix_str tok p rest :
  _split_prefix_and_quoting tok = (p, rest) -> str_prefix p ->
  parse_prefix tok =
  {| has_raw := false; has_bytes := false;
     has_unicode := negb (str_eqb p []); raw_prefix := p |}.
Proof.
  intros H Hp. unfold parse_prefix. rewrite H. cbn [fst].
  destruct Hp as [->|[->| ->]]; reflexivity.
Qed.

Lemma to_single_ordinary tok p q tail v :
  _split_prefix_and_quoting tok = (p, q :: tail) -> str_prefix p ->
  is_quote q = true -> is_triple_quoted tok = false ->
  literal_eval ucd tok = Some (PyStr v) ->
  to_single_quoted_string ucd tok =
  if q =? SQ then None
  else if str_eqb (single_form ucd p v) tok then None
  else Some (single_form ucd p v).
Proof.
  intros Hs Hp Hq Ht Hv. unfold to_single_quoted_string.
  unfold is_single_quoted. rewrite Ht, Hs. cbn [negb snd andb startswith].
  rewrite (N.eqb_sym SQ q). rewrite andb_true_r.
  destruct (q =? SQ); [reflexivity|].
  rewrite (parse_prefix_str tok p _ Hs Hp). cbn [has_raw has_bytes orb has_unicode raw_prefix].
  rewrite Hv. unfold single_form.
  destruct Hp as [->|[->| ->]]; cbn [str_eqb negb andb app]; try reflexivity.
Qed.

Lemma app_cons_neq (p : str) a b l1 l2 : a <> b -> p ++ a :: l1 <> p ++ b :: l2.
Proof.
  intros H E. apply app_inv_head in E. congruence.
Qed.

Lemma to_double_ordinary tok p q tail v :
  tok = p ++ q :: tail ->
  _split_prefix_and_quoting tok = (p, q :: tail) -> str_prefix p ->
  is_quote q = true -> is_triple_quoted tok = false ->
  literal_eval ucd tok = Some (PyStr v) ->
  to_double_quoted_string ucd tok =
  if q =? DQ then Ok None else Ok (Some (double_form p v)).
Proof.
  intros Et Hs Hp Hq Ht Hv. unfold to_double_quoted_string.
  rewrite Ht. rewrite (parse_prefix_str tok p _ Hs Hp).
  cbn [has_raw has_bytes orb has_unicode raw_prefix].
  rewrite Hs. cbn [snd].
  pose proof Ht as Ht'. rewrite (is_triple_quoted_split tok p _ Hs) in Ht'.
  apply orb_false_iff in Ht'. destruct Ht' as [_ Ht'].
  rewrite Ht'. cbn [negb startswith]. rewrite andb_true_r, andb_true_r.
  rewrite (N.eqb_sym DQ q).
  destruct (N.eqb_spec q DQ) as [->|Hne]; [reflexivity|].
  rewrite Hv. cbn [json_dumps bind].
  replace (if negb (str_eqb p []) && negb (negb (str_eqb p []))
           then chr "u" :: DQ :: flat_map json_char v ++ [DQ]
           else if negb (str_eqb p [])
                then p ++ DQ :: flat_map json_char v ++ [DQ]
                else DQ :: flat_map json_char v ++ [DQ])
    with (double_form p v)
    by (unfold double_form; destruct Hp as [->|[->| ->]]; reflexivity).
  destruct (str_eqb (double_form p v) tok) eqn:E'; [|reflexivity].
  apply str_eqb_eq in E'. exfalso. rewrite Et in E'. unfold double_form in E'.
  revert E'. apply app_cons_neq. congruence.
Qed.

Lemma repr_quote_is_quote v : is_quote (repr_quote v) = true.
Proof. unfold repr_quote. destruct (_ && _); reflexivity. Qed.

Lemma str_prefix_noquote p :
  str_prefix p -> forallb (fun x => negb (is_quote x)) p = true.
Proof. intros [->|[->| ->]]; reflexivity. Qed.

(** A token [p ++ q :: body ++ [q]] whose body is made of safe pieces. *)
Section Canonical.
Variables (p : str) (q : N) (f : N -> str) (v : str).

Hypothesis Hp : str_prefix p.
Hypothesis Hq : is_quote q = true.
Hypothesis Hf : forall c, In c v -> piece_ok ucd q (f c) c.

Let tok := p ++ q :: flat_map f v ++ [q].

Lemma canonical_split :
  _split_prefix_and_quoting tok = (p, q :: flat_map f v ++ [q]).
Proof.
  apply split_prefix_app; [apply str_prefix_noquote; assumption | assumption].
Qed.

Lemma canonical_not_triple : is_triple_quoted tok = false.
Proof.
  rewrite (is_triple_quoted_split tok _ _ canonical_split).
  pose proof (pieces_not_triple ucd q f v Hf) as H.
  assert (T : forall a, startswith [a; a; a] (q :: flat_map f v ++ [q]) = false).
  { intros a. change (startswith [a; a; a] (q :: flat_map f v ++ [q]))
      with ((a =? q) && startswith [a; a] (flat_map f v ++ [q])).
    destruct (N.eqb_spec a q) as [E|]; [|reflexivity].
    rewrite E, H. reflexivity. }
  rewrite !T. reflexivity.
Qed.

Lemma canonical_eval : literal_eval ucd tok = Some (PyStr v).
Proof. apply literal_eval_quoted; assumption. Qed.

Lemma canonical_to_double :
  to_double_quoted_string ucd tok =
  if q =? DQ then Ok None else Ok (Some (double_form p v)).
Proof.
  apply (to_double_ordinary tok p q (flat_map f v ++ [q]) v); auto.
  - apply canonical_split.
  - apply canonical_not_triple.
  - apply canonical_eval.
Qed.

Lemma canonical_to_single :
  to_single_quoted_string ucd tok =
  if q =? SQ then None
  else if str_eqb (single_form ucd p v) tok then None
  else Some (single_form ucd p v).
Proof.
  apply (to_single_ordinary tok p q (flat_map f v ++ [q]) v); auto.
  - apply canonical_split.
  - apply canonical_not_triple.
  - apply canonical_eval.
Qed.

End Canonical.

Lemma single_form_eq p v :
  single_form ucd p v =
  p ++ repr_quote v :: flat_map (repr_char ucd (repr_quote v)) v ++ [repr_quote v].
Proof. reflexivity. Qed.

Lemma repr_pieces v :
  Forall valid v ->
  forall c, In c v -> piece_ok ucd (repr_quote v) (repr_char ucd (repr_quote v) c) c.
Proof.
  intros F c Hc. apply repr_char_ok; [apply repr_quote_is_quote|].
  eapply Forall_forall in F; eassumption.
Qed.

Lemma json_pieces v :
  bmp v -> forall c, In c v -> piece_ok ucd DQ (json_char c) c.
Proof.
  intros F c Hc. apply json_char_ok.
  eapply Forall_forall in F; [eassumption | assumption].
Qed.

Lemma single_form_eval p v :
  str_prefix p -> Forall valid v ->
  literal_eval ucd (single_form ucd p v) = Some (PyStr v).
Proof.
  intros Hp F. rewrite single_form_eq.
  apply canonical_eval; auto using repr_quote_is_quote, repr_pieces.
Qed.

Lemma double_form_eval p v :
  str_prefix p -> bmp v -> literal_eval ucd (double_form p v) = Some (PyStr v).
Proof.
  intros Hp F. apply canonical_eval; [assumption | reflexivity | apply json_pieces; assumption].
Qed.

Lemma to_single_single_form p v :
  str_prefix p -> Forall valid v ->
  to_single_quoted_string ucd (single_form ucd p v) = None.
Proof.
  intros Hp F. rewrite single_form_eq.
  rewrite canonical_to_single; auto using repr_quote_is_quote, repr_pieces.
  rewrite <- single_form_eq, str_eqb_refl.
  destruct (_ =? _); reflexivity.
Qed.

Lemma to_double_double_form p v :
  str_prefix p -> bmp v ->
  to_double_quoted_string ucd (double_form p v) = Ok None.
Proof.
  intros Hp F. unfold double_form.
  rewrite canonical_to_double; [reflexivity | assumption | reflexivity | apply json_pieces; assumption].
Qed.

Lemma to_single_double_form p v :
  str_prefix p -> bmp v ->
  to_single_quoted_string ucd (double_form p v) =
  if str_eqb (single_form ucd p v) (double_form p v) then None
  else Some (single_form ucd p v).
Proof.
  intros Hp F. unfold double_form at 1.
  rewrite canonical_to_single; [reflexivity | assumption | reflexivity | apply json_pieces; assumption].
Qed.

Lemma to_double_single_form p v :
  str_prefix p -> Forall valid v ->
  to_double_quoted_string ucd (single_form ucd p v) =
  if repr_quote v =? DQ then Ok None else Ok (Some (double_form p v)).
Proof.
  intros Hp F. rewrite single_form_eq.
  rewrite canonical_to_double; auto using repr_quote_is_quote, repr_pieces.
Qed.

End Tokens.

(* ================================================================== *)
(** * The two passes on one token *)

Section TokenPasses.
Variable ucd : unicodedata.

Lemma to_single_undecodable tok :
  literal_eval ucd tok = None -> to_single_quoted_string ucd tok = None.
Proof.
  intros H. unfold to_single_quoted_string. rewrite H.
  repeat match goal with |- context [if ?b then _ else _] => destruct b end;
    reflexivity.
Qed.

Lemma to_double_undecodable tok :
  literal_eval ucd tok = None -> to_double_quoted_string ucd tok = Ok None.
Proof.
  intros H. unfold to_double_quoted_string. rewrite H.
  repeat match goal with |- context [if ?b then _ else _] => destruct b end;
    reflexivity.
Qed.

Lemma to_single_excluded tok :
  is_triple_quoted tok || has_raw (parse_prefix tok) || has_bytes (parse_prefix tok) = true ->
  to_single_quoted_string ucd tok = None.
Proof.
  intros H. unfold to_single_quoted_string.
  destruct (is_single_quoted tok); [reflexivity|].
  destruct (is_triple_quoted tok); [reflexivity|].
  cbn [orb] in H. rewrite H. reflexivity.
Qed.

Lemma to_double_excluded tok :
  is_triple_quoted tok || has_raw (parse_prefix tok) || has_bytes (parse_prefix tok) = true ->
  to_double_quoted_string ucd tok = Ok None.
Proof.
  intros H. unfold to_double_quoted_string.
  destruct (is_triple_quoted tok); [reflexivity|].
  cbn [orb] in H. rewrite H. reflexivity.
Qed.

Lemma token_cases tok : token_view ucd tok.
Proof.
  destruct (literal_eval ucd tok) as [[v|b]|] eqn:Hv.
  - destruct (has_raw (parse_prefix tok)) eqn:Hr.
    { apply (view_excluded ucd tok v); [assumption|]. rewrite Hr. apply orb_true_r. }
    destruct (is_triple_quoted tok) eqn:Ht.
    { apply (view_excluded ucd tok v); [assumption|]. rewrite Ht. reflexivity. }
    destruct (ordinary_view ucd tok v Hv Hr) as (p & q & tail & E & Hp & Hq & Hs & Hb).
    apply (view_ordinary ucd tok v p q tail); auto.
    eapply literal_eval_valid; eassumption.
  - apply (view_bytes ucd tok b); [assumption|]. eapply bytes_view; eassumption.
  - apply (view_undecodable ucd). assumption.
Qed.

Lemma is_quote_eqb q : is_quote q = true -> (q =? DQ) = negb (q =? SQ).
Proof. intros H. destruct (is_quote_cases q H); subst q; reflexivity. Qed.

Section Ordinary.
Variables (tok : str) (v p : str) (q : N) (tail : str).

Hypothesis Hv : literal_eval ucd tok = Some (PyStr v).
Hypothesis Et : tok = p ++ q :: tail.
Hypothesis Hs : _split_prefix_and_quoting tok = (p, q :: tail).
Hypothesis Hp : str_prefix p.
Hypothesis Hq : is_quote q = true.
Hypothesis Ht : is_triple_quoted tok = false.
Hypothesis Hvalid : Forall valid v.

Lemma requote_token_ordinary :
  requote_token ucd tok = if q =? SQ then tok else single_form ucd p v.
Proof.
  unfold requote_token.
  rewrite (to_single_ordinary ucd tok p q tail v) by assumption.
  destruct (q =? SQ); [reflexivity|].
  destruct (str_eqb (single_form ucd p v) tok) eqn:E; [|reflexivity].
  apply str_eqb_eq in E. congruence.
Qed.

Lemma default_token_ordinary :
  default_token ucd tok =
  if has_char DQ v && negb (has_char SQ v)
  then Ok (if q =? SQ then tok else single_form ucd p v)
  else Ok (if q =? DQ then tok else double_form p v).
Proof.
  unfold default_token. rewrite Hv, requote_token_ordinary.
  rewrite (to_double_ordinary ucd tok p q tail v) by assumption.
  destruct (has_char DQ v && negb (has_char SQ v)); [reflexivity|].
  destruct (q =? DQ); reflexivity.
Qed.

End Ordinary.

Lemma requote_token_single_form p v :
  str_prefix p -> Forall valid v ->
  requote_token ucd (single_form ucd p v) = single_form ucd p v.
Proof.
  intros Hp F. unfold requote_token. rewrite to_single_single_form by assumption.
  reflexivity.
Qed.

Lemma requote_token_double_form p v :
  str_prefix p -> bmp v ->
  requote_token ucd (double_form p v) = single_form ucd p v.
Proof.
  intros Hp F. unfold requote_token. rewrite to_single_double_form by assumption.
  destruct (str_eqb (single_form ucd p v) (double_form p v)) eqn:E; [|reflexivity].
  apply str_eqb_eq in E. congruence.
Qed.

Lemma repr_quote_key v :
  has_char DQ v && negb (has_char SQ v) = true -> repr_quote v = SQ.
Proof.
  intros H. apply andb_true_iff in H. destruct H as [H1 H2].
  apply negb_true_iff in H2. unfold repr_quote. rewrite H2. reflexivity.
Qed.

Lemma default_token_single_form p v :
  str_prefix p -> Forall valid v ->
  default_token ucd (single_form ucd p v) =
  if has_char DQ v && negb (has_char SQ v) then Ok (single_form ucd p v)
  else if repr_quote v =? DQ then Ok (single_form ucd p v)
  else Ok (double_form p v).
Proof.
  intros Hp F. unfold default_token.
  rewrite single_form_eval, requote_token_single_form by assumption.
  rewrite to_double_single_form by assumption.
  destruct (has_char DQ v && negb (has_char SQ v)); [reflexivity|].
  destruct (repr_quote v =? DQ); reflexivity.
Qed.

Lemma default_token_double_form p v :
  str_prefix p -> bmp v ->
  default_token ucd (double_form p v) =
  if has_char DQ v && negb (has_char SQ v) then Ok (single_form ucd p v)
  else Ok (double_form p v).
Proof.
  intros Hp F. unfold default_token.
  rewrite double_form_eval, requote_token_double_form by assumption.
  rewrite to_double_double_form by assumption. reflexivity.
Qed.

Lemma requote_token_idem tok :
  requote_token ucd (requote_token ucd tok) = requote_token ucd tok.
Proof.
  destruct (token_cases tok) as [Hv|b Hv Hb|v Hv He|v p q tail Hv Et Hs Hp Hq Ht F].
  - unfold requote_token at 2. rewrite to_single_undecodable by assumption.
    reflexivity.
  - unfold requote_token at 2.
    rewrite to_single_excluded by (rewrite Hb; apply orb_true_r). reflexivity.
  - unfold requote_token at 2.
    rewrite to_single_excluded by (rewrite He; reflexivity). reflexivity.
  - rewrite (requote_token_ordinary tok v p q tail) by assumption.
    destruct (q =? SQ) eqn:E.
    + rewrite (requote_token_ordinary tok v p q tail) by assumption.
      rewrite E. reflexivity.
    + apply requote_token_single_form; assumption.
Qed.

Lemma default_token_idem tok d :
  bmp_token ucd tok -> default_token ucd tok = Ok d -> default_token ucd d = Ok d.
Proof.
  intros Hb Hd.
  destruct (token_cases tok) as [Hv|b Hv Hbt|v Hv He|v p q tail Hv Et Hs Hp Hq Ht F].
  - pose proof Hd as Hd'. unfold default_token in Hd'. rewrite Hv in Hd'.
    congruence.
  - unfold default_token in Hd. rewrite Hv in Hd. discriminate.
  - assert (d = tok); [|congruence].
    unfold default_token, requote_token in Hd. rewrite Hv in Hd.
    rewrite to_single_excluded, to_double_excluded in Hd
      by (rewrite He; reflexivity).
    destruct (_ && _); congruence.
  - specialize (Hb v Hv).
    pose proof (default_token_ordinary tok v p q tail Hv Et Hs Hp Hq Ht) as Hd'.
    rewrite Hd in Hd'. rewrite (is_quote_eqb q Hq) in Hd'.
    destruct (has_char DQ v && negb (has_char SQ v)) eqn:A;
      destruct (q =? SQ); cbn [negb] in Hd'; injection Hd' as ->;
      try assumption.
    + rewrite default_token_single_form, A by assumption. reflexivity.
    + rewrite default_token_double_form, A by assumption. reflexivity.
Qed.

Lemma default_requote_default tok d :
  bmp_token ucd tok -> default_token ucd tok = Ok d ->
  exists d', default_token ucd (requote_token ucd d) = Ok d' /\
             requote_token ucd d' = requote_token ucd d.
Proof.
  intros Hb Hd.
  destruct (token_cases tok) as [Hv|b Hv Hbt|v Hv He|v p q tail Hv Et Hs Hp Hq Ht F].
  - pose proof Hd as Hd'. unfold default_token in Hd'. rewrite Hv in Hd'.
    injection Hd' as <-.
    assert (R : requote_token ucd tok = tok).
    { unfold requote_token. rewrite to_single_undecodable by assumption.
      reflexivity. }
    rewrite R. exists tok. split; assumption.
  - unfold default_token in Hd. rewrite Hv in Hd. discriminate.
  - assert (E : d = tok).
    { unfold default_token, requote_token in Hd. rewrite Hv in Hd.
      rewrite to_single_excluded, to_double_excluded in Hd
        by (rewrite He; reflexivity).
      destruct (_ && _); congruence. }
    subst d.
    assert (R : requote_token ucd tok = tok).
    { unfold requote_token. rewrite to_single_excluded by (rewrite He; reflexivity).
      reflexivity. }
    rewrite R. exists tok. split; assumption.
  - specialize (Hb v Hv).
    pose proof (default_token_ordinary tok v p q tail Hv Et Hs Hp Hq Ht) as Hd'.
    pose proof (requote_token_ordinary tok v p q tail Hv Hs Hp Hq Ht) as Hk.
    rewrite Hd in Hd'. rewrite (is_quote_eqb q Hq) in Hd'.
    assert (S : exists d', default_token ucd (single_form ucd p v) = Ok d' /\
                           requote_token ucd d' = single_form ucd p v).
    { rewrite default_token_single_form by assumption.
      destruct (has_char DQ v && negb (has_char SQ v)).
      - eexists; split; [reflexivity|]. apply requote_token_single_form; assumption.
      - destruct (repr_quote v =? DQ).
        + eexists; split; [reflexivity|]. apply requote_token_single_form; assumption.
        + eexists; split; [reflexivity|]. apply requote_token_double_form; assumption. }
    destruct (has_char DQ v && negb (has_char SQ v)) eqn:A;
      destruct (q =? SQ) eqn:Q; cbn [negb] in Hd'; injection Hd' as ->.
    + rewrite Hk. exists tok. split; assumption.
    + rewrite requote_token_single_form by assumption. exact S.
    + rewrite requote_token_double_form by assumption. exact S.
    + rewrite Hk. exact S.
Qed.

End TokenPasses.

(* ================================================================== *)
(** * [mapM]; copies of a tree *)

Lemma mapM_pure {A B} (g : A -> B) l : mapM (fun a => Ok (g a)) l = Ok (map g l).
Proof.
  induction l as [|a l IH]; [reflexivity|].
  cbn [mapM map]. cbn [mapM] in IH. cbn [bind]. rewrite IH. reflexivity.
Qed.

Lemma mapM_ext_Forall {A B} (P : A -> Prop) (f g : A -> result B) l :
  Forall P l -> (forall a, P a -> f a = g a) -> mapM f l = mapM g l.
Proof.
  intros F H. induction F as [|a l Ha Hl IH]; [reflexivity|].
  cbn [mapM]. cbn [mapM] in IH. rewrite (H a Ha), IH. reflexivity.
Qed.

Lemma mapM_map {A B C} (f : B -> result C) (g : A -> B) l :
  mapM f (map g l) = mapM (fun a => f (g a)) l.
Proof.
  induction l as [|a l IH]; [reflexivity|].
  cbn [mapM map]. cbn [mapM] in IH. rewrite IH. reflexivity.
Qed.

Lemma mapM_cons {A B} (f : A -> result B) a l :
  mapM f (a :: l) = (b <- f a ;; bs <- mapM f l ;; Ok (b :: bs)).
Proof. reflexivity. Qed.

Lemma mapM_Ok_Forall2 {A B} (f : A -> result B) l l' :
  mapM f l = Ok l' <-> Forall2 (fun a b => f a = Ok b) l l'.
Proof.
  revert l'. induction l as [|a l IH]; intros l'.
  - cbn. split.
    + intros [= <-]. constructor.
    + intros H. inversion H. reflexivity.
  - rewrite mapM_cons. split.
    + intros H. destruct (f a) as [b|] eqn:Ea; [|discriminate].
      cbn [bind] in H. destruct (mapM f l) as [bs|] eqn:El; [|discriminate].
      injection H as <-. constructor; [assumption|]. apply IH. reflexivity.
    + intros H. inversion H as [|? b ? bs Ha Hl]; subst.
      rewrite Ha. cbn [bind]. apply IH in Hl. rewrite Hl. reflexivity.
Qed.

(** * Trees without position entries *)

Lemma rebuilt_idem h : rebuilt (rebuilt h) = rebuilt h.
Proof. reflexivity. Qed.

Lemma map_fixed {A} (f : A -> A) l :
  map f l = l <-> Forall (fun a => f a = a) l.
Proof.
  induction l as [|a l IH]; cbn.
  - split; constructor.
  - split.
    + intros [= Ha Hl]. constructor; [assumption | apply IH; assumption].
    + intros H. inversion H; subst. f_equal; [assumption | apply IH; assumption].
Qed.

Lemma map_ext_Forall {A B} (f g : A -> B) l :
  Forall (fun a => f a = g a) l -> map f l = map g l.
Proof. induction 1; cbn; congruence. Qed.

Lemma clone_idem n : clone (clone n) = clone n.
Proof.
  induction n using node_induction; cbn [clone]; rewrite ?rebuilt_idem;
    try reflexivity.
  - rewrite IHn. reflexivity.
  - rewrite IHn. f_equal. rewrite map_map. apply map_ext_Forall.
    eapply Forall_impl; [|eassumption]. intros [pre v post] Hv. cbn in *.
    unfold P_arg in Hv. cbn in Hv. rewrite Hv. reflexivity.
  - f_equal. rewrite map_map. apply map_ext_Forall.
    eapply Forall_impl; [|eassumption]. intros [k c v post|pre v post] Hv; cbn in *.
    + destruct Hv as [-> ->]. reflexivity.
    + rewrite Hv. reflexivity.
  - f_equal. rewrite map_map. apply map_ext_Forall.
    eapply Forall_impl; [|eassumption].
    intros [v post|pre v post] Hv; unfold P_element in Hv; cbn in *;
      rewrite Hv; reflexivity.
  - rewrite IHn. f_equal. rewrite map_map. apply map_ext_Forall.
    eapply Forall_impl; [|eassumption].
    intros [[star v|ps] post] Hv; cbn in *.
    + rewrite Hv. reflexivity.
    + do 2 f_equal. rewrite map_map. apply map_ext_Forall.
      eapply Forall_impl; [|eassumption]. intros [t|c] Hc; cbn in *;
        [reflexivity | rewrite Hc; reflexivity].
  - f_equal. rewrite map_map. apply map_ext_Forall.
    eapply Forall_impl; [|eassumption]. intros [t|c] Hc; cbn in *;
      [reflexivity | rewrite Hc; reflexivity].
Qed.

Lemma nometa_clone n : nometa (clone n).
Proof. apply clone_idem. Qed.

Lemma nometa_header n : nometa n -> metadata (header_of n) = None.
Proof.
  unfold nometa. destruct n; cbn; intros [= H]; try (rewrite <- H; reflexivity);
    match goal with H : rebuilt ?h = ?h |- _ => rewrite <- H; reflexivity end.
Qed.

(* ================================================================== *)
(** * Nodes without a position entry *)

Lemma Forall_iff {A} (P Q : A -> Prop) l :
  (forall a, P a <-> Q a) -> Forall P l <-> Forall Q l.
Proof.
  intros H. split; intros F; eapply Forall_impl; try eassumption;
    intros a; apply H.
Qed.

Lemma nometa_parts ps :
  map (fun p : part => match p with
                       | Text t => Text t
                       | Child c => Child (clone c)
                       end) ps = ps <-> Forall nometa_part ps.
Proof.
  rewrite map_fixed. apply Forall_iff. intros [t|c]; cbn.
  - split; auto.
  - unfold nometa. split; [intros [= H]; assumption | intros ->; reflexivity].
Qed.

Lemma nometa_Name h v : nometa (Name h v) <-> rebuilt h = h.
Proof. unfold nometa. cbn. split; [intros [= H]; assumption | intros ->; reflexivity]. Qed.

Lemma nometa_SimpleString h tok : nometa (SimpleString h tok) <-> rebuilt h = h.
Proof. unfold nometa. cbn. split; [intros [= H]; assumption | intros ->; reflexivity]. Qed.

Lemma nometa_Attribute h v dot attr :
  nometa (Attribute h v dot attr) <-> rebuilt h = h /\ nometa v.
Proof.
  unfold nometa. cbn. split.
  - intros [= H1 H2]. auto.
  - intros [-> ->]. reflexivity.
Qed.

Lemma nometa_Call h f op args cl :
  nometa (Call h f op args cl) <->
  rebuilt h = h /\ nometa f /\ Forall nometa_arg args.
Proof.
  unfold nometa at 1. cbn [clone]. split.
  - intros [= H1 H2 H3]. repeat split; auto.
    apply map_fixed in H3. eapply Forall_impl; [|eassumption].
    intros [pre v post]; cbn. intros [= H]. assumption.
  - intros (-> & -> & F). f_equal. apply map_fixed.
    eapply Forall_impl; [|eassumption].
    intros [pre v post]; unfold nometa_arg; cbn. intros ->. reflexivity.
Qed.

Lemma nometa_Dict h op elts cl :
  nometa (Dict h op elts cl) <-> rebuilt h = h /\ Forall nometa_dict_element elts.
Proof.
  unfold nometa at 1. cbn [clone]. split.
  - intros [= H1 H3]. split; auto.
    apply map_fixed in H3. eapply Forall_impl; [|eassumption].
    intros [k c v post|pre v post]; cbn; intros E; injection E; intros;
      try split; assumption.
  - intros (-> & F). f_equal. apply map_fixed.
    eapply Forall_impl; [|eassumption].
    intros [k c v post|pre v post]; cbn; [intros [-> ->] | intros ->]; reflexivity.
Qed.

Lemma nometa_Collection h k op elts cl :
  nometa (Collection h k op elts cl) <-> rebuilt h = h /\ Forall nometa_element elts.
Proof.
  unfold nometa at 1. cbn [clone]. split.
  - intros [= H1 H3]. split; auto.
    apply map_fixed in H3. eapply Forall_impl; [|eassumption].
    intros [v post|pre v post]; cbn; intros [= ?]; auto.
  - intros (-> & F). f_equal. apply map_fixed.
    eapply Forall_impl; [|eassumption].
    intros [v post|pre v post]; unfold nometa_element; cbn; intros ->; reflexivity.
Qed.

Lemma nometa_Subscript h v op sl cl :
  nometa (Subscript h v op sl cl) <->
  rebuilt h = h /\ nometa v /\ Forall nometa_subscript_element sl.
Proof.
  unfold nometa at 1. cbn [clone]. split.
  - intros [= H1 H2 H3]. repeat split; auto.
    apply map_fixed in H3. eapply Forall_impl; [|eassumption].
    intros [[star i|ps] post]; cbn; intros [= H]; auto.
    apply nometa_parts. assumption.
  - intros (-> & -> & F). f_equal. apply map_fixed.
    eapply Forall_impl; [|eassumption].
    intros [[star i|ps] post]; cbn.
    + intros ->. reflexivity.
    + intros H. do 2 f_equal. apply nometa_parts. exact H.
Qed.

Lemma nometa_Other h ps :
  nometa (Other h ps) <-> rebuilt h = h /\ Forall nometa_part ps.
Proof.
  unfold nometa at 1. cbn [clone]. split.
  - intros [= H1 H3]. split; auto. apply nometa_parts. assumption.
  - intros (-> & F). f_equal. apply nometa_parts. assumption.
Qed.

Lemma nometa_new_SimpleString t : nometa (new_SimpleString t).
Proof. reflexivity. Qed.

Section Specs.
Variable ucd : unicodedata.
Variable self : QuoteKeysTransformer.
Let b := _source_has_noqa self.

Lemma has_noqa_comment_nometa n : nometa n -> _has_noqa_comment self n = Ok false.
Proof.
  intros H. unfold _has_noqa_comment. rewrite (nometa_header n H). reflexivity.
Qed.

Lemma maybe_requote_new_spec n s :
  nometa n -> nometa s ->
  _maybe_requote_new ucd self n s = Ok (requote_new_plain ucd b s).
Proof.
  intros Hn Hs. unfold _maybe_requote_new, requote_new_plain, b.
  destruct (_source_has_noqa self); [reflexivity|].
  rewrite !has_noqa_comment_nometa by assumption. cbn [bind].
  destruct s; reflexivity.
Qed.

Lemma maybe_requote_spec n s :
  nometa n -> nometa s ->
  _maybe_requote ucd self n s = Ok (requote_plain ucd b s).
Proof.
  intros Hn Hs. unfold _maybe_requote.
  rewrite maybe_requote_new_spec by assumption. reflexivity.
Qed.

Lemma requote_plain_nometa s : nometa s -> nometa (requote_plain ucd b s).
Proof.
  intros H. unfold requote_plain, requote_new_plain.
  destruct b; [assumption|].
  destruct s as [| | | | | |hs tok|]; try assumption.
  destruct (to_single_quoted_string ucd tok); [reflexivity | assumption].
Qed.

End Specs.

(* ================================================================== *)
(** * The methods on rebuilt nodes *)

Lemma contains_single c s : contains [c] s = has_char c s.
Proof.
  induction s as [|x s IH]; [reflexivity|].
  cbn [contains startswith has_char existsb].
  rewrite andb_true_r. f_equal. exact IH.
Qed.

Section Specs2.
Variable ucd : unicodedata.

Lemma to_single_changes tok t :
  to_single_quoted_string ucd tok = Some t -> str_eqb t tok = false.
Proof.
  unfold to_single_quoted_string.
  destruct (is_single_quoted tok); [discriminate|].
  destruct (is_triple_quoted tok); [discriminate|].
  destruct (has_raw (parse_prefix tok) || has_bytes (parse_prefix tok));
    [discriminate|].
  destruct (literal_eval ucd tok); [|discriminate].
  match goal with
  | |- (if str_eqb ?x tok then _ else _) = _ -> _ =>
      destruct (str_eqb x tok) eqn:E; [discriminate|]
  end.
  intros [= <-]. assumption.
Qed.

Lemma to_double_cases tok :
  to_double_quoted_string ucd tok = Ok None \/
  exists t, to_double_quoted_string ucd tok = Ok (Some t) /\ str_eqb t tok = false.
Proof.
  unfold to_double_quoted_string.
  destruct (is_triple_quoted tok); [left; reflexivity|].
  destruct (has_raw (parse_prefix tok) || has_bytes (parse_prefix tok)) eqn:Hrb;
    [left; reflexivity|].
  destruct (_ && _); [left; reflexivity|].
  destruct (literal_eval ucd tok) as [[v|bs]|] eqn:Hv; [| |left; reflexivity].
  - cbn [json_dumps bind].
    match goal with
    | |- context [if str_eqb ?x tok then _ else _] =>
        destruct (str_eqb x tok) eqn:E; [left; reflexivity|]
    end.
    right. eexists. split; [reflexivity | assumption].
  - apply bytes_view in Hv. apply orb_false_iff in Hrb. destruct Hrb. congruence.
Qed.

Lemma leave_SimpleString_spec h tok :
  leave_SimpleString ucd (SimpleString h tok) =
  string_plain ucd (SimpleString h tok).
Proof.
  unfold leave_SimpleString, string_plain, default_token.
  destruct (literal_eval ucd tok) as [[v|bs]|] eqn:Hv.
  - cbn [py_in bind]. rewrite !contains_single.
    destruct (has_char DQ v && negb (has_char SQ v)).
    + unfold requote_token.
      destruct (to_single_quoted_string ucd tok) as [t|] eqn:E; cbn [or_node bind].
      * rewrite (to_single_changes tok t E). reflexivity.
      * rewrite str_eqb_refl. reflexivity.
    + destruct (to_double_cases tok) as [E|(t & E & Ht)]; rewrite E;
        cbn [or_node bind].
      * rewrite str_eqb_refl. reflexivity.
      * rewrite Ht. reflexivity.
  - reflexivity.
  - rewrite to_double_undecodable by assumption. cbn [or_node bind].
    rewrite str_eqb_refl. reflexivity.
Qed.

Variable self : QuoteKeysTransformer.
Let b := _source_has_noqa self.

Lemma replace_update_nth {A} (f : A -> A) l i a :
  nth_error l i = Some a -> replace_nth i (f a) l = update_nth i f l.
Proof.
  revert i. induction l as [|x l IH]; intros [|i]; cbn; try discriminate.
  - intros [= ->]. reflexivity.
  - intros H. f_equal. apply IH. assumption.
Qed.

Lemma update_nth_ext {A} (f g : A -> A) l i :
  (forall a, nth_error l i = Some a -> f a = g a) ->
  update_nth i f l = update_nth i g l.
Proof.
  revert i. induction l as [|x l IH]; intros [|i] H; cbn; try reflexivity.
  - f_equal. apply H. reflexivity.
  - f_equal. apply IH. intros a Ha. apply H. assumption.
Qed.

Lemma update_nth_out {A} (f : A -> A) l i :
  nth_error l i = None -> update_nth i f l = l.
Proof.
  revert i. induction l as [|x l IH]; intros [|i]; cbn; try reflexivity;
    try discriminate.
  intros H. f_equal. apply IH. assumption.
Qed.

Lemma requote_arg_spec u i args :
  nometa u -> Forall nometa_arg args -> (i < List.length args)%nat ->
  requote_arg ucd self u i args =
  Ok (update_nth i (fun a => arg_with_value a (requote_plain ucd b (arg_value a))) args).
Proof.
  intros Hu F Hi. unfold requote_arg.
  destruct (nth_error args i) as [a|] eqn:E.
  2:{ apply nth_error_None in E. lia. }
  assert (Ha : nometa_arg a).
  { eapply Forall_forall in F; [eassumption|]. eapply nth_error_In; eassumption. }
  rewrite maybe_requote_spec by assumption. cbn [bind]. fold b.
  rewrite (replace_update_nth
             (fun a => arg_with_value a (requote_plain ucd b (arg_value a))) args i a E).
  reflexivity.
Qed.

Lemma requote_dict_key_spec first elt :
  nometa first -> nometa_dict_element elt ->
  requote_dict_key ucd self first elt = Ok (dict_key_plain ucd b elt).
Proof.
  intros Hf He. destruct elt as [k c v post|pre v post]; cbn in *; [|reflexivity].
  destruct He as [Hk Hv]. rewrite maybe_requote_spec by assumption. reflexivity.
Qed.

Lemma requote_element_spec target elt :
  nometa target -> nometa_element elt ->
  requote_element ucd self target elt = Ok (element_plain ucd b elt).
Proof.
  intros Ht He. destruct elt as [v post|pre v post]; cbn [requote_element element_plain].
  - rewrite maybe_requote_spec by assumption. reflexivity.
  - destruct (_source_has_noqa self); [reflexivity|].
    rewrite has_noqa_comment_nometa by assumption. reflexivity.
Qed.

Lemma requote_pair_spec elt :
  nometa_element elt ->
  requote_pair ucd self elt = Ok (pair_plain ucd b elt).
Proof.
  intros He. destruct elt as [v post|pre v post]; [|reflexivity].
  unfold nometa_element in He. cbn [element_value] in He.
  destruct v as [| | | |hv k opv elts clv| | |]; try reflexivity.
  destruct elts as [|pair0 pair_rest]; [reflexivity|].
  cbn [requote_pair pair_plain pair_value_plain].
  destruct (is_list_or_tuple k); [|reflexivity].
  pose proof He as He'. apply nometa_Collection in He'. destruct He' as [Hh F].
  inversion F as [|? ? F0 Fr]; subst.
  rewrite maybe_requote_spec by assumption. cbn [bind]. rewrite Hh. reflexivity.
Qed.

Lemma mapM_spec {A B} (P : A -> Prop) (f : A -> result B) (g : A -> B) l :
  Forall P l -> (forall a, P a -> f a = Ok (g a)) -> mapM f l = Ok (map g l).
Proof.
  intros F H. rewrite <- mapM_pure. eapply mapM_ext_Forall; eassumption.
Qed.

Lemma dict_key_unchanged e :
  dict_key_changed ucd self e = false -> dict_key_plain ucd b e = e.
Proof.
  destruct e as [k c v post|]; cbn; [|reflexivity]. fold b.
  unfold requote_plain. destruct (requote_new_plain ucd b k); [discriminate|reflexivity].
Qed.

Lemma requote_key_changed_spec u e :
  nometa u -> nometa_dict_element e ->
  requote_key_changed ucd self u e =
  Ok (dict_key_plain ucd b e, dict_key_changed ucd self e).
Proof.
  intros Hu He. destruct e as [k c v post|pre v post]; cbn in *; [|reflexivity].
  destruct He as [Hk Hv]. rewrite maybe_requote_new_spec by assumption.
  cbn [bind]. fold b. unfold requote_plain.
  destruct (requote_new_plain ucd b k); reflexivity.
Qed.

Lemma existsb_snd_false {A} (g : A -> A) (c : A -> bool) l :
  (forall a, c a = false -> g a = a) ->
  existsb snd (map (fun a => (g a, c a)) l) = false -> map g l = l.
Proof.
  intros H. induction l as [|a l IH]; cbn; [reflexivity|].
  intros E. apply orb_false_iff in E. destruct E as [E1 E2].
  f_equal; auto.
Qed.

Lemma leave_Dict_spec u :
  nometa u -> leave_Dict ucd self u = Ok (dict_plain ucd b u).
Proof.
  intros Hu. destruct u as [| | |h op elts cl| | | |]; try reflexivity.
  pose proof Hu as Hu'. apply nometa_Dict in Hu'. destruct Hu' as [Hh F].
  cbn [leave_Dict dict_plain].
  rewrite (mapM_spec nometa_dict_element _
             (fun e => (dict_key_plain ucd b e, dict_key_changed ucd self e)) elts F)
    by (intros; apply requote_key_changed_spec; assumption).
  cbn [bind].
  destruct (existsb snd _) eqn:E.
  - rewrite map_map. cbn [fst]. rewrite Hh. reflexivity.
  - apply existsb_snd_false in E; [|apply dict_key_unchanged].
    rewrite E. reflexivity.
Qed.

Lemma index_unchanged s : index_changed ucd self s = false -> index_plain ucd b s = s.
Proof.
  destruct s as [[star t|ps] post]; cbn; [|reflexivity]. fold b.
  destruct (requote_new_plain ucd b t); [discriminate|reflexivity].
Qed.

Lemma requote_index_changed_spec u s :
  nometa u -> nometa_subscript_element s ->
  requote_index_changed ucd self u s = Ok (index_plain ucd b s, index_changed ucd self s).
Proof.
  intros Hu Hs. destruct s as [[star t|ps] post]; cbn in *; [|reflexivity].
  rewrite maybe_requote_new_spec by assumption. cbn [bind]. fold b.
  destruct (requote_new_plain ucd b t); reflexivity.
Qed.

Lemma leave_Subscript_spec u :
  nometa u -> leave_Subscript ucd self u = Ok (subscript_plain ucd b u).
Proof.
  intros Hu. destruct u as [| | | | |h v op sl cl| |]; try reflexivity.
  pose proof Hu as Hu'. apply nometa_Subscript in Hu'. destruct Hu' as (Hh & Hv & F).
  cbn [leave_Subscript subscript_plain].
  rewrite (mapM_spec nometa_subscript_element _
             (fun s => (index_plain ucd b s, index_changed ucd self s)) sl F)
    by (intros; apply requote_index_changed_spec; assumption).
  cbn [bind].
  destruct (existsb snd _) eqn:E.
  - rewrite map_map. cbn [fst]. rewrite Hh. reflexivity.
  - apply existsb_snd_false in E; [|apply index_unchanged].
    rewrite E. reflexivity.
Qed.

End Specs2.

(* ================================================================== *)
(** * leave_Call on rebuilt nodes *)

Section CallSpec.
Variable ucd : unicodedata.
Variable self : QuoteKeysTransformer.
Let b := _source_has_noqa self.

Lemma nonempty_length {A} (l : list A) : nonempty l = true -> (0 < List.length l)%nat.
Proof. destruct l; [discriminate | cbn; lia]. Qed.

Lemma first_string_index_lt args idx :
  first_string_index args = Some idx -> (idx < List.length args)%nat.
Proof.
  unfold first_string_index. destruct args as [|a0 rest]; [discriminate|].
  destruct (is_SimpleString (arg_value a0)); [intros [= <-]; cbn; lia|].
  destruct rest as [|a1 rest']; [discriminate|].
  destruct (is_SimpleString (arg_value a1)); [intros [= <-]; cbn; lia | discriminate].
Qed.

Lemma key_rule_spec h func op args cl i :
  nometa (Call h func op args cl) -> (i < List.length args)%nat ->
  (new_args <- requote_arg ucd self (Call h func op args cl) i args ;;
   Ok (Call (rebuilt h) func op new_args cl)) =
  Ok (apply_rule ucd b (Some (i, CKey)) (Call h func op args cl)).
Proof.
  intros Hu Hi. pose proof Hu as Hu'. apply nometa_Call in Hu'.
  destruct Hu' as (Hh & Hf & F).
  rewrite requote_arg_spec by assumption. cbn [bind apply_rule]. rewrite Hh.
  reflexivity.
Qed.

Lemma leave_Call_dunder_spec h func op args cl :
  nometa (Call h func op args cl) ->
  leave_Call_dunder ucd self (Call h func op args cl) =
  Ok (apply_rule ucd b (rule_dunder func args) (Call h func op args cl)).
Proof.
  intros Hu. unfold leave_Call_dunder, rule_dunder.
  destruct (method_name func) as [dunder|]; [|reflexivity].
  destruct (mem dunder DUUNDER_KEY && nonempty args) eqn:E1.
  { apply key_rule_spec; [assumption|].
    apply andb_true_iff in E1. apply nonempty_length, E1. }
  destruct (mem dunder DUUNDER_ATTR && nonempty args) eqn:E2; [|reflexivity].
  destruct (first_string_index args) as [idx|] eqn:E3; [|reflexivity].
  apply key_rule_spec; [assumption|]. eapply first_string_index_lt; eassumption.
Qed.

Lemma clone_args_nometa args : Forall nometa_arg args -> map clone_arg args = args.
Proof.
  intros F. apply map_fixed. eapply Forall_impl; [|eassumption].
  intros [pre v post]; unfold nometa_arg; cbn. intros ->. reflexivity.
Qed.

Lemma leave_Call_fromkeys_spec h func op args cl :
  nometa (Call h func op args cl) ->
  leave_Call_fromkeys ucd self (Call h func op args cl) =
  Ok (apply_rule ucd b (rule_fromkeys func args) (Call h func op args cl)).
Proof.
  intros Hu. unfold rule_fromkeys.
  assert (D : leave_Call_dunder ucd self (Call h func op args cl) =
              Ok (apply_rule ucd b (rule_dunder func args) (Call h func op args cl)))
    by (apply leave_Call_dunder_spec; assumption).
  destruct args as [|[pre target post] rest].
  { cbn [collection_first first_kind]. rewrite andb_false_r. exact D. }
  destruct target as [| | | |ht k opt elts clt| | |];
    try (cbn [collection_first first_kind kind_of arg_value];
         rewrite andb_false_r; exact D).
  cbn [collection_first first_kind kind_of arg_value]. rewrite andb_true_r.
  cbn [leave_Call_fromkeys].
  destruct (method_in func FROM_KEYS); [|exact D].
  pose proof Hu as Hu'. apply nometa_Call in Hu'. destruct Hu' as (Hh & Hf & F).
  inversion F as [|? ? Ft Fr]; subst. unfold nometa_arg in Ft. cbn in Ft.
  pose proof Ft as Ft'. apply nometa_Collection in Ft'. destruct Ft' as [Hht Fe].
  rewrite (mapM_spec nometa_element _ (element_plain ucd b) elts Fe)
    by (intros; apply requote_element_spec; assumption).
  cbn [bind apply_rule update_nth arg_with_value arg_value apply_ctx].
  rewrite Hh, Hht. reflexivity.
Qed.

Lemma leave_Call_constructor_spec h func op args cl :
  nometa (Call h func op args cl) ->
  leave_Call_constructor ucd self (Call h func op args cl) =
  Ok (apply_rule ucd b (rule_constructor func args) (Call h func op args cl)).
Proof.
  intros Hu. unfold rule_constructor.
  assert (D : leave_Call_fromkeys ucd self (Call h func op args cl) =
              Ok (apply_rule ucd b (rule_fromkeys func args) (Call h func op args cl)))
    by (apply leave_Call_fromkeys_spec; assumption).
  destruct args as [|[pre first post] rest].
  { cbn [ctor_first first_kind]. rewrite andb_false_r. exact D. }
  cbn [leave_Call_constructor].
  destruct (last_segment_in (func_name_of func) [py "dict"; py "OrderedDict"]);
    [|exact D].
  cbn [andb].
  pose proof Hu as Hu'. apply nometa_Call in Hu'. destruct Hu' as (Hh & Hf & F).
  inversion F as [|? ? Ft Fr]; subst. unfold nometa_arg in Ft. cbn in Ft.
  destruct first as [| | |hd opd elts cld|hc k opc elts clc| | |];
    try exact D; cbn [ctor_first first_kind kind_of arg_value].
  - pose proof Ft as Ft'. apply nometa_Dict in Ft'. destruct Ft' as [Hhd Fe].
    rewrite (mapM_spec nometa_dict_element _ (dict_key_plain ucd b) elts Fe)
      by (intros; apply requote_dict_key_spec; assumption).
    cbn [bind apply_rule update_nth arg_with_value arg_value apply_ctx].
    rewrite Hh, Hhd, Hf, (clone_args_nometa rest Fr). reflexivity.
  - destruct (is_list_or_tuple k) eqn:Ek; [|exact D].
    pose proof Ft as Ft'. apply nometa_Collection in Ft'. destruct Ft' as [Hhc Fe].
    rewrite (mapM_spec nometa_element _ (pair_plain ucd b) elts Fe)
      by (intros; apply requote_pair_spec; assumption).
    cbn [bind apply_rule update_nth arg_with_value arg_value apply_ctx].
    rewrite Ek, Hh, Hhc, Hf, (clone_args_nometa rest Fr). reflexivity.
Qed.

Lemma leave_Call_spec u :
  nometa u -> leave_Call ucd self u = Ok (call_plain ucd b u).
Proof.
  intros Hu. destruct u as [| |h func op args cl| | | | |]; try reflexivity.
  cbn [leave_Call call_plain]. unfold call_rule.
  destruct (last_segment_in (func_name_of func) ATTR_FUNCS &&
            (2 <=? List.length args)%nat) eqn:E1.
  { apply key_rule_spec; [assumption|].
    apply andb_true_iff in E1. destruct E1 as [_ E1].
    apply Nat.leb_le in E1. lia. }
  destruct (method_in func MAPPING_FIRST_KEY_METHODS && nonempty args) eqn:E2.
  { apply key_rule_spec; [assumption|].
    apply andb_true_iff in E2. apply nonempty_length, E2. }
  destruct (last_segment_in (func_name_of func) OPERATOR_GETTERS && nonempty args) eqn:E3.
  { apply key_rule_spec; [assumption|].
    apply andb_true_iff in E3. apply nonempty_length, E3. }
  apply leave_Call_constructor_spec. assumption.
Qed.

End CallSpec.

(* ================================================================== *)
(** * The traversal returns rebuilt nodes *)

Ltac ok_inj E :=
  match type of E with
  | Ok ?a = Ok ?x =>
      let H := fresh in assert (H : a = x) by congruence; clear E; subst x
  end.

Section VisitNometa.
Variable ucd : unicodedata.
Variable self : QuoteKeysTransformer.
Let b := _source_has_noqa self.

Lemma visit_Call h f op args cl :
  visit ucd self (Call h f op args cl) =
  (f' <- visit ucd self f ;;
   args' <- mapM (visit_arg ucd self) args ;;
   leave_Call ucd self (Call (rebuilt h) f' op args' cl)).
Proof. reflexivity. Qed.

Lemma visit_Dict h op elts cl :
  visit ucd self (Dict h op elts cl) =
  (elts' <- mapM (visit_dict_element ucd self) elts ;;
   leave_Dict ucd self (Dict (rebuilt h) op elts' cl)).
Proof. reflexivity. Qed.

Lemma visit_Collection h k op elts cl :
  visit ucd self (Collection h k op elts cl) =
  (elts' <- mapM (visit_element ucd self) elts ;;
   Ok (Collection (rebuilt h) k op elts' cl)).
Proof. reflexivity. Qed.

Lemma visit_Subscript h v op sl cl :
  visit ucd self (Subscript h v op sl cl) =
  (v' <- visit ucd self v ;;
   sl' <- mapM (visit_subscript_element ucd self) sl ;;
   leave_Subscript ucd self (Subscript (rebuilt h) v' op sl' cl)).
Proof. reflexivity. Qed.

Lemma visit_Other h ps :
  visit ucd self (Other h ps) =
  (ps' <- mapM (visit_part ucd self) ps ;; Ok (Other (rebuilt h) ps')).
Proof. reflexivity. Qed.

Lemma visit_Attribute h v dot attr :
  visit ucd self (Attribute h v dot attr) =
  (v' <- visit ucd self v ;; Ok (Attribute (rebuilt h) v' dot attr)).
Proof. reflexivity. Qed.

Lemma bind_Ok {A B} (r : result A) (k : A -> result B) y :
  bind r k = Ok y -> exists x, r = Ok x /\ k x = Ok y.
Proof. destruct r; [eauto | discriminate]. Qed.

Lemma mapM_visited {A} (f : A -> result A) (PA QA : A -> Prop) l l' :
  Forall PA l -> (forall a a', PA a -> f a = Ok a' -> QA a') ->
  mapM f l = Ok l' -> Forall QA l'.
Proof.
  intros F H E. apply mapM_Ok_Forall2 in E.
  induction E as [|a a' l l' Ea El IH]; [constructor|].
  inversion F; subst. constructor; eauto.
Qed.

Lemma visit_arg_nometa a a' :
  P_arg (visited ucd self nometa) a -> visit_arg ucd self a = Ok a' -> nometa_arg a'.
Proof.
  destruct a as [pre v post]. unfold P_arg. cbn. intros H E.
  apply bind_Ok in E. destruct E as (v' & Ev & [= <-]). apply H. assumption.
Qed.

Lemma visit_part_nometa p p' :
  P_part (visited ucd self nometa) p -> visit_part ucd self p = Ok p' -> nometa_part p'.
Proof.
  destruct p as [t|c]; cbn; intros H E.
  - injection E as <-. exact I.
  - apply bind_Ok in E. destruct E as (c' & Ec & [= <-]). apply H. assumption.
Qed.

Lemma visit_dict_element_nometa e e' :
  P_dict_element (visited ucd self nometa) e -> visit_dict_element ucd self e = Ok e' ->
  nometa_dict_element e'.
Proof.
  destruct e as [k c v post|pre v post]; cbn; intros H E.
  - apply bind_Ok in E. destruct E as (k' & Ek & E).
    apply bind_Ok in E. destruct E as (v' & Ev & [= <-]).
    destruct H as [Hk Hv]. split; [apply Hk | apply Hv]; assumption.
  - apply bind_Ok in E. destruct E as (v' & Ev & [= <-]). apply H. assumption.
Qed.

Lemma visit_element_nometa e e' :
  P_element (visited ucd self nometa) e ->
  visit_element ucd self e = Ok e' -> nometa_element e'.
Proof.
  destruct e as [v post|pre v post]; unfold P_element; cbn; intros H E;
    apply bind_Ok in E; destruct E as (v' & Ev & [= <-]); apply H; assumption.
Qed.

Lemma visit_subscript_element_nometa s s' :
  P_subscript_element (visited ucd self nometa) s ->
  visit_subscript_element ucd self s = Ok s' ->
  nometa_subscript_element s'.
Proof.
  destruct s as [[star i|ps] post]; cbn; intros H E.
  - apply bind_Ok in E. destruct E as (i' & Ei & [= <-]). apply H. assumption.
  - apply bind_Ok in E. destruct E as (ps' & Eps & [= <-]). cbn.
    eapply mapM_visited; [exact H | | exact Eps].
    intros; eapply visit_part_nometa; eassumption.
Qed.

Lemma update_nth_Forall {A} (P : A -> Prop) (f : A -> A) i l :
  Forall P l -> (forall a, P a -> P (f a)) -> Forall P (update_nth i f l).
Proof.
  intros F H. revert i. induction F as [|a l Ha Hl IH]; intros [|i]; cbn;
    constructor; auto.
Qed.

Lemma element_plain_nometa e : nometa_element e -> nometa_element (element_plain ucd b e).
Proof.
  destruct e as [v post|pre v post]; unfold nometa_element; cbn; auto.
  apply requote_plain_nometa.
Qed.

Lemma dict_key_plain_nometa e :
  nometa_dict_element e -> nometa_dict_element (dict_key_plain ucd b e).
Proof.
  destruct e as [k c v post|pre v post]; cbn; auto.
  intros [Hk Hv]. split; [apply requote_plain_nometa|]; assumption.
Qed.

Lemma pair_value_plain_nometa x : nometa x -> nometa (pair_value_plain ucd b x).
Proof.
  intros H. destruct x as [| | | |h k op elts cl| | |]; try exact H.
  destruct elts as [|e0 rest]; [exact H|]. cbn.
  destruct (is_list_or_tuple k); [|exact H].
  apply nometa_Collection in H. destruct H as [Hh F].
  apply nometa_Collection. split; [assumption|].
  inversion F; subst. constructor; [|assumption].
  destruct e0; unfold nometa_element in *; cbn in *; apply requote_plain_nometa;
    assumption.
Qed.

Lemma pair_plain_nometa e : nometa_element e -> nometa_element (pair_plain ucd b e).
Proof.
  destruct e as [v post|pre v post]; unfold nometa_element; cbn; auto.
  apply pair_value_plain_nometa.
Qed.

Lemma apply_ctx_nometa c x : nometa x -> nometa (apply_ctx ucd b c x).
Proof.
  intros H. destruct c; cbn [apply_ctx].
  - exact H.
  - apply requote_plain_nometa. exact H.
  - destruct x as [| | |h op elts cl|h k op elts cl| | |]; try exact H.
    + apply nometa_Dict in H. destruct H as [Hh F]. apply nometa_Dict.
      split; [assumption|]. apply Forall_map.
      eapply Forall_impl; [|eassumption]. apply dict_key_plain_nometa.
    + destruct (is_list_or_tuple k); [|exact H].
      apply nometa_Collection in H. destruct H as [Hh F]. apply nometa_Collection.
      split; [assumption|]. apply Forall_map.
      eapply Forall_impl; [|eassumption]. apply pair_plain_nometa.
  - destruct x as [| | | |h k op elts cl| | |]; try exact H.
    apply nometa_Collection in H. destruct H as [Hh F]. apply nometa_Collection.
    split; [assumption|]. apply Forall_map.
    eapply Forall_impl; [|eassumption]. apply element_plain_nometa.
  - apply pair_value_plain_nometa. exact H.
Qed.

Lemma apply_rule_nometa r u : nometa u -> nometa (apply_rule ucd b r u).
Proof.
  intros H. destruct u as [| |h func op args cl| | | | |]; try exact H.
  destruct r as [[i c]|]; [|exact H]. cbn [apply_rule].
  apply nometa_Call in H. destruct H as (Hh & Hf & F). apply nometa_Call.
  repeat split; try assumption.
  apply update_nth_Forall; [assumption|].
  intros [pre v post]; unfold nometa_arg; cbn. apply apply_ctx_nometa.
Qed.

Lemma call_plain_nometa u : nometa u -> nometa (call_plain ucd b u).
Proof.
  intros H. destruct u; try exact H. apply apply_rule_nometa. exact H.
Qed.

Lemma dict_plain_nometa u : nometa u -> nometa (dict_plain ucd b u).
Proof.
  intros H. destruct u as [| | |h op elts cl| | | |]; try exact H.
  apply nometa_Dict in H. destruct H as [Hh F]. apply nometa_Dict.
  split; [assumption|]. apply Forall_map.
  eapply Forall_impl; [|eassumption]. apply dict_key_plain_nometa.
Qed.

Lemma index_plain_nometa s :
  nometa_subscript_element s -> nometa_subscript_element (index_plain ucd b s).
Proof.
  destruct s as [[star t|ps] post]; cbn; auto.
  intros H. pose proof (requote_plain_nometa ucd self t H) as H'.
  fold b in H'. unfold requote_plain in H'.
  destruct (requote_new_plain ucd b t); cbn; assumption.
Qed.

Lemma subscript_plain_nometa u : nometa u -> nometa (subscript_plain ucd b u).
Proof.
  intros H. destruct u as [| | | | |h v op sl cl| |]; try exact H.
  apply nometa_Subscript in H. destruct H as (Hh & Hv & F). apply nometa_Subscript.
  repeat split; try assumption. apply Forall_map.
  eapply Forall_impl; [|eassumption]. apply index_plain_nometa.
Qed.

Lemma string_plain_nometa u x :
  nometa u -> string_plain ucd u = Ok x -> nometa x.
Proof.
  intros H. destruct u as [| | | | | |h tok|]; try (intros [= <-]; exact H).
  cbn [string_plain]. intros E. apply bind_Ok in E. destruct E as (d & Ed & [= <-]).
  destruct (str_eqb d tok); [exact H | reflexivity].
Qed.

Lemma visit_nometa n : visited ucd self nometa n.
Proof.
  induction n using node_induction; intros x E.
  - injection E as <-. reflexivity.
  - rewrite visit_Attribute in E. apply bind_Ok in E.
    destruct E as (v' & Ev & [= <-]). apply nometa_Attribute.
    split; [reflexivity | apply IHn; assumption].
  - rewrite visit_Call in E. apply bind_Ok in E. destruct E as (f' & Ef & E).
    apply bind_Ok in E. destruct E as (args' & Ea & E).
    assert (Hu : nometa (Call (rebuilt h) f' op args' cl)).
    { apply nometa_Call. repeat split; [apply IHn; assumption|].
      eapply mapM_visited; [eassumption| |exact Ea]. apply visit_arg_nometa. }
    rewrite leave_Call_spec in E by assumption. ok_inj E.
    apply call_plain_nometa. assumption.
  - rewrite visit_Dict in E. apply bind_Ok in E. destruct E as (elts' & Ee & E).
    assert (Hu : nometa (Dict (rebuilt h) op elts' cl)).
    { apply nometa_Dict. split; [reflexivity|].
      eapply mapM_visited; [eassumption| |exact Ee]. apply visit_dict_element_nometa. }
    rewrite leave_Dict_spec in E by assumption. ok_inj E.
    apply dict_plain_nometa. assumption.
  - rewrite visit_Collection in E. apply bind_Ok in E.
    destruct E as (elts' & Ee & [= <-]).
    apply nometa_Collection. split; [reflexivity|].
    eapply mapM_visited; [eassumption| |exact Ee]. apply visit_element_nometa.
  - rewrite visit_Subscript in E. apply bind_Ok in E. destruct E as (v' & Ev & E).
    apply bind_Ok in E. destruct E as (sl' & Es & E).
    assert (Hu : nometa (Subscript (rebuilt h) v' op sl' cl)).
    { apply nometa_Subscript. repeat split; [apply IHn; assumption|].
      eapply mapM_visited; [eassumption| |exact Es].
      apply visit_subscript_element_nometa. }
    rewrite leave_Subscript_spec in E by assumption. ok_inj E.
    apply subscript_plain_nometa. assumption.
  - cbn [visit] in E. rewrite leave_SimpleString_spec in E.
    eapply string_plain_nometa; [|exact E]. reflexivity.
  - rewrite visit_Other in E. apply bind_Ok in E.
    destruct E as (ps' & Ep & [= <-]).
    apply nometa_Other. split; [reflexivity|].
    eapply mapM_visited; [eassumption| |exact Ep]. apply visit_part_nometa.
Qed.

End VisitNometa.

(* ================================================================== *)
(** * Equations of the traversal *)

Section VisitEquations.
Variable ucd : unicodedata.
Variable self : QuoteKeysTransformer.
Let b := _source_has_noqa self.
Let V := visit ucd self.

Lemma mapM_nometa_args args args' :
  mapM (visit_arg ucd self) args = Ok args' -> Forall nometa_arg args'.
Proof.
  intros E. eapply (mapM_visited _ (fun _ => True)); [| |exact E].
  - apply Forall_forall. auto.
  - intros a a' _. apply visit_arg_nometa. destruct a; unfold P_arg; cbn.
    apply visit_nometa.
Qed.

Lemma visit_part_nometa' p p' : visit_part ucd self p = Ok p' -> nometa_part p'.
Proof.
  apply visit_part_nometa. destruct p; cbn; [exact I | apply visit_nometa].
Qed.

Lemma mapM_nometa_dict_elements l l' :
  mapM (visit_dict_element ucd self) l = Ok l' -> Forall nometa_dict_element l'.
Proof.
  intros E. eapply (mapM_visited _ (fun _ => True)); [| |exact E].
  - apply Forall_forall. auto.
  - intros a a' _. apply visit_dict_element_nometa.
    destruct a; cbn; try split; apply visit_nometa.
Qed.

Lemma mapM_nometa_elements l l' :
  mapM (visit_element ucd self) l = Ok l' -> Forall nometa_element l'.
Proof.
  intros E. eapply (mapM_visited _ (fun _ => True)); [| |exact E].
  - apply Forall_forall. auto.
  - intros a a' _. apply visit_element_nometa.
    destruct a; unfold P_element; cbn; apply visit_nometa.
Qed.

Lemma mapM_nometa_parts l l' :
  mapM (visit_part ucd self) l = Ok l' -> Forall nometa_part l'.
Proof.
  intros E. eapply (mapM_visited _ (fun _ => True)); [| |exact E].
  - apply Forall_forall. auto.
  - intros a a' _. apply visit_part_nometa'.
Qed.

Lemma mapM_nometa_subscript_elements l l' :
  mapM (visit_subscript_element ucd self) l = Ok l' ->
  Forall nometa_subscript_element l'.
Proof.
  intros E. eapply (mapM_visited _ (fun _ => True)); [| |exact E].
  - apply Forall_forall. auto.
  - intros a a' _. apply visit_subscript_element_nometa.
    destruct a as [[star i|ps] post]; cbn; [apply visit_nometa|].
    apply Forall_forall. intros [t|c] _; cbn; [exact I | apply visit_nometa].
Qed.

(** The equations of [visit], with the leave methods in their plain form. *)
Lemma visit_Call_plain h f op args cl :
  V (Call h f op args cl) =
  (f' <- V f ;;
   args' <- mapM (visit_arg ucd self) args ;;
   Ok (call_plain ucd b (Call (rebuilt h) f' op args' cl))).
Proof.
  unfold V. rewrite visit_Call.
  destruct (visit ucd self f) as [f'|] eqn:Ef; [|reflexivity]. cbn [bind].
  destruct (mapM (visit_arg ucd self) args) as [args'|] eqn:Ea; [|reflexivity].
  cbn [bind]. apply leave_Call_spec. apply nometa_Call.
  repeat split; [eapply visit_nometa; eassumption|].
  eapply mapM_nometa_args; eassumption.
Qed.

Lemma visit_Dict_plain h op elts cl :
  V (Dict h op elts cl) =
  (elts' <- mapM (visit_dict_element ucd self) elts ;;
   Ok (dict_plain ucd b (Dict (rebuilt h) op elts' cl))).
Proof.
  unfold V. rewrite visit_Dict.
  destruct (mapM (visit_dict_element ucd self) elts) as [elts'|] eqn:Ee;
    [|reflexivity].
  cbn [bind]. apply leave_Dict_spec. apply nometa_Dict.
  split; [reflexivity|]. eapply mapM_nometa_dict_elements; eassumption.
Qed.

Lemma visit_Subscript_plain h v op sl cl :
  V (Subscript h v op sl cl) =
  (v' <- V v ;;
   sl' <- mapM (visit_subscript_element ucd self) sl ;;
   Ok (subscript_plain ucd b (Subscript (rebuilt h) v' op sl' cl))).
Proof.
  unfold V. rewrite visit_Subscript.
  destruct (visit ucd self v) as [v'|] eqn:Ev; [|reflexivity]. cbn [bind].
  destruct (mapM (visit_subscript_element ucd self) sl) as [sl'|] eqn:Es;
    [|reflexivity].
  cbn [bind]. apply leave_Subscript_spec. apply nometa_Subscript.
  repeat split; [eapply visit_nometa; eassumption|].
  eapply mapM_nometa_subscript_elements; eassumption.
Qed.

Lemma visit_SimpleString_plain h tok :
  V (SimpleString h tok) = string_plain ucd (SimpleString (rebuilt h) tok).
Proof. unfold V. cbn [visit]. apply leave_SimpleString_spec. Qed.

End VisitEquations.

(** [visit] reads [self] only through [_source_has_noqa], and its argument
    only up to the position entries. *)
Section VisitIndependence.
Variable ucd : unicodedata.
Variables self1 self2 : QuoteKeysTransformer.

Hypothesis Hflag : _source_has_noqa self1 = _source_has_noqa self2.

Lemma visit_flag n : visit ucd self1 n = visit ucd self2 n.
Proof.
  induction n using node_induction.
  - reflexivity.
  - rewrite !visit_Attribute, IHn. reflexivity.
  - rewrite !visit_Call_plain, IHn, Hflag.
    rewrite (mapM_ext_Forall _ (visit_arg ucd self1) (visit_arg ucd self2) args H);
      [reflexivity|].
    intros [pre v post]; unfold P_arg; cbn. intros ->. reflexivity.
  - rewrite !visit_Dict_plain, Hflag.
    rewrite (mapM_ext_Forall _ (visit_dict_element ucd self1)
               (visit_dict_element ucd self2) elts H); [reflexivity|].
    intros [k c v post|pre v post]; cbn; [intros [-> ->] | intros ->]; reflexivity.
  - rewrite !visit_Collection.
    rewrite (mapM_ext_Forall _ (visit_element ucd self1)
               (visit_element ucd self2) elts H); [reflexivity|].
    intros [v post|pre v post]; unfold P_element; cbn; intros ->; reflexivity.
  - rewrite !visit_Subscript_plain, IHn, Hflag.
    rewrite (mapM_ext_Forall _ (visit_subscript_element ucd self1)
               (visit_subscript_element ucd self2) sl H); [reflexivity|].
    intros [[star i|ps] post]; cbn.
    + intros ->. reflexivity.
    + intros F.
      rewrite (mapM_ext_Forall _ (visit_part ucd self1) (visit_part ucd self2) ps F);
        [reflexivity|].
      intros [t|c]; cbn; [reflexivity | intros ->; reflexivity].
  - rewrite !visit_SimpleString_plain. reflexivity.
  - rewrite !visit_Other.
    rewrite (mapM_ext_Forall _ (visit_part ucd self1) (visit_part ucd self2) ps H);
      [reflexivity|].
    intros [t|c]; cbn; [reflexivity | intros ->; reflexivity].
Qed.

End VisitIndependence.

Section VisitClone.
Variable ucd : unicodedata.
Variable self : QuoteKeysTransformer.

Lemma visit_clone n : visit ucd self (clone n) = visit ucd self n.
Proof.
  induction n using node_induction; cbn [clone].
  - reflexivity.
  - rewrite !visit_Attribute, IHn. reflexivity.
  - rewrite !visit_Call, IHn, rebuilt_idem.
    change (map (fun a : Arg' => match a with
                                 | Arg pre v post => Arg pre (clone v) post
                                 end) args) with (map clone_arg args).
    rewrite mapM_map.
    rewrite (mapM_ext_Forall _ (fun a => visit_arg ucd self (clone_arg a))
               (visit_arg ucd self) args H); [reflexivity|].
    intros [pre v post]; unfold P_arg; cbn. intros ->. reflexivity.
  - rewrite !visit_Dict, rebuilt_idem.
    change (map _ elts) with (map clone_dict_element elts).
    rewrite mapM_map.
    rewrite (mapM_ext_Forall _ (fun e => visit_dict_element ucd self (clone_dict_element e))
               (visit_dict_element ucd self) elts H); [reflexivity|].
    intros [k c v post|pre v post]; cbn; [intros [-> ->] | intros ->]; reflexivity.
  - rewrite !visit_Collection, rebuilt_idem.
    change (map _ elts) with (map clone_element elts).
    rewrite mapM_map.
    rewrite (mapM_ext_Forall _ (fun e => visit_element ucd self (clone_element e))
               (visit_element ucd self) elts H); [reflexivity|].
    intros [v post|pre v post]; unfold P_element; cbn; intros ->; reflexivity.
  - rewrite !visit_Subscript, IHn, rebuilt_idem.
    change (map _ sl) with (map clone_subscript_element sl).
    rewrite mapM_map.
    rewrite (mapM_ext_Forall _
               (fun s => visit_subscript_element ucd self (clone_subscript_element s))
               (visit_subscript_element ucd self) sl H); [reflexivity|].
    intros [[star i|ps] post]; cbn.
    + intros ->. reflexivity.
    + intros F. rewrite mapM_map.
      rewrite (mapM_ext_Forall _ (fun p => visit_part ucd self (clone_part p))
                 (visit_part ucd self) ps F); [reflexivity|].
      intros [t|c]; cbn; [reflexivity | intros ->; reflexivity].
  - reflexivity.
  - rewrite !visit_Other, rebuilt_idem.
    change (map _ ps) with (map clone_part ps).
    rewrite mapM_map.
    rewrite (mapM_ext_Forall _ (fun p => visit_part ucd self (clone_part p))
               (visit_part ucd self) ps H); [reflexivity|].
    intros [t|c]; cbn; [reflexivity | intros ->; reflexivity].
Qed.

End VisitClone.

(* ================================================================== *)
(** * Stability of the output *)

Section Stable.
Variable ucd : unicodedata.
Variable self : QuoteKeysTransformer.
Local Abbreviation b := (_source_has_noqa self).
Local Abbreviation V := (visit ucd self).
Local Abbreviation A := (apply_ctx ucd (_source_has_noqa self)).

Lemma Stable_fix x : Stable ucd self x -> V x = Ok x.
Proof.
  intros [_ H]. destruct (H CNone) as (x' & E1 & E2). cbn in *. congruence.
Qed.

Lemma Stable_key x :
  Stable ucd self x -> exists x', V (requote_plain ucd b x) = Ok x' /\
                         requote_plain ucd b x' = requote_plain ucd b x.
Proof. intros [_ H]. exact (H CKey). Qed.

Lemma mapM_fix {X} (f : X -> result X) (P : X -> Prop) l :
  Forall P l -> (forall a, P a -> f a = Ok a) -> mapM f l = Ok l.
Proof.
  intros F H. rewrite (mapM_spec P f (fun a => a) l F H). rewrite map_id. reflexivity.
Qed.

Lemma visit_parts_fix ps :
  Forall (Stable_part ucd self) ps -> mapM (visit_part ucd self) ps = Ok ps.
Proof.
  intros F. apply (mapM_fix _ (Stable_part ucd self)); [assumption|].
  intros [t|c]; cbn; [reflexivity|]. intros H.
  rewrite (Stable_fix c H). reflexivity.
Qed.

Lemma Stable_part_nometa p : Stable_part ucd self p -> nometa_part p.
Proof. destruct p; cbn; [auto | intros [H _]; exact H]. Qed.

Lemma requote_plain_other x :
  kind_of x <> KSimpleString -> requote_plain ucd b x = x.
Proof.
  unfold requote_plain, requote_new_plain. destruct b; [reflexivity|].
  destruct x; cbn; try reflexivity. congruence.
Qed.

(** Nodes on which no enclosing call acts. *)
Lemma apply_ctx_inert c x :
  match kind_of x with
  | KSimpleString | KDict | KCollection _ => False
  | _ => True
  end -> A c x = x.
Proof.
  intros H.
  destruct c; cbn [apply_ctx]; try reflexivity;
    try (apply requote_plain_other; destruct x; cbn in *; congruence || contradiction);
    destruct x; cbn in H; try contradiction; try reflexivity.
Qed.

Lemma stable_of_fix c x : V x = Ok x -> A c x = x -> stable ucd self c x.
Proof. intros H E. exists x. rewrite E. auto. Qed.

Lemma Stable_inert x :
  match kind_of x with
  | KSimpleString | KDict | KCollection _ => False
  | _ => True
  end -> nometa x -> V x = Ok x -> Stable ucd self x.
Proof.
  intros K Hn Hx. split; [assumption|]. intros c. exists x.
  rewrite (apply_ctx_inert c x K). auto.
Qed.

Lemma Stable_Name h v : Stable ucd self (Name (rebuilt h) v).
Proof. apply Stable_inert; [exact I | reflexivity | reflexivity]. Qed.

Lemma Stable_Attribute h v dot attr :
  Stable ucd self v -> Stable ucd self (Attribute (rebuilt h) v dot attr).
Proof.
  intros Hv. apply Stable_inert; [exact I | |].
  - apply nometa_Attribute. split; [reflexivity | apply Hv].
  - rewrite visit_Attribute. rewrite (Stable_fix v Hv).
    reflexivity.
Qed.

Lemma Stable_Other h ps :
  Forall (Stable_part ucd self) ps -> Stable ucd self (Other (rebuilt h) ps).
Proof.
  intros F. apply Stable_inert; [exact I | |].
  - apply nometa_Other. split; [reflexivity|].
    eapply Forall_impl; [|eassumption]. apply Stable_part_nometa.
  - rewrite visit_Other, visit_parts_fix by assumption. reflexivity.
Qed.

Lemma requote_new_plain_string h tok :
  requote_new_plain ucd b (SimpleString h tok) =
  if b then None
  else option_map new_SimpleString (to_single_quoted_string ucd tok).
Proof. reflexivity. Qed.

Lemma to_single_requoted tok t :
  to_single_quoted_string ucd tok = Some t ->
  to_single_quoted_string ucd t = None.
Proof.
  intros E. pose proof (requote_token_idem ucd tok) as H.
  unfold requote_token in H at 2 3. rewrite E in H.
  unfold requote_token in H.
  destruct (to_single_quoted_string ucd t) as [t'|] eqn:E'; [|reflexivity].
  apply to_single_changes in E'. apply str_eqb_neq in E'. congruence.
Qed.

Lemma requote_plain_idem x :
  requote_plain ucd b (requote_plain ucd b x) = requote_plain ucd b x.
Proof.
  unfold requote_plain, requote_new_plain.
  destruct b; [reflexivity|].
  destruct x as [| | | | | |h tok|]; try reflexivity.
  destruct (to_single_quoted_string ucd tok) as [t|] eqn:E; cbn [option_map].
  - unfold new_SimpleString. rewrite (to_single_requoted tok t E). reflexivity.
  - rewrite E. reflexivity.
Qed.

Lemma dict_key_plain_idem e :
  dict_key_plain ucd b (dict_key_plain ucd b e) = dict_key_plain ucd b e.
Proof.
  destruct e as [k c v post|]; cbn; [|reflexivity].
  rewrite requote_plain_idem. reflexivity.
Qed.

Lemma mapM_stable {X} (f : X -> result X) (g : X -> X) l :
  Forall (fun a => exists a', f (g a) = Ok a' /\ g a' = g a) l ->
  exists l', mapM f (map g l) = Ok l' /\ map g l' = map g l.
Proof.
  induction 1 as [|a l (a' & Ea & Ga) Hl (l' & El & Gl)].
  - exists []. split; reflexivity.
  - exists (a' :: l'). cbn [map]. rewrite mapM_cons, Ea. cbn [bind].
    rewrite El. cbn [bind]. split; [reflexivity | congruence].
Qed.

Lemma element_fix e : Stable_element ucd self e -> visit_element ucd self e = Ok e.
Proof.
  destruct e as [v post|pre v post]; unfold Stable_element; cbn; intros H;
    rewrite (Stable_fix v H); reflexivity.
Qed.

Lemma element_stable_with (c : ctx) e :
  Stable_element ucd self e ->
  exists x', V (A c (element_value e)) = Ok x' /\
             A c x' = A c (element_value e) /\
             visit_element ucd self (element_with_value e (A c (element_value e)))
             = Ok (element_with_value e x').
Proof.
  unfold Stable_element. intros [Hn H]. destruct (H c) as (x' & E1 & E2).
  exists x'. repeat split; try assumption.
  destruct e as [v post|pre v post]; cbn in *;
    rewrite E1; reflexivity.
Qed.

Lemma element_stable_pair e :
  Stable_element ucd self e ->
  exists e', visit_element ucd self (pair_plain ucd b e) = Ok e' /\
             pair_plain ucd b e' = pair_plain ucd b e.
Proof.
  intros H. destruct e as [v post|pre v post].
  - destruct (element_stable_with CPair _ H) as (x' & E1 & E2 & E3).
    exists (Element x' post). split; [exact E3|]. cbn in *.
    cbn in E2. rewrite E2. reflexivity.
  - exists (StarredElement pre v post). split; [|reflexivity].
    apply (element_fix _ H).
Qed.

Lemma element_stable_key e :
  Stable_element ucd self e ->
  exists e', visit_element ucd self (element_plain ucd b e) = Ok e' /\
             element_plain ucd b e' = element_plain ucd b e.
Proof.
  intros H. destruct e as [v post|pre v post].
  - destruct (element_stable_with CKey _ H) as (x' & E1 & E2 & E3).
    exists (Element x' post). split; [exact E3|]. cbn in *.
    cbn in E2. rewrite E2. reflexivity.
  - exists (StarredElement pre v post). split; [|reflexivity].
    apply (element_fix _ H).
Qed.

Lemma Stable_element_nometa e : Stable_element ucd self e -> nometa_element e.
Proof. intros [H _]. exact H. Qed.

Lemma Stable_Collection h k op elts cl :
  Forall (Stable_element ucd self) elts ->
  Stable ucd self (Collection (rebuilt h) k op elts cl).
Proof.
  intros F.
  assert (Hn : nometa (Collection (rebuilt h) k op elts cl)).
  { apply nometa_Collection. split; [reflexivity|].
    eapply Forall_impl; [|eassumption]. apply Stable_element_nometa. }
  assert (Hfix : V (Collection (rebuilt h) k op elts cl) =
                 Ok (Collection (rebuilt h) k op elts cl)).
  { rewrite visit_Collection.
    rewrite (mapM_fix _ (Stable_element ucd self) elts F element_fix). reflexivity. }
  split; [assumption|]. intros c. destruct c.
  - apply stable_of_fix; [exact Hfix | reflexivity].
  - apply stable_of_fix; [exact Hfix|].
    apply requote_plain_other. cbn. congruence.
  - destruct (is_list_or_tuple k) eqn:Ek.
    2:{ apply stable_of_fix; [exact Hfix|]. cbn [apply_ctx].
        rewrite Ek. reflexivity. }
    unfold stable. cbn [apply_ctx]. rewrite Ek.
    destruct (mapM_stable (visit_element ucd self) (pair_plain ucd b) elts)
      as (l' & E1 & E2).
    { eapply Forall_impl; [|eassumption]. apply element_stable_pair. }
    exists (Collection (rebuilt h) k op l' cl).
    rewrite visit_Collection, E1. cbn [bind]. rewrite Ek, E2. auto.
  - unfold stable. cbn [apply_ctx].
    destruct (mapM_stable (visit_element ucd self) (element_plain ucd b) elts)
      as (l' & E1 & E2).
    { eapply Forall_impl; [|eassumption]. apply element_stable_key. }
    exists (Collection (rebuilt h) k op l' cl).
    rewrite visit_Collection, E1. cbn [bind]. rewrite E2. auto.
  - destruct elts as [|e0 rest].
    { apply stable_of_fix; [exact Hfix | reflexivity]. }
    destruct (is_list_or_tuple k) eqn:Ek.
    2:{ apply stable_of_fix; [exact Hfix|].
        cbn [apply_ctx pair_value_plain]. rewrite Ek. reflexivity. }
    unfold stable. cbn [apply_ctx pair_value_plain]. rewrite Ek.
    inversion F as [|? ? F0 Fr]; subst.
    destruct (element_stable_with CKey e0 F0) as (x' & E1 & E2 & E3).
    exists (Collection (rebuilt h) k op (element_with_value e0 x' :: rest) cl).
    rewrite visit_Collection, mapM_cons.
    cbn [apply_ctx] in E3. rewrite E3. cbn [bind].
    rewrite (mapM_fix _ (Stable_element ucd self) rest Fr element_fix). cbn [bind].
    split; [reflexivity|]. cbn [pair_value_plain]. rewrite Ek.
    cbn [apply_ctx] in E2.
    destruct e0; cbn in *; rewrite E2; reflexivity.
Qed.

Lemma dict_element_stable e :
  Stable_dict_element ucd self e ->
  exists e', visit_dict_element ucd self (dict_key_plain ucd b e) = Ok e' /\
             dict_key_plain ucd b e' = dict_key_plain ucd b e.
Proof.
  destruct e as [k c v post|pre v post]; cbn.
  - intros [Hk Hv]. destruct (Stable_key k Hk) as (k' & E1 & E2).
    exists (DictElement k' c v post). rewrite E1. cbn [bind].
    rewrite (Stable_fix v Hv). cbn. rewrite E2. auto.
  - intros Hv. exists (StarredDictElement pre v post).
    rewrite (Stable_fix v Hv). auto.
Qed.

Lemma Stable_dict_element_nometa e :
  Stable_dict_element ucd self e -> nometa_dict_element e.
Proof.
  destruct e; cbn; [intros [[H1 _] [H2 _]]; auto | intros [H _]; exact H].
Qed.

Lemma Stable_Dict h op elts cl :
  Forall (Stable_dict_element ucd self) elts ->
  Stable ucd self (dict_plain ucd b (Dict (rebuilt h) op elts cl)).
Proof.
  intros F. cbn [dict_plain].
  assert (Hn : nometa (Dict (rebuilt h) op (map (dict_key_plain ucd b) elts) cl)).
  { apply (dict_plain_nometa ucd self (Dict (rebuilt h) op elts cl)).
    apply nometa_Dict. split; [reflexivity|].
    eapply Forall_impl; [|eassumption]. apply Stable_dict_element_nometa. }
  assert (Hfix : V (Dict (rebuilt h) op (map (dict_key_plain ucd b) elts) cl) =
                 Ok (Dict (rebuilt h) op (map (dict_key_plain ucd b) elts) cl)).
  { rewrite visit_Dict_plain.
    destruct (mapM_stable (visit_dict_element ucd self) (dict_key_plain ucd b) elts)
      as (l' & E1 & E2).
    { eapply Forall_impl; [|eassumption]. apply dict_element_stable. }
    rewrite E1. cbn [bind dict_plain]. rewrite E2. reflexivity. }
  split; [assumption|]. intros c. apply stable_of_fix; [exact Hfix|].
  destruct c; cbn [apply_ctx]; try reflexivity.
  - apply requote_plain_other. cbn. congruence.
  - rewrite map_map. f_equal. apply map_ext. apply dict_key_plain_idem.
Qed.

Lemma requote_plain_new x :
  requote_plain ucd b x =
  match requote_new_plain ucd b x with Some y => y | None => x end.
Proof. reflexivity. Qed.

Lemma subscript_element_stable s :
  Stable_subscript_element ucd self s ->
  exists s', visit_subscript_element ucd self (index_plain ucd b s) = Ok s' /\
             index_plain ucd b s' = index_plain ucd b s.
Proof.
  destruct s as [[star t|ps] post]; cbn [Stable_subscript_element index_plain].
  - intros Ht. destruct (requote_new_plain ucd b t) as [t1|] eqn:E.
    + destruct (Stable_key t Ht) as (x' & E1 & E2).
      rewrite requote_plain_new, E in E1. rewrite (requote_plain_new t), E in E2.
      exists (SubscriptElement (Index [] x') post). cbn [visit_subscript_element].
      rewrite E1. split; [reflexivity|]. cbn [index_plain].
      rewrite requote_plain_new in E2.
      destruct (requote_new_plain ucd b x'); congruence.
    + exists (SubscriptElement (Index star t) post). cbn [visit_subscript_element].
      rewrite (Stable_fix t Ht). split; [reflexivity|].
      cbn [index_plain]. rewrite E. reflexivity.
  - intros F. exists (SubscriptElement (Slice ps) post).
    cbn [visit_subscript_element]. rewrite visit_parts_fix by assumption. auto.
Qed.

Lemma Stable_subscript_element_nometa s :
  Stable_subscript_element ucd self s -> nometa_subscript_element s.
Proof.
  destruct s as [[star t|ps] post]; cbn; [intros [H _]; exact H|].
  intros F. eapply Forall_impl; [|eassumption]. apply Stable_part_nometa.
Qed.

Lemma Stable_Subscript h v op sl cl :
  Stable ucd self v -> Forall (Stable_subscript_element ucd self) sl ->
  Stable ucd self (subscript_plain ucd b (Subscript (rebuilt h) v op sl cl)).
Proof.
  intros Hv F. cbn [subscript_plain]. apply Stable_inert; [exact I | |].
  - apply (subscript_plain_nometa ucd self (Subscript (rebuilt h) v op sl cl)).
    apply nometa_Subscript. repeat split; [apply Hv|].
    eapply Forall_impl; [|eassumption]. apply Stable_subscript_element_nometa.
  - rewrite visit_Subscript_plain. rewrite (Stable_fix v Hv).
    cbn [bind].
    destruct (mapM_stable (visit_subscript_element ucd self) (index_plain ucd b) sl)
      as (l' & E1 & E2).
    { eapply Forall_impl; [|eassumption]. apply subscript_element_stable. }
    rewrite E1. cbn [bind subscript_plain]. rewrite E2. reflexivity.
Qed.

Lemma requote_plain_kind x : kind_of (requote_plain ucd b x) = kind_of x.
Proof.
  unfold requote_plain, requote_new_plain. destruct b; [reflexivity|].
  destruct x as [| | | | | |hs tok|]; try reflexivity.
  destruct (to_single_quoted_string ucd tok); reflexivity.
Qed.

Lemma pair_value_plain_kind x : kind_of (pair_value_plain ucd b x) = kind_of x.
Proof.
  destruct x as [| | | |h k op [|e0 rest] cl| | |]; try reflexivity.
  cbn. destruct (is_list_or_tuple k); reflexivity.
Qed.

Lemma apply_ctx_kind c x : kind_of (A c x) = kind_of x.
Proof.
  destruct c; cbn [apply_ctx].
  - reflexivity.
  - apply requote_plain_kind.
  - destruct x; try reflexivity. cbn. destruct (is_list_or_tuple kind); reflexivity.
  - destruct x; reflexivity.
  - apply pair_value_plain_kind.
Qed.

Lemma is_SimpleString_kind x :
  is_SimpleString x = match kind_of x with KSimpleString => true | _ => false end.
Proof. destruct x; reflexivity. Qed.

Lemma call_rule_kinds func args1 args2 :
  arg_kinds args1 = arg_kinds args2 -> call_rule func args1 = call_rule func args2.
Proof.
  intros H.
  assert (L : List.length args1 = List.length args2).
  { apply (f_equal (@List.length _)) in H. unfold arg_kinds in H.
    rewrite !length_map in H. exact H. }
  assert (N : nonempty args1 = nonempty args2).
  { destruct args1, args2; try reflexivity; discriminate. }
  assert (K : first_kind args1 = first_kind args2).
  { destruct args1, args2; try reflexivity; try discriminate.
    cbn in *. injection H as H _. congruence. }
  assert (S : first_string_index args1 = first_string_index args2).
  { unfold first_string_index.
    destruct args1 as [|a1 [|b1 r1]], args2 as [|a2 [|b2 r2]]; try discriminate;
      try reflexivity; cbn in H; rewrite !is_SimpleString_kind.
    - injection H as H. rewrite H. reflexivity.
    - injection H as H1 H2 _. rewrite H1, H2. reflexivity. }
  unfold call_rule, rule_constructor, rule_fromkeys, rule_dunder, ctor_first, collection_first.
  rewrite L, N, K, S. reflexivity.
Qed.

Lemma arg_stable_update i c args :
  Forall (Stable_arg ucd self) args ->
  exists args2,
    mapM (visit_arg ucd self)
      (update_nth i (fun a => arg_with_value a (A c (arg_value a))) args) = Ok args2 /\
    update_nth i (fun a => arg_with_value a (A c (arg_value a))) args2 =
    update_nth i (fun a => arg_with_value a (A c (arg_value a))) args /\
    arg_kinds args2 = arg_kinds args.
Proof.
  intros F. revert i. induction F as [|a l Ha Hl IH]; intros i.
  - exists []. destruct i; repeat split; reflexivity.
  - destruct i as [|i]; cbn [update_nth].
    + destruct Ha as [Hn Hs]. destruct (Hs c) as (x' & E1 & E2).
      exists (arg_with_value a x' :: l). rewrite mapM_cons.
      destruct a as [pre v post]. cbn [arg_with_value arg_value visit_arg] in *.
      rewrite E1. cbn [bind].
      rewrite (mapM_fix _ (Stable_arg ucd self) l Hl).
      2:{ intros [pre' v' post'] Hv'. cbn.
          rewrite (Stable_fix v' Hv'). reflexivity. }
      cbn [bind]. repeat split.
      * cbn [update_nth arg_with_value arg_value]. rewrite E2. reflexivity.
      * cbn. f_equal. rewrite <- (apply_ctx_kind c x'), E2. apply apply_ctx_kind.
    + destruct (IH i) as (args2 & E1 & E2 & E3).
      exists (a :: args2). rewrite mapM_cons.
      destruct a as [pre v post]. cbn [visit_arg].
      rewrite (Stable_fix v Ha). cbn [bind]. rewrite E1. cbn [bind].
      repeat split.
      * cbn [update_nth]. rewrite E2. reflexivity.
      * cbn. f_equal. exact E3.
Qed.

Lemma Stable_arg_nometa a : Stable_arg ucd self a -> nometa_arg a.
Proof. intros [H _]. exact H. Qed.

Lemma Stable_Call h f op args cl :
  Stable ucd self f -> Forall (Stable_arg ucd self) args ->
  Stable ucd self (call_plain ucd b (Call (rebuilt h) f op args cl)).
Proof.
  intros Hf F.
  assert (Hu : nometa (Call (rebuilt h) f op args cl)).
  { apply nometa_Call. repeat split; [apply Hf|].
    eapply Forall_impl; [|eassumption]. apply Stable_arg_nometa. }
  pose proof (call_plain_nometa ucd self _ Hu) as Hn.
  cbn [call_plain] in *.
  destruct (call_rule f args) as [[i c]|] eqn:R; cbn [apply_rule] in *.
  - apply Stable_inert; [exact I | exact Hn |].
    rewrite visit_Call_plain. rewrite (Stable_fix f Hf).
    cbn [bind].
    destruct (arg_stable_update i c args F) as (args2 & E1 & E2 & E3).
    rewrite E1. cbn [bind call_plain].
    rewrite (call_rule_kinds f args2 args E3), R. cbn [apply_rule].
    rewrite E2. reflexivity.
  - apply Stable_inert; [exact I | exact Hn |].
    rewrite visit_Call_plain. rewrite (Stable_fix f Hf).
    cbn [bind]. rewrite (mapM_fix _ (Stable_arg ucd self) args F).
    2:{ intros [pre' v' post'] Hv'. cbn.
        rewrite (Stable_fix v' Hv'). reflexivity. }
    cbn [bind call_plain]. rewrite R. reflexivity.
Qed.

End Stable.

(* ================================================================== *)
(** * A second traversal changes nothing *)

Section Idempotence.
Variable ucd : unicodedata.
Variable self : QuoteKeysTransformer.
Local Abbreviation b := (_source_has_noqa self).
Local Abbreviation V := (visit ucd self).

Lemma Stable_string h tok x :
  bmp_token ucd tok ->
  string_plain ucd (SimpleString (rebuilt h) tok) = Ok x -> Stable ucd self x.
Proof.
  intros Hb E. cbn [string_plain] in E. apply bind_Ok in E.
  destruct E as (d & Ed & E).
  pose proof (default_token_idem ucd tok d Hb Ed) as T1.
  pose proof (default_requote_default ucd tok d Hb Ed) as (d' & T3a & T3b).
  assert (Hx : exists hx, x = SimpleString hx d /\ rebuilt hx = hx).
  { destruct (str_eqb d tok) eqn:Eq; injection E as <-.
    - apply str_eqb_eq in Eq. subst d. eexists. split; reflexivity.
    - eexists. split; reflexivity. }
  clear E. destruct Hx as (hx & -> & Hhx).
  assert (Hfix : V (SimpleString hx d) = Ok (SimpleString hx d)).
  { rewrite visit_SimpleString_plain. cbn [string_plain].
    rewrite T1. cbn [bind]. rewrite str_eqb_refl, Hhx. reflexivity. }
  split; [apply nometa_SimpleString; exact Hhx|]. intros c.
  destruct c; try (apply stable_of_fix; [exact Hfix | reflexivity]).
  destruct (requote_new_plain ucd b (SimpleString hx d)) as [y|] eqn:Ey.
  2:{ apply stable_of_fix; [exact Hfix|]. cbn [apply_ctx].
      unfold requote_plain. rewrite Ey. reflexivity. }
  unfold stable. cbn [apply_ctx]. unfold requote_plain at 1 3.
  rewrite Ey. unfold requote_new_plain in Ey.
  destruct b eqn:Eb; [discriminate|].
  destruct (to_single_quoted_string ucd d) as [k|] eqn:Ek; [|discriminate].
  injection Ey as <-.
  assert (Hk : requote_token ucd d = k) by (unfold requote_token; rewrite Ek; reflexivity).
  rewrite Hk in T3a, T3b.
  exists (new_SimpleString d'). split.
  - unfold new_SimpleString. rewrite visit_SimpleString_plain.
    cbn [string_plain]. rewrite T3a. cbn [bind].
    destruct (str_eqb d' k) eqn:Eq; [|reflexivity].
    apply str_eqb_eq in Eq. subst d'. reflexivity.
  - unfold requote_plain, requote_new_plain, new_SimpleString.
    unfold requote_token in T3b.
    destruct (to_single_quoted_string ucd d'); cbn [option_map]; subst; reflexivity.
Qed.

Lemma lift_list {X} (toks : X -> list str) (f : X -> result X)
    (IHx SX : X -> Prop) l :
  Forall IHx l ->
  (forall a a', IHx a -> Forall (bmp_token ucd) (toks a) -> f a = Ok a' -> SX a') ->
  Forall (bmp_token ucd) (flat_map toks l) ->
  forall l', mapM f l = Ok l' -> Forall SX l'.
Proof.
  intros F H. induction F as [|a l Ha F IH]; intros Hb l' E.
  - injection E as <-. constructor.
  - rewrite mapM_cons in E. apply bind_Ok in E. destruct E as (a' & Ea & E).
    apply bind_Ok in E. destruct E as (l2 & El & [= <-]).
    cbn [flat_map] in Hb. apply Forall_app in Hb. destruct Hb as [Hb1 Hb2].
    constructor; [eapply H; eassumption | apply IH; assumption].
Qed.

Lemma lift_parts ps :
  Forall (P_part (visit_ok ucd self)) ps ->
  Forall (bmp_token ucd) (flat_map (part_tokens tokens) ps) ->
  forall ps', mapM (visit_part ucd self) ps = Ok ps' ->
  Forall (Stable_part ucd self) ps'.
Proof.
  intros F. apply (lift_list _ _ (P_part (visit_ok ucd self)) _ ps F).
  intros [t|c] a' Ha Hb E; cbn in E.
  - injection E as <-. exact I.
  - apply bind_Ok in E. destruct E as (c' & Ec & [= <-]). cbn. apply Ha; assumption.
Qed.

Lemma visit_Stable n : bmp_tree ucd n -> forall x, V n = Ok x -> Stable ucd self x.
Proof.
  change (visit_ok ucd self n).
  induction n using node_induction; unfold visit_ok, bmp_tree; intros Hb x E.
  - injection E as <-. apply Stable_Name.
  - rewrite visit_Attribute in E. apply bind_Ok in E.
    destruct E as (v' & Ev & [= <-]). apply Stable_Attribute. apply IHn; assumption.
  - rewrite visit_Call_plain in E. apply bind_Ok in E.
    destruct E as (f' & Ef & E). apply bind_Ok in E.
    destruct E as (args' & Ea & [= <-]).
    cbn [tokens] in Hb. apply Forall_app in Hb. destruct Hb as [Hb1 Hb2].
    apply Stable_Call; [apply IHn; assumption|].
    revert Hb2 args' Ea. apply (lift_list _ _ _ _ _ H).
    intros [pre v post] a' Ha Hv E. cbn in E. apply bind_Ok in E.
    destruct E as (v' & Ev & [= <-]). apply Ha; assumption.
  - rewrite visit_Dict_plain in E. apply bind_Ok in E.
    destruct E as (elts' & Ee & [= <-]). cbn [tokens] in Hb.
    apply Stable_Dict. revert Hb elts' Ee. apply (lift_list _ _ _ _ _ H).
    intros [k colon v post|pre v post] a' Ha Hv E; cbn in E.
    + apply bind_Ok in E. destruct E as (k' & Ek & E). apply bind_Ok in E.
      destruct E as (v' & Ev & [= <-]). apply Forall_app in Hv.
      destruct Ha as [Hk1 Hv1]. destruct Hv as [Hk2 Hv2].
      split; [apply Hk1 | apply Hv1]; assumption.
    + apply bind_Ok in E. destruct E as (v' & Ev & [= <-]). apply Ha; assumption.
  - rewrite visit_Collection in E. apply bind_Ok in E.
    destruct E as (elts' & Ee & [= <-]). cbn [tokens] in Hb.
    apply Stable_Collection. revert Hb elts' Ee. apply (lift_list _ _ _ _ _ H).
    intros [v post|pre v post] a' Ha Hv E; cbn in E;
      apply bind_Ok in E; destruct E as (v' & Ev & [= <-]); apply Ha; assumption.
  - rewrite visit_Subscript_plain in E. apply bind_Ok in E.
    destruct E as (v' & Ev & E). apply bind_Ok in E.
    destruct E as (sl' & Es & [= <-]).
    cbn [tokens] in Hb. apply Forall_app in Hb. destruct Hb as [Hb1 Hb2].
    apply Stable_Subscript; [apply IHn; assumption|].
    revert Hb2 sl' Es. apply (lift_list _ _ _ _ _ H).
    intros [[star i|ps] post] a' Ha Hv E; cbn in E.
    + apply bind_Ok in E. destruct E as (i' & Ei & [= <-]). apply Ha; assumption.
    + apply bind_Ok in E. destruct E as (ps' & Ep & [= <-]). cbn.
      eapply lift_parts; eassumption.
  - rewrite visit_SimpleString_plain in E.
    eapply Stable_string; [|exact E]. inversion Hb; assumption.
  - rewrite visit_Other in E. apply bind_Ok in E.
    destruct E as (ps' & Ep & [= <-]). cbn [tokens] in Hb.
    apply Stable_Other. eapply lift_parts; eassumption.
Qed.

(** A second traversal of an output of the first one changes nothing. *)
Lemma visit_idem n x : bmp_tree ucd n -> V n = Ok x -> V x = Ok x.
Proof. intros Hb E. apply Stable_fix. eapply visit_Stable; eassumption. Qed.

End Idempotence.

(* ================================================================== *)
(** * Text of a copy; the transformation twice *)

Lemma flat_map_map {A B C} (g : A -> B) (f : B -> list C) l :
  flat_map f (map g l) = flat_map (fun a => f (g a)) l.
Proof. induction l as [|a l IH]; cbn; congruence. Qed.

Lemma flat_map_ext_Forall {A B} (f g : A -> list B) l :
  Forall (fun a => f a = g a) l -> flat_map f l = flat_map g l.
Proof. induction 1; cbn; congruence. Qed.

Lemma code_clone_parts ps :
  Forall (P_part (fun n => code (clone n) = code n)) ps ->
  flat_map (fun p => match p with Text s => s | Child n => code n end)
    (map (fun p => match p with Text t => Text t | Child c => Child (clone c) end) ps)
  = flat_map (fun p => match p with Text s => s | Child n => code n end) ps.
Proof.
  intros F. rewrite flat_map_map. apply flat_map_ext_Forall.
  eapply Forall_impl; [|exact F]. intros [t|c] H; cbn in *; congruence.
Qed.

(** The text of a tree does not depend on its metadata. *)
Lemma code_clone n : code (clone n) = code n.
Proof.
  induction n using node_induction; cbn [clone code rebuilt lpar rpar];
    try reflexivity.
  - rewrite IHn. reflexivity.
  - rewrite IHn, flat_map_map.
    erewrite flat_map_ext_Forall; [reflexivity|]. eapply Forall_impl; [|exact H].
    intros [pre v post] Hv. unfold P_arg in Hv. cbn in Hv. rewrite Hv. reflexivity.
  - rewrite flat_map_map.
    erewrite flat_map_ext_Forall; [reflexivity|]. eapply Forall_impl; [|exact H].
    intros [k c v post|pre v post] Hv; cbn in Hv.
    + destruct Hv as [-> ->]. reflexivity.
    + rewrite Hv. reflexivity.
  - rewrite flat_map_map.
    erewrite flat_map_ext_Forall; [reflexivity|]. eapply Forall_impl; [|exact H].
    intros [v post|pre v post] Hv; unfold P_element in Hv; cbn in Hv;
      rewrite Hv; reflexivity.
  - rewrite IHn, flat_map_map.
    erewrite flat_map_ext_Forall; [reflexivity|]. eapply Forall_impl; [|exact H].
    intros [[star i|ps] post] Hv; cbn in Hv.
    + rewrite Hv. reflexivity.
    + unfold code_parts. rewrite code_clone_parts by assumption. reflexivity.
  - unfold code_parts. rewrite code_clone_parts by assumption. reflexivity.
Qed.

Lemma code_same_tree a b : clone a = clone b -> code a = code b.
Proof. intros E. rewrite <- (code_clone a), <- (code_clone b), E. reflexivity. Qed.

Lemma transform_code_visit ucd m x :
  visit ucd (__init__ (code m)) m = Ok x ->
  transform_code ucd m = Ok (code x, negb (str_eqb (code x) (code m))).
Proof. intros E. unfold transform_code. rewrite E. reflexivity. Qed.

(* ================================================================== *)
(** * What the traversal does to the tokens of a tree *)

Lemma Forall2_refl {A} (R : A -> A -> Prop) l :
  (forall a, R a a) -> Forall2 R l l.
Proof. intros H. induction l; constructor; auto. Qed.

Lemma Forall2_trans {A} (R : A -> A -> Prop) l1 l2 l3 :
  (forall a b c, R a b -> R b c -> R a c) ->
  Forall2 R l1 l2 -> Forall2 R l2 l3 -> Forall2 R l1 l3.
Proof.
  intros H F. revert l3. induction F; intros l3 G; inversion G; subst;
    constructor; eauto.
Qed.

Lemma Forall2_flat_map_map {A B} (R : B -> B -> Prop) (f : A -> list B) g l :
  (forall a, Forall2 R (f a) (f (g a))) ->
  Forall2 R (flat_map f l) (flat_map f (map g l)).
Proof.
  intros H. induction l as [|a l IH]; cbn; [constructor|].
  apply Forall2_app; auto.
Qed.

Lemma Forall2_flat_map_update_nth {A B} (R : B -> B -> Prop) (f : A -> list B) g i l :
  (forall a, R a a) ->
  (forall a, Forall2 R (f a) (f (g a))) ->
  Forall2 R (flat_map f l) (flat_map f (update_nth i g l)).
Proof.
  intros Hr H. revert i. induction l as [|a l IH]; intros i.
  - destruct i; constructor.
  - destruct i; cbn; apply Forall2_app; auto using Forall2_refl.
Qed.

Section TokenRelation.
Variable ucd : unicodedata.
Variable self : QuoteKeysTransformer.
Variable R : str -> str -> Prop.
Local Abbreviation b := (_source_has_noqa self).
Local Abbreviation V := (visit ucd self).

Hypothesis R_refl : forall t, R t t.
Hypothesis R_trans : forall t1 t2 t3, R t1 t2 -> R t2 t3 -> R t1 t3.
Hypothesis R_default : forall t d, default_token ucd t = Ok d -> R t d.
Hypothesis R_single : forall t k, to_single_quoted_string ucd t = Some k -> R t k.

Lemma related_refl x : related R x x.
Proof. apply Forall2_refl, R_refl. Qed.

Lemma related_trans x y z : related R x y -> related R y z -> related R x z.
Proof. apply Forall2_trans, R_trans. Qed.

Lemma requote_plain_related s : related R s (requote_plain ucd b s).
Proof.
  unfold requote_plain, requote_new_plain. destruct b; [apply related_refl|].
  destruct s; try apply related_refl.
  destruct (to_single_quoted_string ucd _) as [k|] eqn:E; cbn [option_map];
    [|apply related_refl].
  constructor; [apply R_single; assumption | constructor].
Qed.

Lemma pair_value_plain_related x : related R x (pair_value_plain ucd b x).
Proof.
  destruct x as [| | | |h k op elts cl| | |]; try apply related_refl.
  cbn [pair_value_plain].
  destruct elts as [|e0 rest]; [apply related_refl|].
  destruct (is_list_or_tuple k); [|apply related_refl].
  unfold related. cbn [tokens flat_map]. apply Forall2_app; [|apply Forall2_refl, R_refl].
  destruct e0; cbn; apply requote_plain_related.
Qed.

Lemma apply_ctx_related c x : related R x (apply_ctx ucd b c x).
Proof.
  destruct c; cbn [apply_ctx].
  - apply related_refl.
  - apply requote_plain_related.
  - destruct x as [| | |h op elts cl|h k op elts cl| | |]; try apply related_refl.
    + unfold related. cbn [tokens]. apply Forall2_flat_map_map.
      intros [k colon v post|pre v post]; cbn; [|apply related_refl].
      apply Forall2_app; [apply requote_plain_related | apply related_refl].
    + destruct (is_list_or_tuple k); [|apply related_refl].
      unfold related. cbn [tokens]. apply Forall2_flat_map_map.
      intros [v post|pre v post]; cbn; [|apply related_refl].
      apply pair_value_plain_related.
  - destruct x as [| | | |h k op elts cl| | |]; try apply related_refl.
    unfold related. cbn [tokens]. apply Forall2_flat_map_map.
    intros [v post|pre v post]; cbn; [|apply related_refl].
    apply requote_plain_related.
  - apply pair_value_plain_related.
Qed.

Lemma call_plain_related u : related R u (call_plain ucd b u).
Proof.
  destruct u as [| |h f op args cl| | | | |]; try apply related_refl.
  cbn [call_plain].
  destruct (call_rule f args) as [[i c]|]; cbn [apply_rule]; [|apply related_refl].
  unfold related. cbn [tokens]. apply Forall2_app; [apply related_refl|].
  apply Forall2_flat_map_update_nth; [exact R_refl|].
  intros [pre v post]. cbn. apply apply_ctx_related.
Qed.

Lemma dict_plain_related u : related R u (dict_plain ucd b u).
Proof.
  destruct u; try apply related_refl. cbn [dict_plain].
  unfold related. cbn [tokens]. apply Forall2_flat_map_map.
  intros [k colon v post|pre v post]; cbn; [|apply related_refl].
  apply Forall2_app; [apply requote_plain_related | apply related_refl].
Qed.

Lemma subscript_plain_related u : related R u (subscript_plain ucd b u).
Proof.
  destruct u; try apply related_refl. cbn [subscript_plain].
  unfold related. cbn [tokens]. apply Forall2_app; [apply related_refl|].
  apply Forall2_flat_map_map.
  intros [[star i|ps] post]; cbn [index_plain]; [|apply Forall2_refl, R_refl].
  pose proof (requote_plain_related i) as H. unfold requote_plain in H.
  destruct (requote_new_plain ucd b i); [exact H | apply Forall2_refl, R_refl].
Qed.

Lemma string_plain_related h tok x :
  string_plain ucd (SimpleString h tok) = Ok x -> related R (SimpleString h tok) x.
Proof.
  cbn [string_plain]. intros E. apply bind_Ok in E. destruct E as (d & Ed & E).
  apply R_default in Ed.
  destruct (str_eqb d tok); injection E as <-; [apply related_refl|].
  constructor; [assumption | constructor].
Qed.

Lemma lift_related {X} (toks : X -> list str) (f : X -> result X)
    (IHx : X -> Prop) l :
  Forall IHx l ->
  (forall a a', IHx a -> f a = Ok a' -> Forall2 R (toks a) (toks a')) ->
  forall l', mapM f l = Ok l' -> Forall2 R (flat_map toks l) (flat_map toks l').
Proof.
  intros F H. induction F as [|a l Ha F IH]; intros l' E.
  - injection E as <-. constructor.
  - rewrite mapM_cons in E. apply bind_Ok in E. destruct E as (a' & Ea & E).
    apply bind_Ok in E. destruct E as (l2 & El & [= <-]).
    cbn [flat_map]. apply Forall2_app; [eapply H; eassumption | apply IH; assumption].
Qed.

Lemma lift_related_parts ps :
  Forall (P_part (visit_related ucd self R)) ps ->
  forall ps', mapM (visit_part ucd self) ps = Ok ps' ->
  Forall2 R (flat_map (part_tokens tokens) ps) (flat_map (part_tokens tokens) ps').
Proof.
  intros F. apply (lift_related _ _ (P_part (visit_related ucd self R)) ps F).
  intros [t|c] a' Ha E; cbn in E.
  - injection E as <-. constructor.
  - apply bind_Ok in E. destruct E as (c' & Ec & [= <-]). exact (Ha _ Ec).
Qed.

(** Every token of the output is [R]-related R to the token at the same
    place of the input. *)
Lemma visit_tokens n : forall x, V n = Ok x -> related R n x.
Proof.
  change (visit_related ucd self R n).
  induction n using node_induction; unfold visit_related; intros x E.
  - injection E as <-. constructor.
  - rewrite visit_Attribute in E. apply bind_Ok in E.
    destruct E as (v' & Ev & [= <-]). exact (IHn _ Ev).
  - rewrite visit_Call_plain in E. apply bind_Ok in E.
    destruct E as (f' & Ef & E). apply bind_Ok in E.
    destruct E as (args' & Ea & E). ok_inj E.
    eapply related_trans; [|apply call_plain_related].
    unfold related. cbn [tokens]. apply Forall2_app; [exact (IHn _ Ef)|].
    revert args' Ea. apply (lift_related _ _ _ _ H).
    intros [pre v post] a' Ha E. cbn in E. apply bind_Ok in E.
    destruct E as (v' & Ev & [= <-]). exact (Ha _ Ev).
  - rewrite visit_Dict_plain in E. apply bind_Ok in E.
    destruct E as (elts' & Ee & E). ok_inj E.
    eapply related_trans; [|apply dict_plain_related].
    unfold related. cbn [tokens].
    revert elts' Ee. apply (lift_related _ _ _ _ H).
    intros [k colon v post|pre v post] a' Ha E; cbn in E.
    + apply bind_Ok in E. destruct E as (k' & Ek & E). apply bind_Ok in E.
      destruct E as (v' & Ev & [= <-]). destruct Ha as [Hk1 Hv1].
      cbn. apply Forall2_app; [exact (Hk1 _ Ek) | exact (Hv1 _ Ev)].
    + apply bind_Ok in E. destruct E as (v' & Ev & [= <-]). exact (Ha _ Ev).
  - rewrite visit_Collection in E. apply bind_Ok in E.
    destruct E as (elts' & Ee & [= <-]). unfold related. cbn [tokens].
    revert elts' Ee. apply (lift_related _ _ _ _ H).
    intros [v post|pre v post] a' Ha E; cbn in E;
      apply bind_Ok in E; destruct E as (v' & Ev & [= <-]); exact (Ha _ Ev).
  - rewrite visit_Subscript_plain in E. apply bind_Ok in E.
    destruct E as (v' & Ev & E). apply bind_Ok in E.
    destruct E as (sl' & Es & E). ok_inj E.
    eapply related_trans; [|apply subscript_plain_related].
    unfold related. cbn [tokens]. apply Forall2_app; [exact (IHn _ Ev)|].
    revert sl' Es. apply (lift_related _ _ _ _ H).
    intros [[star i|ps] post] a' Ha E; cbn in E.
    + apply bind_Ok in E. destruct E as (i' & Ei & [= <-]). exact (Ha _ Ei).
    + apply bind_Ok in E. destruct E as (ps' & Ep & [= <-]). cbn.
      eapply lift_related_parts; eassumption.
  - rewrite visit_SimpleString_plain in E.
    eapply related_trans; [|eapply string_plain_related; exact E].
    constructor; [apply R_refl | constructor].
  - rewrite visit_Other in E. apply bind_Ok in E.
    destruct E as (ps' & Ep & [= <-]). unfold related. cbn [tokens].
    eapply lift_related_parts; eassumption.
Qed.

End TokenRelation.

(* ================================================================== *)
(** * Values of the rewritten tokens *)

Section TokenValues.
Variable ucd : unicodedata.

Lemma excluded_false tok :
  excluded tok = false ->
  is_triple_quoted tok = false /\ has_raw (parse_prefix tok) = false /\
  has_bytes (parse_prefix tok) = false.
Proof.
  unfold excluded. intros H. apply orb_false_iff in H. destruct H as [H H3].
  apply orb_false_iff in H. tauto.
Qed.

Lemma is_single_quoted_split tok p q tail :
  _split_prefix_and_quoting tok = (p, q :: tail) ->
  is_triple_quoted tok = false -> is_single_quoted tok = (q =? SQ).
Proof.
  intros Hs Ht. unfold is_single_quoted. rewrite Ht, Hs.
  cbn [negb snd andb startswith]. rewrite andb_true_r. apply N.eqb_sym.
Qed.

Lemma is_single_quoted_single_form p v :
  str_prefix p -> Forall valid v ->
  is_single_quoted (single_form ucd p v) = (repr_quote v =? SQ).
Proof.
  intros Hp F. rewrite single_form_eq.
  apply (is_single_quoted_split _ p _ (flat_map (repr_char ucd (repr_quote v)) v ++ [repr_quote v])).
  - apply canonical_split; auto using repr_quote_is_quote.
  - apply (canonical_not_triple ucd); auto using repr_quote_is_quote, repr_pieces.
Qed.

(** The rewrite of [to_single_quoted_string] keeps the value. *)
Lemma to_single_value tok t :
  to_single_quoted_string ucd tok = Some t ->
  exists v, literal_eval ucd tok = Some (PyStr v) /\
            literal_eval ucd t = Some (PyStr v).
Proof.
  intros E.
  destruct (token_cases ucd tok) as [Hv|b Hv Hb|v Hv He|v p q tail Hv Et Hs Hp Hq Ht F].
  - rewrite to_single_undecodable in E by assumption. discriminate.
  - rewrite to_single_excluded in E; [discriminate|]. rewrite Hb. apply orb_true_r.
  - rewrite to_single_excluded in E; [discriminate|]. rewrite He. reflexivity.
  - rewrite (to_single_ordinary ucd tok p q tail v) in E by assumption.
    exists v. split; [assumption|].
    destruct (q =? SQ); [discriminate|].
    destruct (str_eqb _ _); [discriminate|]. injection E as <-.
    apply single_form_eval; assumption.
Qed.

(** The rewrite of [to_double_quoted_string] keeps a value that has no
    code point above U+FFFF. *)
Lemma to_double_value tok t :
  to_double_quoted_string ucd tok = Ok (Some t) ->
  exists v, literal_eval ucd tok = Some (PyStr v) /\
            (bmp v -> literal_eval ucd t = Some (PyStr v)).
Proof.
  intros E.
  destruct (token_cases ucd tok) as [Hv|b Hv Hb|v Hv He|v p q tail Hv Et Hs Hp Hq Ht F].
  - rewrite to_double_undecodable in E by assumption. discriminate.
  - rewrite to_double_excluded in E; [discriminate|]. rewrite Hb. apply orb_true_r.
  - rewrite to_double_excluded in E; [discriminate|]. rewrite He. reflexivity.
  - rewrite (to_double_ordinary ucd tok p q tail v) in E by assumption.
    exists v. split; [assumption|]. intros Hb.
    destruct (q =? DQ); [discriminate|]. injection E as <-.
    apply double_form_eval; assumption.
Qed.

(** The token a key position is left with. *)
Lemma requote_token_spec tok v :
  literal_eval ucd tok = Some (PyStr v) -> excluded tok = false ->
  literal_eval ucd (requote_token ucd tok) = Some (PyStr v) /\
  (is_single_quoted (requote_token ucd tok) = true \/
   has_char SQ v = true /\ has_char DQ v = false).
Proof.
  intros Hv He. apply excluded_false in He. destruct He as (Ht & Hr & Hb).
  destruct (ordinary_view ucd tok v Hv Hr) as (p & q & tail & Et & Hp & Hq & Hs & _).
  pose proof (literal_eval_valid _ _ _ Hv) as F.
  rewrite (requote_token_ordinary ucd tok v p q tail) by assumption.
  destruct (q =? SQ) eqn:Eq.
  - split; [assumption|]. left.
    rewrite (is_single_quoted_split tok p q tail) by assumption. assumption.
  - split; [apply single_form_eval; assumption|].
    rewrite is_single_quoted_single_form by assumption.
    unfold repr_quote. destruct (has_char SQ v); cbn [andb]; [|left; reflexivity].
    destruct (has_char DQ v); cbn [negb]; [left; reflexivity | right; split; reflexivity].
Qed.

End TokenValues.

(* ================================================================== *)
(** * The default pass alone *)

Section Suppressed.
Variable ucd : unicodedata.

Lemma map_id_Forall {A} (f : A -> A) l : (forall a, f a = a) -> map f l = l.
Proof. intros H. induction l; cbn; congruence. Qed.

Lemma update_nth_id {A} (f : A -> A) i l : (forall a, f a = a) -> update_nth i f l = l.
Proof.
  intros H. revert i. induction l as [|a l IH]; intros [|i]; cbn; congruence.
Qed.

Lemma requote_plain_off s : requote_plain ucd true s = s.
Proof. reflexivity. Qed.

Lemma pair_value_plain_off x : pair_value_plain ucd true x = x.
Proof.
  destruct x as [| | | |h k op [|e0 rest] cl| | |]; try reflexivity.
  cbn [pair_value_plain]. destruct (is_list_or_tuple k); [|reflexivity].
  rewrite requote_plain_off. destruct e0; reflexivity.
Qed.

Lemma apply_ctx_off c x : apply_ctx ucd true c x = x.
Proof.
  destruct c; cbn [apply_ctx]; try reflexivity.
  - destruct x as [| | |h op elts cl|h k op elts cl| | |]; try reflexivity.
    + f_equal. apply map_id_Forall. intros [k colon v post|pre v post]; reflexivity.
    + destruct (is_list_or_tuple k); [|reflexivity]. f_equal.
      apply map_id_Forall. intros [v post|pre v post]; cbn [pair_plain]; [|reflexivity].
      rewrite pair_value_plain_off. reflexivity.
  - destruct x as [| | | |h k op elts cl| | |]; try reflexivity.
    f_equal. apply map_id_Forall. intros [v post|pre v post]; reflexivity.
  - apply pair_value_plain_off.
Qed.

Lemma call_plain_off u : call_plain ucd true u = u.
Proof.
  destruct u as [| |h f op args cl| | | | |]; try reflexivity.
  cbn [call_plain]. destruct (call_rule f args) as [[i c]|]; [|reflexivity].
  cbn [apply_rule]. f_equal. apply update_nth_id.
  intros [pre v post]. cbn. rewrite apply_ctx_off. reflexivity.
Qed.

Lemma dict_plain_off u : dict_plain ucd true u = u.
Proof.
  destruct u as [| | |h op elts cl| | | |]; try reflexivity.
  cbn [dict_plain]. f_equal. apply map_id_Forall.
  intros [k colon v post|pre v post]; reflexivity.
Qed.

Lemma subscript_plain_off u : subscript_plain ucd true u = u.
Proof.
  destruct u as [| | | | |h v op sl cl| |]; try reflexivity.
  cbn [subscript_plain]. f_equal. apply map_id_Forall.
  intros [[star i|ps] post]; reflexivity.
Qed.

Variable self : QuoteKeysTransformer.

Hypothesis Hflag : _source_has_noqa self = true.

Lemma maybe_requote_off n s : _maybe_requote ucd self n s = Ok s.
Proof. unfold _maybe_requote, _maybe_requote_new. rewrite Hflag. reflexivity. Qed.

Lemma visit_parts_default ps :
  Forall (P_part (fun n => visit ucd self n = default_pass ucd n)) ps ->
  mapM (visit_part ucd self) ps =
  mapM (fun p => match p with
                 | Text t => Ok (Text t)
                 | Child c => c' <- default_pass ucd c ;; Ok (Child c')
                 end) ps.
Proof.
  intros F. eapply mapM_ext_Forall; [exact F|].
  intros [t|c] H; cbn in *; [reflexivity | rewrite H; reflexivity].
Qed.

Lemma visit_args_default args :
  Forall (P_arg (fun n => visit ucd self n = default_pass ucd n)) args ->
  mapM (visit_arg ucd self) args =
  mapM (fun a => match a with
                 | Arg pre v post => v' <- default_pass ucd v ;; Ok (Arg pre v' post)
                 end) args.
Proof.
  intros F. eapply mapM_ext_Forall; [exact F|].
  intros [pre v post] H. unfold P_arg in H. cbn in *. rewrite H. reflexivity.
Qed.

Lemma visit_dict_elements_default elts :
  Forall (P_dict_element (fun n => visit ucd self n = default_pass ucd n)) elts ->
  mapM (visit_dict_element ucd self) elts =
  mapM (fun e => match e with
                 | DictElement k colon v post =>
                     k' <- default_pass ucd k ;;
                     v' <- default_pass ucd v ;;
                     Ok (DictElement k' colon v' post)
                 | StarredDictElement pre v post =>
                     v' <- default_pass ucd v ;;
                     Ok (StarredDictElement pre v' post)
                 end) elts.
Proof.
  intros F. eapply mapM_ext_Forall; [exact F|].
  intros [k colon v post|pre v post] H; cbn in *.
  - destruct H as [-> ->]. reflexivity.
  - rewrite H. reflexivity.
Qed.

Lemma visit_elements_default elts :
  Forall (P_element (fun n => visit ucd self n = default_pass ucd n)) elts ->
  mapM (visit_element ucd self) elts =
  mapM (fun e => match e with
                 | Element v post => v' <- default_pass ucd v ;; Ok (Element v' post)
                 | StarredElement pre v post =>
                     v' <- default_pass ucd v ;; Ok (StarredElement pre v' post)
                 end) elts.
Proof.
  intros F. eapply mapM_ext_Forall; [exact F|].
  intros [v post|pre v post] H; unfold P_element in H; cbn in *; rewrite H;
    reflexivity.
Qed.

Lemma visit_subscript_elements_default sl :
  Forall (P_subscript_element (fun n => visit ucd self n = default_pass ucd n)) sl ->
  mapM (visit_subscript_element ucd self) sl =
  mapM (fun s => match s with
                 | SubscriptElement (Index star i) post =>
                     i' <- default_pass ucd i ;;
                     Ok (SubscriptElement (Index star i') post)
                 | SubscriptElement (Slice ps) post =>
                     ps' <- mapM (fun p => match p with
                                           | Text t => Ok (Text t)
                                           | Child c =>
                                               c' <- default_pass ucd c ;;
                                               Ok (Child c')
                                           end) ps ;;
                     Ok (SubscriptElement (Slice ps') post)
                 end) sl.
Proof.
  intros F. eapply mapM_ext_Forall; [exact F|].
  intros [[star i|ps] post] H; cbn in H; cbn [visit_subscript_element].
  - rewrite H. reflexivity.
  - rewrite (visit_parts_default ps H). reflexivity.
Qed.

(** With the file-wide annotation the traversal is the default pass. *)
Lemma visit_default n : visit ucd self n = default_pass ucd n.
Proof.
  induction n using node_induction.
  - reflexivity.
  - rewrite visit_Attribute, IHn. reflexivity.
  - rewrite visit_Call_plain, Hflag, IHn, (visit_args_default args H).
    cbn [default_pass].
    destruct (default_pass ucd n) as [f'|]; [|reflexivity]. cbn [bind].
    destruct (mapM _ args) as [args'|]; [|reflexivity]. cbn [bind].
    rewrite call_plain_off. reflexivity.
  - rewrite visit_Dict_plain, Hflag, (visit_dict_elements_default elts H).
    cbn [default_pass].
    destruct (mapM _ elts) as [elts'|]; [|reflexivity]. cbn [bind].
    rewrite dict_plain_off. reflexivity.
  - rewrite visit_Collection, (visit_elements_default elts H). reflexivity.
  - rewrite visit_Subscript_plain, Hflag, IHn, (visit_subscript_elements_default sl H).
    cbn [default_pass].
    destruct (default_pass ucd n) as [v'|]; [|reflexivity]. cbn [bind].
    destruct (mapM _ sl) as [sl'|]; [|reflexivity]. cbn [bind].
    rewrite subscript_plain_off. reflexivity.
  - reflexivity.
  - rewrite visit_Other, (visit_parts_default ps H). reflexivity.
Qed.

End Suppressed.

(* ================================================================== *)
(** * Key positions *)

Section KeyPositions.
Variable ucd : unicodedata.
Variable self : QuoteKeysTransformer.

Hypothesis Hflag : _source_has_noqa self = false.

(** [_maybe_requote] on a string literal when no opt-out applies. *)
Lemma maybe_requote_new_string n hs tok :
  _has_noqa_comment self n = Ok false ->
  _has_noqa_comment self (SimpleString hs tok) = Ok false ->
  _maybe_requote_new ucd self n (SimpleString hs tok) =
  Ok (option_map new_SimpleString (to_single_quoted_string ucd tok)).
Proof.
  intros H1 H2. unfold _maybe_requote_new. rewrite Hflag, H1. cbn [bind].
  rewrite H2. reflexivity.
Qed.

Lemma maybe_requote_string n hs tok :
  _has_noqa_comment self n = Ok false ->
  _has_noqa_comment self (SimpleString hs tok) = Ok false ->
  exists hs', _maybe_requote ucd self n (SimpleString hs tok) =
              Ok (SimpleString hs' (requote_token ucd tok)).
Proof.
  intros H1 H2. unfold _maybe_requote.
  rewrite maybe_requote_new_string by assumption. cbn [bind]. unfold requote_token.
  destruct (to_single_quoted_string ucd tok); cbn [option_map]; eexists; reflexivity.
Qed.


End KeyPositions.

Section DictKeys.
Variable ucd : unicodedata.
Variable self : QuoteKeysTransformer.

Hypothesis Hflag : _source_has_noqa self = false.

Lemma maybe_requote_new_free n s :
  _has_noqa_comment self n = Ok false -> _has_noqa_comment self s = Ok false ->
  _maybe_requote_new ucd self n s = Ok (requote_new_plain ucd false s).
Proof.
  intros H1 H2. unfold _maybe_requote_new, requote_new_plain.
  rewrite Hflag, H1. cbn [bind]. rewrite H2. cbn [bind]. destruct s; reflexivity.
Qed.


Lemma dict_key_plain_forced e : key_forced ucd e (dict_key_plain ucd false e).
Proof.
  destruct e as [k colon val post|pre val post]; [|reflexivity].
  destruct k as [| | | | | |hs tok|]; try reflexivity.
  cbn [key_forced dict_key_plain]. unfold requote_plain, requote_new_plain.
  assert (E : exists hs',
    match option_map new_SimpleString (to_single_quoted_string ucd tok) with
    | Some new_s => new_s
    | None => SimpleString hs tok
    end = SimpleString hs' (requote_token ucd tok)).
  { unfold requote_token. destruct (to_single_quoted_string ucd tok);
      eexists; reflexivity. }
  destruct E as [hs' E]. rewrite E. exists hs', (requote_token ucd tok).
  split; [reflexivity|]. intros v Hv He. apply requote_token_spec; assumption.
Qed.


End DictKeys.

(* ================================================================== *)
(** * The token of a requoted literal *)

Lemma single_form_split ucd p v :
  str_prefix p ->
  _split_prefix_and_quoting (single_form ucd p v) =
  (p, repr_quote v :: flat_map (repr_char ucd (repr_quote v)) v ++ [repr_quote v]).
Proof.
  intros Hp. rewrite single_form_eq.
  apply (canonical_split p (repr_quote v) _ v Hp). apply repr_quote_is_quote.
Qed.

Lemma excluded_str_prefix tok p rest :
  _split_prefix_and_quoting tok = (p, rest) -> str_prefix p ->
  is_triple_quoted tok = false -> excluded tok = false.
Proof.
  intros Hs Hp Ht. unfold excluded.
  rewrite Ht, (parse_prefix_str tok p rest Hs Hp). reflexivity.
Qed.

Section Exact.
Variable ucd : unicodedata.






Variable self : QuoteKeysTransformer.
Hypothesis Hflag : _source_has_noqa self = false.


End Exact.

(* ================================================================== *)
(** * The claims of the specification *)

(** ** C1 *)

(** C1: the transformation does not complete on every valid input: on the
    module [x = b"a"] it raises TypeError. *)
Theorem transform_code_raises_on_bytes ucd :
  code (assignment (py "b`a`")) = py "x = b`a`" /\
  transform_code ucd (assignment (py "b`a`")) = Raise TypeError.
Proof. split; reflexivity. Qed.

(** ** C2 *)

(** C2: [to_double_quoted_string] rewrites the single-quoted literal of
    the character U+1F600 to a token of another value, the two surrogates
    U+D83D U+DE00. *)
Theorem to_double_quoted_string_changes_value ucd :
  literal_eval ucd astral_token = Some (PyStr [128512]) /\
  to_double_quoted_string ucd astral_token = Ok (Some astral_token_dumped) /\
  literal_eval ucd astral_token_dumped = Some (PyStr [55357; 56832]).
Proof. repeat split; reflexivity. Qed.

(** ** C3 *)

(** C3, amended: when every string literal of the module decodes to a value
    without code points above U+FFFF, and the output holds the file-wide
    annotation text exactly if the input does, the transformation of the
    output gives the same text again and reports no change.  [x] is the
    tree the traversal returns and [m2] the module of its text: the nodes
    of [x], each with a position entry of its own. *)
Theorem transform_code_idempotent ucd m x m2 :
  bmp_tree ucd m ->
  visit ucd (__init__ (code m)) m = Ok x ->
  _source_has_noqa (__init__ (code x)) = _source_has_noqa (__init__ (code m)) ->
  clone m2 = clone x ->
  transform_code ucd m = Ok (code x, negb (str_eqb (code x) (code m))) /\
  transform_code ucd m2 = Ok (code x, false).
Proof.
  intros Hb E Hflag Hm2. split; [apply transform_code_visit; exact E|].
  pose proof (code_same_tree _ _ Hm2) as Hc.
  assert (E2 : visit ucd (__init__ (code m2)) m2 = Ok x).
  { rewrite <- visit_clone, Hm2, visit_clone, Hc.
    rewrite (visit_flag ucd (__init__ (code x)) (__init__ (code m)) Hflag).
    eapply visit_idem; eassumption. }
  rewrite (transform_code_visit _ _ _ E2), Hc, str_eqb_refl. reflexivity.
Qed.

(** [hasattr(obj, "key")] and its output [hasattr(obj, 'key')]. *)
Lemma transform_code_idempotent_witness :
  transform_code ucd_ascii (module1 (hasattr_call (py "`key`")) [])
    = Ok (py "hasattr(obj, 'key')", true) /\
  transform_code ucd_ascii (module1 (hasattr_call (py "'key'")) [])
    = Ok (py "hasattr(obj, 'key')", false).
Proof.
  assert (Hb : bmp_tree ucd_ascii (module1 (hasattr_call (py "`key`")) [])).
  { constructor; [|constructor]. intros v H. vm_compute in H.
    injection H as <-. repeat constructor. }
  exact (transform_code_idempotent ucd_ascii
           (module1 (hasattr_call (py "`key`")) [])
           (clone (module1 (hasattr_call (py "'key'")) []))
           (module1 (hasattr_call (py "'key'")) [])
           Hb eq_refl eq_refl eq_refl).
Defined.

(** The second run differs from the first: [d["#\x20noqa: quote-keys"]]
    becomes [d['# noqa: quote-keys']], which now holds the file-wide
    annotation text and becomes [d["# noqa: quote-keys"]]. *)
Lemma transform_code_not_idempotent :
  code (module1 (subscript (py "`#\x20noqa: quote-keys`")) [])
    = py "d[`#\x20noqa: quote-keys`]" /\
  code (module1 (subscript (py "'# noqa: quote-keys'")) [])
    = py "d['# noqa: quote-keys']" /\
  forall ucd,
    transform_code ucd (module1 (subscript (py "`#\x20noqa: quote-keys`")) [])
      = Ok (py "d['# noqa: quote-keys']", true) /\
    transform_code ucd (module1 (subscript (py "'# noqa: quote-keys'")) [])
      = Ok (py "d[`# noqa: quote-keys`]", true).
Proof. repeat split; reflexivity. Qed.

(** ** C4 *)

Lemma default_token_excluded ucd tok d :
  excluded tok = true -> default_token ucd tok = Ok d -> d = tok.
Proof.
  intros He. unfold default_token.
  destruct (literal_eval ucd tok) as [[v|b]|]; [| discriminate | congruence].
  unfold requote_token.
  rewrite (to_single_excluded ucd tok He), (to_double_excluded ucd tok He).
  destruct (_ && _); congruence.
Qed.

(** C4: a byte-prefixed literal does not appear unmodified in the output:
    both conversions return None on the token of [x = b"a"], which is
    excluded from them, and the transformation raises TypeError and has no
    output. *)
Theorem bytes_literal_not_kept ucd :
  code (assignment (py "b`a`")) = py "x = b`a`" /\
  excluded (py "b`a`") = true /\
  to_single_quoted_string ucd (py "b`a`") = None /\
  to_double_quoted_string ucd (py "b`a`") = Ok None /\
  transform_code ucd (assignment (py "b`a`")) = Raise TypeError.
Proof. repeat split; reflexivity. Qed.

(** ** C5 *)

(** C5: when the text "# noqa: quote-keys" occurs anywhere in the source,
    [_maybe_requote] hands back every literal it is given, and the
    transformation is the default pass alone: the output is the text of
    the tree that the traversal with [leave_SimpleString] as its only
    method produces. *)
Theorem file_annotation_suppresses_override ucd m :
  contains (py "# noqa: quote-keys") (code m) = true ->
  (forall n s, _maybe_requote ucd (__init__ (code m)) n s = Ok s) /\
  transform_code ucd m =
  (x <- default_pass ucd m ;; Ok (code x, negb (str_eqb (code x) (code m)))).
Proof.
  intros H. split.
  - intros n s. apply maybe_requote_off. exact H.
  - unfold transform_code. rewrite visit_default by exact H. reflexivity.
Qed.

(** [hasattr(obj, "key")  # noqa: quote-keys], of the repository's tests. *)
Lemma file_annotation_suppresses_override_witness :
  (forall n s,
     _maybe_requote ucd_ascii
       (__init__ (py "hasattr(obj, `key`)  # noqa: quote-keys")) n s = Ok s) /\
  transform_code ucd_ascii
    (module1 (hasattr_call (py "`key`")) (py "  # noqa: quote-keys")) =
  Ok (py "hasattr(obj, `key`)  # noqa: quote-keys", false).
Proof.
  exact (file_annotation_suppresses_override ucd_ascii
           (module1 (hasattr_call (py "`key`")) (py "  # noqa: quote-keys"))
           eq_refl).
Defined.

(** ** C6 *)

(** C6: a line that carries the opt-out tag does not exempt the literal on
    it: in [hasattr(obj, "key")  #noqa: quote-keys] the file-wide text is
    absent, the literal of the module ends on a line with the tag, and the
    literal is requoted all the same. *)
Theorem inline_tag_not_honoured ucd :
  code inline_tag_module = py "hasattr(obj, `key`)  #noqa: quote-keys" /\
  _source_has_noqa (__init__ (code inline_tag_module)) = false /\
  _has_noqa_comment (__init__ (code inline_tag_module))
    (SimpleString (at_ 1 13 18) (py "`key`")) = Ok true /\
  transform_code ucd inline_tag_module =
    Ok (py "hasattr(obj, 'key')  #noqa: quote-keys", true).
Proof. repeat split; reflexivity. Qed.

(** ** C7 *)

(** C7: the default pass does not follow its rule on a bytes literal: the
    value of [b"a"] holds no quote, the double-quoting attempt would leave
    the token alone, and [leave_SimpleString] raises TypeError. *)
Theorem leave_SimpleString_raises_on_bytes ucd h :
  literal_eval ucd (py "b`a`") = Some (PyBytes [97]) /\
  to_double_quoted_string ucd (py "b`a`") = Ok None /\
  leave_SimpleString ucd (SimpleString h (py "b`a`")) = Raise TypeError.
Proof. repeat split; reflexivity. Qed.

(** ** C8 *)




(** ** C9 *)




(** ** C10 *)

(** C10: the tag inside the literal's own text does not suppress the
    override: [d.get("quote-keys")] has the tag on the line its call and
    its literal end on, and is requoted. *)
Theorem tag_inside_literal_not_honoured ucd :
  code tag_in_literal_module = py "d.get(`quote-keys`)" /\
  _has_noqa_comment (__init__ (code tag_in_literal_module))
    (get_call (py "`quote-keys`")) = Ok true /\
  _has_noqa_comment (__init__ (code tag_in_literal_module))
    (SimpleString (at_ 1 6 18) (py "`quote-keys`")) = Ok true /\
  transform_code ucd tag_in_literal_module = Ok (py "d.get('quote-keys')", true).
Proof. repeat split; reflexivity. Qed.

(* ================================================================== *)
(** * Further properties *)

(** X1: a token that [to_single_quoted_string] rewrites is a str literal,
    and the new token evaluates to the same str. *)
Theorem to_single_quoted_string_keeps_value ucd tok t :
  to_single_quoted_string ucd tok = Some t ->
  exists v, literal_eval ucd tok = Some (PyStr v) /\
            literal_eval ucd t = Some (PyStr v).
Proof. apply to_single_value. Qed.

Lemma to_single_quoted_string_keeps_value_witness :
  exists v, literal_eval ucd_ascii (py "`a\`b`") = Some (PyStr v) /\
            literal_eval ucd_ascii (py "'a`b'") = Some (PyStr v).
Proof.
  exact (to_single_quoted_string_keeps_value ucd_ascii
           (py "`a\`b`") (py "'a`b'") eq_refl).
Defined.

(** X2: a token that [to_double_quoted_string] rewrites is a str literal,
    and the new token evaluates to the same str when that holds no code
    point above U+FFFF. *)
Theorem to_double_quoted_string_keeps_bmp_value ucd tok t :
  to_double_quoted_string ucd tok = Ok (Some t) ->
  exists v, literal_eval ucd tok = Some (PyStr v) /\
            (bmp v -> literal_eval ucd t = Some (PyStr v)).
Proof. apply to_double_value. Qed.

Lemma to_double_quoted_string_keeps_bmp_value_witness :
  exists v, literal_eval ucd_ascii (py "'it\'s'") = Some (PyStr v) /\
            (bmp v -> literal_eval ucd_ascii (py "`it's`") = Some (PyStr v)).
Proof.
  exact (to_double_quoted_string_keeps_bmp_value ucd_ascii
           (py "'it\'s'") (py "`it's`") eq_refl).
Defined.

(** X3: whenever the traversal returns, every string literal whose value
    cannot be determined stands unmodified at its place in the result. *)
Theorem undecodable_literals_unchanged ucd self n x :
  visit ucd self n = Ok x ->
  Forall2 (fun t t' => literal_eval ucd t = None -> t' = t) (tokens n) (tokens x).
Proof.
  intros Ev.
  refine (visit_tokens ucd self
            (fun t t' => literal_eval ucd t = None -> t' = t) _ _ _ _ n x Ev).
  - reflexivity.
  - intros t1 t2 t3 H1 H2 He. pose proof (H1 He) as E1. subst t2. exact (H2 He).
  - intros t d Hd He. unfold default_token in Hd. rewrite He in Hd. congruence.
  - intros t k Hk He. rewrite (to_single_undecodable ucd t He) in Hk. discriminate.
Qed.

(** [d["\x4"]], an escape that is cut short. *)
Lemma undecodable_literals_unchanged_witness :
  literal_eval ucd_ascii (py "`\x4`") = None /\
  Forall2 (fun t t' => literal_eval ucd_ascii t = None -> t' = t)
    [py "`\x4`"] [py "`\x4`"].
Proof.
  split; [reflexivity|].
  exact (undecodable_literals_unchanged ucd_ascii (__init__ (py "d[`\x4`]"))
           (module1 (subscript (py "`\x4`")) [])
           (clone (module1 (subscript (py "`\x4`")) [])) eq_refl).
Defined.

(** X4: the traversal reads neither the position entries of the module
    nor the lines of the source: it gives the same result on a copy of
    the module without any entry, for a transformer without lines. *)
Theorem positions_never_read ucd self n :
  visit ucd self (clone n) =
  visit ucd {| _lines := []; _source_has_noqa := _source_has_noqa self |} n.
Proof. rewrite visit_clone. apply visit_flag. reflexivity. Qed.

(* ------------------------------------------------------------------ *)
(** ** The quote conversions *)

Lemma json_char_head c : exists x l, json_char c = x :: l /\ x <> DQ.
Proof.
  unfold json_char.
  destruct (c =? DQ) eqn:E1; [eexists _, _; split; [reflexivity | discriminate]|].
  destruct (c =? BACKSLASH); [eexists _, _; split; [reflexivity | discriminate]|].
  destruct (c =? 10); [eexists _, _; split; [reflexivity | discriminate]|].
  destruct (c =? 13); [eexists _, _; split; [reflexivity | discriminate]|].
  destruct (c =? 9); [eexists _, _; split; [reflexivity | discriminate]|].
  destruct (c =? 12); [eexists _, _; split; [reflexivity | discriminate]|].
  destruct (c =? 8); [eexists _, _; split; [reflexivity | discriminate]|].
  destruct ((32 <=? c) && (c <=? 126)).
  { eexists _, _; split; [reflexivity|]. apply N.eqb_neq. exact E1. }
  destruct (c <? 65536); eexists _, _; (split; [reflexivity | discriminate]).
Qed.

Lemma double_form_split p v :
  str_prefix p ->
  _split_prefix_and_quoting (double_form p v) = (p, DQ :: flat_map json_char v ++ [DQ]).
Proof. intros Hp. apply (canonical_split p DQ json_char v Hp). reflexivity. Qed.

Lemma double_form_not_triple p v :
  str_prefix p -> is_triple_quoted (double_form p v) = false.
Proof.
  intros Hp. rewrite (is_triple_quoted_split _ _ _ (double_form_split p v Hp)).
  destruct v as [|c v]; [reflexivity|].
  destruct (json_char_head c) as (x & l & E & Hx).
  cbn [flat_map]. rewrite E.
  apply N.eqb_neq in Hx. rewrite N.eqb_sym in Hx.
  cbn [app startswith]. rewrite Hx. reflexivity.
Qed.

Lemma to_double_double_form_any ucd p v :
  str_prefix p -> to_double_quoted_string ucd (double_form p v) = Ok None.
Proof.
  intros Hp. unfold to_double_quoted_string.
  rewrite (double_form_not_triple p v Hp).
  rewrite (parse_prefix_str _ _ _ (double_form_split p v Hp) Hp). cbn [has_raw has_bytes orb].
  rewrite (double_form_split p v Hp). cbn [snd].
  pose proof (double_form_not_triple p v Hp) as T.
  rewrite (is_triple_quoted_split _ _ _ (double_form_split p v Hp)) in T.
  apply orb_false_iff in T. destruct T as [_ T]. rewrite T.
  reflexivity.
Qed.

Lemma repr_quote_cases v :
  repr_quote v = SQ \/ (repr_quote v = DQ /\ has_char SQ v = true /\ has_char DQ v = false).
Proof.
  unfold repr_quote.
  destruct (has_char SQ v); destruct (has_char DQ v); cbn; auto.
Qed.

(** X5: [_split_prefix_and_quoting] cuts a text at its first quote
    character: the two parts make up the text, the prefix holds no quote,
    the rest is empty or starts with one, and no other pair does so. *)
Theorem split_prefix_and_quoting_iff text p r :
  _split_prefix_and_quoting text = (p, r) <->
  text = p ++ r /\
  forallb (fun c => negb (is_quote c)) p = true /\
  match r with [] => True | c :: _ => is_quote c = true end.
Proof.
  split.
  - intros E. pose proof (split_spec text) as H. rewrite E in H. exact H.
  - intros (-> & Hp & Hr). apply split_prefix_app; assumption.
Qed.

Lemma to_single_result ucd tok t :
  to_single_quoted_string ucd tok = Some t ->
  exists p tail v,
    _split_prefix_and_quoting tok = (p, DQ :: tail) /\
    str_prefix p /\
    is_triple_quoted tok = false /\
    literal_eval ucd tok = Some (PyStr v) /\ Forall valid v /\
    t = single_form ucd p v /\ t <> tok.
Proof.
  intros E.
  destruct (token_cases ucd tok) as [Hu|bs Hb1 Hb2|v Hv He|v p q tail Hv Et Hs Hp Hq Ht F].
  - rewrite (to_single_undecodable ucd tok Hu) in E. discriminate.
  - rewrite to_single_excluded in E; [discriminate|].
    rewrite Hb2. apply orb_true_r.
  - rewrite to_single_excluded in E; [discriminate|].
    rewrite He. reflexivity.
  - rewrite (to_single_ordinary ucd tok p q tail v Hs Hp Hq Ht Hv) in E.
    destruct (q =? SQ) eqn:Eq; [discriminate|].
    destruct (str_eqb (single_form ucd p v) tok) eqn:Es; [discriminate|].
    injection E as <-.
    destruct (is_quote_cases q Hq) as [->| ->]; [discriminate|].
    exists p, tail, v. repeat split; try assumption.
    apply str_eqb_neq. exact Es.
Qed.

(** X6: a token that [to_single_quoted_string] rewrites is a double-quoted
    str literal, not triple-quoted, with the prefix u, U or none; the new
    token is that prefix before [repr] of the value, differs from the old
    one, has the same prefix, is not triple-quoted, and is single-quoted
    unless the value holds a single quote and no double quote. *)
Theorem to_single_quoted_string_result ucd tok t :
  to_single_quoted_string ucd tok = Some t ->
  exists p tail v,
    _split_prefix_and_quoting tok = (p, DQ :: tail) /\
    (p = [] \/ p = py "u" \/ p = py "U") /\
    is_triple_quoted tok = false /\
    literal_eval ucd tok = Some (PyStr v) /\
    t = p ++ repr ucd (PyStr v) /\ t <> tok /\
    fst (_split_prefix_and_quoting t) = p /\
    is_triple_quoted t = false /\
    (is_single_quoted t = true \/ has_char SQ v = true /\ has_char DQ v = false).
Proof.
  intros E. destruct (to_single_result ucd tok t E)
    as (p & tail & v & Hs & Hp & Ht & Hv & F & -> & Hne).
  exists p, tail, v. repeat split; try assumption.
  - rewrite (single_form_split ucd p v Hp). reflexivity.
  - rewrite single_form_eq.
    apply (canonical_not_triple ucd p (repr_quote v) _ v Hp (repr_quote_is_quote v)).
    apply repr_pieces. exact F.
  - rewrite (is_single_quoted_single_form ucd p v Hp F).
    destruct (repr_quote_cases v) as [->|(_ & H1 & H2)]; [left; reflexivity | right; auto].
Qed.

(** [u"it\'s"] becomes [u"it's"]: the escape goes, the double quotes
    stay. *)
Lemma to_single_quoted_string_result_witness :
  exists p tail v,
    _split_prefix_and_quoting (py "u`it\'s`") = (p, DQ :: tail) /\
    (p = [] \/ p = py "u" \/ p = py "U") /\
    is_triple_quoted (py "u`it\'s`") = false /\
    literal_eval ucd_ascii (py "u`it\'s`") = Some (PyStr v) /\
    py "u`it's`" = p ++ repr ucd_ascii (PyStr v) /\
    py "u`it's`" <> py "u`it\'s`" /\
    fst (_split_prefix_and_quoting (py "u`it's`")) = p /\
    is_triple_quoted (py "u`it's`") = false /\
    (is_single_quoted (py "u`it's`") = true \/
     has_char SQ v = true /\ has_char DQ v = false).
Proof.
  exact (to_single_quoted_string_result ucd_ascii (py "u`it\'s`") (py "u`it's`") eq_refl).
Defined.

(** X7: [to_single_quoted_string] returns None on every token it has
    produced. *)
Theorem to_single_quoted_string_idempotent ucd tok t :
  to_single_quoted_string ucd tok = Some t ->
  to_single_quoted_string ucd t = None.
Proof. apply to_single_requoted. Qed.

Lemma to_single_quoted_string_idempotent_witness :
  to_single_quoted_string ucd_ascii (py "'a`b'") = None.
Proof.
  exact (to_single_quoted_string_idempotent ucd_ascii (py "`a\`b`") (py "'a`b'") eq_refl).
Defined.

Lemma to_double_result ucd tok :
  to_double_quoted_string ucd tok = Ok None \/
  exists p tail v,
    to_double_quoted_string ucd tok = Ok (Some (double_form p v)) /\
    _split_prefix_and_quoting tok = (p, SQ :: tail) /\
    str_prefix p /\
    is_triple_quoted tok = false /\
    literal_eval ucd tok = Some (PyStr v) /\
    double_form p v <> tok.
Proof.
  destruct (token_cases ucd tok) as [Hu|bs Hb1 Hb2|v Hv He|v p q tail Hv Et Hs Hp Hq Ht F].
  - left. apply to_double_undecodable. exact Hu.
  - left. apply to_double_excluded. rewrite Hb2. apply orb_true_r.
  - left. apply to_double_excluded. rewrite He. reflexivity.
  - pose proof (to_double_ordinary ucd tok p q tail v Et Hs Hp Hq Ht Hv) as E.
    destruct (q =? DQ) eqn:Eq; [left; exact E|]. right.
    destruct (is_quote_cases q Hq) as [->| ->]; [|discriminate].
    exists p, tail, v. repeat split; try assumption.
    rewrite Et. unfold double_form. apply app_cons_neq. discriminate.
Qed.

(** X8: [to_double_quoted_string] never raises.  A token it rewrites is
    a single-quoted str literal with the prefix u, U or none; the new token
    is that prefix before [json.dumps] of the value, differs from the old
    one, has the same prefix, is double-quoted, and is left alone by a
    second call. *)
Theorem to_double_quoted_string_result ucd tok :
  to_double_quoted_string ucd tok = Ok None \/
  exists p tail v j t,
    to_double_quoted_string ucd tok = Ok (Some t) /\
    _split_prefix_and_quoting tok = (p, SQ :: tail) /\
    (p = [] \/ p = py "u" \/ p = py "U") /\
    is_triple_quoted tok = false /\
    literal_eval ucd tok = Some (PyStr v) /\
    json_dumps (PyStr v) = Ok j /\
    t = p ++ j /\ t <> tok /\
    fst (_split_prefix_and_quoting t) = p /\
    is_triple_quoted t = false /\
    is_single_quoted t = false /\
    to_double_quoted_string ucd t = Ok None.
Proof.
  destruct (to_double_result ucd tok) as [E|(p & tail & v & E & Hs & Hp & Ht & Hv & Hne)];
    [left; exact E | right].
  exists p, tail, v, (DQ :: flat_map json_char v ++ [DQ]), (double_form p v).
  repeat split; try assumption.
  - rewrite (double_form_split p v Hp). reflexivity.
  - apply double_form_not_triple. exact Hp.
  - rewrite (is_single_quoted_split _ _ _ _ (double_form_split p v Hp)
               (double_form_not_triple p v Hp)). reflexivity.
  - apply to_double_double_form_any. exact Hp.
Qed.

(** X9: the two conversions undo each other on what they produce: a
    single-quoted token that [to_single_quoted_string] has made of a
    literal without code points above U+FFFF is rewritten by
    [to_double_quoted_string] to a token that [to_single_quoted_string]
    rewrites to the single-quoted one again, and that
    [to_double_quoted_string] leaves alone. *)
Theorem conversions_round_trip ucd tok t :
  to_single_quoted_string ucd tok = Some t ->
  is_single_quoted t = true ->
  bmp_token ucd tok ->
  exists t2,
    to_double_quoted_string ucd t = Ok (Some t2) /\
    to_single_quoted_string ucd t2 = Some t /\
    to_double_quoted_string ucd t2 = Ok None.
Proof.
  intros E Hq Hb.
  destruct (to_single_result ucd tok t E)
    as (p & tail & v & Hs & Hp & Ht & Hv & F & -> & Hne).
  pose proof (Hb v Hv) as Hbv.
  rewrite (is_single_quoted_single_form ucd p v Hp F) in Hq.
  exists (double_form p v). split; [|split].
  - rewrite (to_double_single_form ucd p v Hp F).
    apply N.eqb_eq in Hq. rewrite Hq. reflexivity.
  - rewrite (to_single_double_form ucd p v Hp Hbv).
    destruct (str_eqb (single_form ucd p v) (double_form p v)) eqn:Es; [|reflexivity].
    apply str_eqb_eq in Es. exfalso. revert Es.
    rewrite single_form_eq. unfold double_form. apply app_cons_neq.
    apply N.eqb_eq in Hq. rewrite Hq. discriminate.
  - apply to_double_double_form_any. exact Hp.
Qed.

(** A double-quoted literal of the value a, double quote, b: it becomes
    single-quoted, then double-quoted with the inner quote escaped, then
    the single-quoted token again. *)
Lemma conversions_round_trip_witness :
  exists t2,
    to_double_quoted_string ucd_ascii (py "'a`b'") = Ok (Some t2) /\
    to_single_quoted_string ucd_ascii t2 = Some (py "'a`b'") /\
    to_double_quoted_string ucd_ascii t2 = Ok None.
Proof.
  assert (Hb : bmp_token ucd_ascii (py "`a\x22b`")).
  { intros v H. vm_compute in H. injection H as <-. repeat constructor. }
  exact (conversions_round_trip ucd_ascii (py "`a\x22b`") (py "'a`b'")
           eq_refl eq_refl Hb).
Defined.

(* ------------------------------------------------------------------ *)
(** ** The default rule *)

(** On a literal that is no bytes literal [leave_SimpleString] does not
    raise: it makes the single-quoting attempt when the value holds a
    double quote and no single quote, the double-quoting attempt otherwise
    and when the token cannot be evaluated. *)
Lemma leave_SimpleString_rule ucd h tok :
  match literal_eval ucd tok with
  | Some (PyBytes _) =>
      leave_SimpleString ucd (SimpleString h tok) = Raise TypeError
  | Some (PyStr v) =>
      if has_char DQ v && negb (has_char SQ v)
      then leave_SimpleString ucd (SimpleString h tok) =
           Ok (or_node (to_single_quoted_string ucd tok) (SimpleString h tok))
      else exists r, to_double_quoted_string ucd tok = Ok r /\
             leave_SimpleString ucd (SimpleString h tok) =
             Ok (or_node r (SimpleString h tok))
  | None =>
      exists r, to_double_quoted_string ucd tok = Ok r /\
        leave_SimpleString ucd (SimpleString h tok) =
        Ok (or_node r (SimpleString h tok))
  end.
Proof.
  unfold leave_SimpleString.
  destruct (literal_eval ucd tok) as [[v|bs]|] eqn:Hv.
  - cbn [py_in bind]. rewrite !contains_single.
    destruct (has_char DQ v && negb (has_char SQ v)); [reflexivity|].
    destruct (to_double_cases ucd tok) as [E|(t & E & _)]; rewrite E;
      eexists; split; reflexivity.
  - reflexivity.
  - rewrite to_double_undecodable by assumption. eexists. split; reflexivity.
Qed.

Lemma default_token_quoting ucd tok v :
  literal_eval ucd tok = Some (PyStr v) -> excluded tok = false ->
  exists d, default_token ucd tok = Ok d /\
    fst (_split_prefix_and_quoting d) = fst (_split_prefix_and_quoting tok) /\
    excluded d = false /\
    is_single_quoted d = has_char DQ v && negb (has_char SQ v) /\
    (bmp v -> literal_eval ucd d = Some (PyStr v)).
Proof.
  intros Hv He.
  destruct (excluded_false tok He) as (Ht & Hr & Hb).
  destruct (ordinary_view ucd tok v Hv Hr) as (p & q & tail & Et & Hp & Hq & Hs & _).
  pose proof (literal_eval_valid ucd tok v Hv) as F.
  rewrite (default_token_ordinary ucd tok v p q tail Hv Et Hs Hp Hq Ht).
  rewrite Hs. cbn [fst].
  destruct (has_char DQ v && negb (has_char SQ v)) eqn:Ek.
  - destruct (q =? SQ) eqn:Eq; eexists; (split; [reflexivity|]).
    + rewrite Hs. repeat split; auto.
      rewrite (is_single_quoted_split tok p q tail Hs Ht). exact Eq.
    + rewrite (single_form_split ucd p v Hp). repeat split.
      * eapply excluded_str_prefix; [apply single_form_split; exact Hp | exact Hp |].
        rewrite single_form_eq.
        apply (canonical_not_triple ucd p (repr_quote v) _ v Hp (repr_quote_is_quote v)).
        apply repr_pieces. exact F.
      * rewrite (is_single_quoted_single_form ucd p v Hp F).
        rewrite (repr_quote_key v Ek). reflexivity.
      * intros _. apply single_form_eval; assumption.
  - destruct (q =? DQ) eqn:Eq; eexists; (split; [reflexivity|]).
    + rewrite Hs. repeat split; auto.
      rewrite (is_single_quoted_split tok p q tail Hs Ht).
      apply N.eqb_eq in Eq. subst q. reflexivity.
    + rewrite (double_form_split p v Hp). repeat split.
      * eapply excluded_str_prefix; [apply double_form_split; exact Hp | exact Hp |].
        apply double_form_not_triple. exact Hp.
      * rewrite (is_single_quoted_split _ _ _ _ (double_form_split p v Hp)
                   (double_form_not_triple p v Hp)). reflexivity.
      * intros Hbmp. apply double_form_eval; assumption.
Qed.

(** X10: on an ordinary str literal [leave_SimpleString] returns a literal
    with the same prefix, again an ordinary one (not triple-quoted, no raw
    or bytes prefix), that is single-quoted exactly when the value holds a
    double quote and no single quote, and that has the same value when this
    holds no code point above U+FFFF. *)
Theorem leave_SimpleString_quoting ucd h tok v :
  literal_eval ucd tok = Some (PyStr v) -> excluded tok = false ->
  exists h' d,
    leave_SimpleString ucd (SimpleString h tok) = Ok (SimpleString h' d) /\
    fst (_split_prefix_and_quoting d) = fst (_split_prefix_and_quoting tok) /\
    excluded d = false /\
    is_single_quoted d = has_char DQ v && negb (has_char SQ v) /\
    (bmp v -> literal_eval ucd d = Some (PyStr v)).
Proof.
  intros Hv He.
  destruct (default_token_quoting ucd tok v Hv He) as (d & Ed & H).
  rewrite leave_SimpleString_spec. cbn [string_plain]. rewrite Ed. cbn [bind].
  destruct (str_eqb d tok) eqn:E.
  - apply str_eqb_eq in E. subst d. exists h, tok. split; [reflexivity | exact H].
  - exists fresh, d. split; [reflexivity | exact H].
Qed.

(** ['say \'hi\' "now"'], with both kinds of quote in its value. *)
Lemma leave_SimpleString_quoting_witness :
  exists h' d,
    leave_SimpleString ucd_ascii (SimpleString fresh (py "'say \'hi\' `now`'"))
      = Ok (SimpleString h' d) /\
    fst (_split_prefix_and_quoting d) =
      fst (_split_prefix_and_quoting (py "'say \'hi\' `now`'")) /\
    excluded d = false /\
    is_single_quoted d =
      has_char DQ (py "say 'hi' `now`") && negb (has_char SQ (py "say 'hi' `now`")) /\
    (bmp (py "say 'hi' `now`") ->
     literal_eval ucd_ascii d = Some (PyStr (py "say 'hi' `now`"))).
Proof.
  exact (leave_SimpleString_quoting ucd_ascii fresh (py "'say \'hi\' `now`'")
           (py "say 'hi' `now`") eq_refl eq_refl).
Defined.

(** X11: [leave_SimpleString] is idempotent on a literal without code
    points above U+FFFF: it returns the literal it has returned. *)
Theorem leave_SimpleString_idempotent ucd h tok x :
  bmp_token ucd tok ->
  leave_SimpleString ucd (SimpleString h tok) = Ok x ->
  leave_SimpleString ucd x = Ok x.
Proof.
  intros Hb E. rewrite leave_SimpleString_spec in E. cbn [string_plain] in E.
  apply bind_Ok in E. destruct E as (d & Ed & E).
  pose proof (default_token_idem ucd tok d Hb Ed) as Hd.
  destruct (str_eqb d tok) eqn:Eq; injection E as <-.
  - apply str_eqb_eq in Eq. subst d.
    rewrite leave_SimpleString_spec. cbn [string_plain]. rewrite Ed. cbn [bind].
    rewrite str_eqb_refl. reflexivity.
  - unfold new_SimpleString.
    rewrite leave_SimpleString_spec. cbn [string_plain]. rewrite Hd. cbn [bind].
    rewrite str_eqb_refl. reflexivity.
Qed.

(** ['it\'s'] becomes ["it's"], which stays. *)
Lemma leave_SimpleString_idempotent_witness :
  leave_SimpleString ucd_ascii (SimpleString fresh (py "`it's`")) =
  Ok (SimpleString fresh (py "`it's`")).
Proof.
  assert (Hb : bmp_token ucd_ascii (py "'it\'s'")).
  { intros v H. vm_compute in H. injection H as <-. repeat constructor. }
  exact (leave_SimpleString_idempotent ucd_ascii (at_ 1 4 11) (py "'it\'s'")
           (SimpleString fresh (py "`it's`")) Hb eq_refl).
Defined.

(* ------------------------------------------------------------------ *)
(** ** Errors *)

Lemma outcome_bind {A B} b1 b2 (r : result A) (k : A -> result B) :
  outcome b1 r -> (forall x, r = Ok x -> outcome b2 (k x)) ->
  outcome (b1 || b2) (bind r k).
Proof.
  intros H1 H2. destruct b1; cbn in *.
  - rewrite H1. reflexivity.
  - destruct H1 as [x ->]. cbn [bind]. apply H2. reflexivity.
Qed.

Lemma outcome_Ok {A} (x : A) : outcome false (Ok x).
Proof. exists x. reflexivity. Qed.

Lemma outcome_bind_Ok {A B} b1 (r : result A) (g : A -> B) :
  outcome b1 r -> outcome b1 (bind r (fun x => Ok (g x))).
Proof.
  intros H. rewrite <- (orb_false_r b1). apply outcome_bind; [exact H|].
  intros x _. apply outcome_Ok.
Qed.

Section Outcome.
Variable ucd : unicodedata.
Variable self : QuoteKeysTransformer.
Local Abbreviation bad := (existsb (is_bytes_literal ucd)).

Lemma mapM_outcome {X Y} (toks : X -> list str) (f : X -> result Y) l :
  Forall (fun a => outcome (bad (toks a)) (f a)) l ->
  outcome (bad (flat_map toks l)) (mapM f l).
Proof.
  induction 1 as [|a l Ha F IH].
  - apply outcome_Ok.
  - rewrite mapM_cons. cbn [flat_map]. rewrite existsb_app.
    apply outcome_bind; [exact Ha|]. intros y _.
    apply outcome_bind_Ok. exact IH.
Qed.

Lemma default_token_outcome tok :
  outcome (is_bytes_literal ucd tok) (default_token ucd tok).
Proof.
  unfold is_bytes_literal, default_token.
  destruct (literal_eval ucd tok) as [[v|bs]|]; cbn.
  - destruct (_ && _); [eexists; reflexivity|].
    destruct (to_double_cases ucd tok) as [E|(t & E & _)]; rewrite E;
      eexists; reflexivity.
  - reflexivity.
  - eexists; reflexivity.
Qed.

Lemma visit_parts_outcome ps :
  Forall (P_part (fun n => outcome (bad (tokens n)) (visit ucd self n))) ps ->
  outcome (bad (flat_map (part_tokens tokens) ps)) (mapM (visit_part ucd self) ps).
Proof.
  intros F. apply mapM_outcome. eapply Forall_impl; [|exact F].
  intros [t|c] H; cbn in *; [apply outcome_Ok | apply outcome_bind_Ok; exact H].
Qed.

Lemma visit_outcome n : outcome (bad (tokens n)) (visit ucd self n).
Proof.
  induction n using node_induction.
  - apply outcome_Ok.
  - rewrite visit_Attribute. cbn [tokens]. apply outcome_bind_Ok. exact IHn.
  - rewrite visit_Call_plain. cbn [tokens]. rewrite existsb_app.
    apply outcome_bind; [exact IHn|]. intros f' _. apply outcome_bind_Ok.
    apply mapM_outcome. eapply Forall_impl; [|exact H].
    intros [pre v post] Ha. cbn in *. apply outcome_bind_Ok. exact Ha.
  - rewrite visit_Dict_plain. cbn [tokens]. apply outcome_bind_Ok.
    apply mapM_outcome. eapply Forall_impl; [|exact H].
    intros [k colon v post|pre v post] Ha; cbn in *.
    + destruct Ha as [Hk Hv]. rewrite existsb_app.
      apply outcome_bind; [exact Hk|]. intros k' _. apply outcome_bind_Ok. exact Hv.
    + apply outcome_bind_Ok. exact Ha.
  - rewrite visit_Collection. cbn [tokens]. apply outcome_bind_Ok.
    apply mapM_outcome. eapply Forall_impl; [|exact H].
    intros [v post|pre v post] Ha; cbn in *; apply outcome_bind_Ok; exact Ha.
  - rewrite visit_Subscript_plain. cbn [tokens]. rewrite existsb_app.
    apply outcome_bind; [exact IHn|]. intros v' _. apply outcome_bind_Ok.
    apply mapM_outcome. eapply Forall_impl; [|exact H].
    intros [[star i|ps] post] Ha; cbn in *.
    + apply outcome_bind_Ok. exact Ha.
    + apply outcome_bind_Ok. apply visit_parts_outcome. exact Ha.
  - rewrite visit_SimpleString_plain. cbn [tokens string_plain existsb].
    rewrite orb_false_r. apply outcome_bind_Ok. apply default_token_outcome.
  - rewrite visit_Other. cbn [tokens]. apply outcome_bind_Ok.
    apply visit_parts_outcome. exact H.
Qed.

End Outcome.

(** X12: the transformation returns no result on a module one of whose
    string literals evaluates to a bytes object: an error is raised. *)
Theorem transform_code_fails_on_bytes ucd m :
  existsb (is_bytes_literal ucd) (tokens m) = true ->
  exists e, transform_code ucd m = Raise e.
Proof.
  intros Hb. pose proof (visit_outcome ucd (__init__ (code m)) m) as H.
  rewrite Hb in H. cbn in H. exists TypeError. unfold transform_code.
  rewrite H. reflexivity.
Qed.
(** [hasattr(obj, b"key")] *)
Lemma transform_code_fails_on_bytes_witness :
  exists e, transform_code ucd_ascii
              (module1 (hasattr_call (py "b`key`")) []) = Raise e.
Proof.
  exact (transform_code_fails_on_bytes ucd_ascii
           (module1 (hasattr_call (py "b`key`")) []) eq_refl).
Defined.

(* ------------------------------------------------------------------ *)
(** ** What the traversal keeps *)

Lemma kept_refl ucd t : token_kept ucd t t.
Proof. split; auto. Qed.

Lemma kept_trans ucd t1 t2 t3 :
  token_kept ucd t1 t2 -> token_kept ucd t2 t3 -> token_kept ucd t1 t3.
Proof.
  intros [P1 V1] [P2 V2]. split; [congruence|].
  intros v Hv Hb. apply V2; [apply V1|]; assumption.
Qed.

Lemma kept_single ucd t k :
  to_single_quoted_string ucd t = Some k -> token_kept ucd t k.
Proof.
  intros E. destruct (to_single_result ucd t k E)
    as (p & tail & v & Hs & Hp & Ht & Hv & F & -> & Hne).
  split.
  - rewrite (single_form_split ucd p v Hp), Hs. reflexivity.
  - intros v' Hv' _. rewrite Hv in Hv'. injection Hv' as <-.
    apply single_form_eval; assumption.
Qed.

Lemma kept_default ucd t d : default_token ucd t = Ok d -> token_kept ucd t d.
Proof.
  intros E. destruct (literal_eval ucd t) as [[v|bs]|] eqn:Hv.
  - destruct (excluded t) eqn:He.
    + rewrite (default_token_excluded ucd t d He E). apply kept_refl.
    + destruct (default_token_quoting ucd t v Hv He) as (d' & Ed & Hp & _ & _ & Hval).
      rewrite Ed in E. injection E as <-. split; [exact Hp|].
      intros v' Hv' Hb. rewrite Hv in Hv'. injection Hv' as <-. apply Hval. exact Hb.
  - unfold default_token in E. rewrite Hv in E. discriminate.
  - unfold default_token in E. rewrite Hv in E. injection E as <-. apply kept_refl.
Qed.

(** X13: whenever the traversal returns, the output has as many string
    literals as the input, in the same order, and each has the prefix of
    the literal it comes from and, when that evaluates to a str without
    code points above U+FFFF, the same value. *)
Theorem literals_keep_prefix_and_value ucd self n x :
  visit ucd self n = Ok x ->
  Forall2 (fun t t' =>
             fst (_split_prefix_and_quoting t') = fst (_split_prefix_and_quoting t) /\
             forall v, literal_eval ucd t = Some (PyStr v) -> bmp v ->
                       literal_eval ucd t' = Some (PyStr v))
    (tokens n) (tokens x).
Proof.
  intros Ev.
  exact (visit_tokens ucd self (token_kept ucd) (kept_refl ucd) (kept_trans ucd)
           (kept_default ucd) (kept_single ucd) n x Ev).
Qed.

(** [dict.fromkeys(["a", "b"])] and the tree of ['a'] and ['b'] it
    becomes. *)
Lemma literals_keep_prefix_and_value_witness :
  Forall2 (fun t t' =>
             fst (_split_prefix_and_quoting t') = fst (_split_prefix_and_quoting t) /\
             forall v, literal_eval ucd_ascii t = Some (PyStr v) -> bmp v ->
                       literal_eval ucd_ascii t' = Some (PyStr v))
    [py "`a`"; py "`b`"] [py "'a'"; py "'b'"].
Proof.
  exact (literals_keep_prefix_and_value ucd_ascii
           (__init__ (py "dict.fromkeys([`a`, `b`])"))
           (module1 fromkeys_call [])
           (clone (module1
              (Call fresh
                 (Attribute fresh (Name fresh (py "dict")) (py ".") (py "fromkeys"))
                 (py "(")
                 [Arg []
                    (Collection fresh KList (py "[")
                       [Element (SimpleString fresh (py "'a'")) (py ", ");
                        Element (SimpleString fresh (py "'b'")) []]
                       (py "]")) []]
                 (py ")")) []))
           eq_refl).
Defined.

Lemma skeleton_is_SimpleString a b :
  skeleton a = skeleton b -> is_SimpleString a = is_SimpleString b.
Proof. destruct a, b; cbn; intros E; congruence. Qed.

Lemma map_update_nth {A B} (g : A -> B) (f : A -> A) i l :
  (forall a, g (f a) = g a) -> map g (update_nth i f l) = map g l.
Proof.
  intros H. revert i. induction l as [|a l IH]; intros [|i]; cbn; try reflexivity.
  - rewrite H. reflexivity.
  - rewrite IH. reflexivity.
Qed.

Lemma map_map_fixed {A B} (g : A -> B) (f : A -> A) l :
  (forall a, g (f a) = g a) -> map g (map f l) = map g l.
Proof. intros H. rewrite map_map. apply map_ext. exact H. Qed.

Section Skeleton.
Variable ucd : unicodedata.
Variable b : bool.

Lemma skeleton_requote_plain s : skeleton (requote_plain ucd b s) = skeleton s.
Proof.
  unfold requote_plain, requote_new_plain. destruct b; [reflexivity|].
  destruct s as [| | | | | |hs tok|]; try reflexivity.
  destruct (to_single_quoted_string ucd tok); reflexivity.
Qed.

Lemma skeleton_element_with_value e v :
  skeleton v = skeleton (element_value e) ->
  skeleton_element (element_with_value e v) = skeleton_element e.
Proof. destruct e; cbn; intros ->; reflexivity. Qed.

Lemma skeleton_arg_with_value a v :
  skeleton v = skeleton (arg_value a) ->
  skeleton_arg (arg_with_value a v) = skeleton_arg a.
Proof. destruct a; cbn; intros ->; reflexivity. Qed.

Lemma skeleton_dict_key_plain e :
  skeleton_dict_element (dict_key_plain ucd b e) = skeleton_dict_element e.
Proof. destruct e; cbn; [rewrite skeleton_requote_plain|]; reflexivity. Qed.

Lemma skeleton_element_plain e :
  skeleton_element (element_plain ucd b e) = skeleton_element e.
Proof. destruct e; cbn; [rewrite skeleton_requote_plain|]; reflexivity. Qed.

Lemma skeleton_pair_value_plain x : skeleton (pair_value_plain ucd b x) = skeleton x.
Proof.
  destruct x as [| | | |h k op elts cl| | |]; try reflexivity.
  destruct elts as [|e0 rest]; [reflexivity|]. cbn [pair_value_plain].
  destruct (is_list_or_tuple k); [|reflexivity].
  change (Collection (rebuilt h) k op
            (skeleton_element
               (element_with_value e0 (requote_plain ucd b (element_value e0)))
             :: map skeleton_element rest) cl =
          Collection (rebuilt h) k op
            (skeleton_element e0 :: map skeleton_element rest) cl).
  rewrite skeleton_element_with_value by apply skeleton_requote_plain. reflexivity.
Qed.

Lemma skeleton_pair_plain e :
  skeleton_element (pair_plain ucd b e) = skeleton_element e.
Proof. destruct e; cbn; [rewrite skeleton_pair_value_plain|]; reflexivity. Qed.

Lemma skeleton_apply_ctx c x : skeleton (apply_ctx ucd b c x) = skeleton x.
Proof.
  destruct c; cbn [apply_ctx].
  - reflexivity.
  - apply skeleton_requote_plain.
  - destruct x as [| | |h op elts cl|h k op elts cl| | |]; try reflexivity.
    + change (Dict (rebuilt h) op
                (map skeleton_dict_element (map (dict_key_plain ucd b) elts)) cl =
              Dict (rebuilt h) op (map skeleton_dict_element elts) cl).
      rewrite map_map_fixed by apply skeleton_dict_key_plain. reflexivity.
    + destruct (is_list_or_tuple k); [|reflexivity].
      change (Collection (rebuilt h) k op
                (map skeleton_element (map (pair_plain ucd b) elts)) cl =
              Collection (rebuilt h) k op (map skeleton_element elts) cl).
      rewrite map_map_fixed by apply skeleton_pair_plain. reflexivity.
  - destruct x as [| | | |h k op elts cl| | |]; try reflexivity.
    change (Collection (rebuilt h) k op
              (map skeleton_element (map (element_plain ucd b) elts)) cl =
            Collection (rebuilt h) k op (map skeleton_element elts) cl).
    rewrite map_map_fixed by apply skeleton_element_plain. reflexivity.
  - apply skeleton_pair_value_plain.
Qed.

Lemma skeleton_call_plain u : skeleton (call_plain ucd b u) = skeleton u.
Proof.
  destruct u as [| |h f op args cl| | | | |]; try reflexivity.
  cbn [call_plain apply_rule]. destruct (call_rule f args) as [[i c]|]; [|reflexivity].
  change (Call (rebuilt h) (skeleton f) op
            (map skeleton_arg
               (update_nth i
                  (fun a => arg_with_value a (apply_ctx ucd b c (arg_value a))) args))
            cl =
          Call (rebuilt h) (skeleton f) op (map skeleton_arg args) cl).
  rewrite map_update_nth; [reflexivity|].
  intros a. apply skeleton_arg_with_value, skeleton_apply_ctx.
Qed.

Lemma skeleton_dict_plain u : skeleton (dict_plain ucd b u) = skeleton u.
Proof.
  destruct u as [| | |h op elts cl| | | |]; try reflexivity.
  change (Dict (rebuilt h) op
            (map skeleton_dict_element (map (dict_key_plain ucd b) elts)) cl =
          Dict (rebuilt h) op (map skeleton_dict_element elts) cl).
  rewrite map_map_fixed by apply skeleton_dict_key_plain. reflexivity.
Qed.

Lemma skeleton_index_plain s :
  skeleton_subscript_element (index_plain ucd b s) = skeleton_subscript_element s.
Proof.
  destruct s as [[star t|ps] post]; [|reflexivity].
  cbn [index_plain]. unfold requote_new_plain. destruct b; [reflexivity|].
  destruct t as [| | | | | |hs tok|]; try reflexivity.
  destruct (to_single_quoted_string ucd tok); reflexivity.
Qed.

Lemma skeleton_subscript_plain u : skeleton (subscript_plain ucd b u) = skeleton u.
Proof.
  destruct u as [| | | | |h v op sl cl| |]; try reflexivity.
  change (Subscript (rebuilt h) (skeleton v) op
            (map skeleton_subscript_element (map (index_plain ucd b) sl)) cl =
          Subscript (rebuilt h) (skeleton v) op
            (map skeleton_subscript_element sl) cl).
  rewrite map_map_fixed by apply skeleton_index_plain. reflexivity.
Qed.

Lemma skeleton_string_plain u x :
  string_plain ucd u = Ok x -> skeleton x = skeleton u.
Proof.
  destruct u as [| | | | | |hs tok|]; cbn [string_plain];
    try (intros [= <-]; reflexivity).
  intros E. apply bind_Ok in E. destruct E as (d & _ & E).
  destruct (str_eqb d tok); injection E as <-; reflexivity.
Qed.

End Skeleton.

Lemma mapM_skeleton {X} (sk : X -> X) (f : X -> result X) (IHx : X -> Prop) l :
  Forall IHx l ->
  (forall a a', IHx a -> f a = Ok a' -> sk a' = sk a) ->
  forall l', mapM f l = Ok l' -> map sk l' = map sk l.
Proof.
  intros F H. induction F as [|a l Ha F IH]; intros l' E.
  - injection E as <-. reflexivity.
  - rewrite mapM_cons in E. apply bind_Ok in E. destruct E as (a' & Ea & E).
    apply bind_Ok in E. destruct E as (l2 & El & [= <-]).
    cbn [map]. rewrite (H a a' Ha Ea), (IH l2 El). reflexivity.
Qed.

Section VisitSkeleton.
Variable ucd : unicodedata.
Variable self : QuoteKeysTransformer.

Lemma visit_parts_skeleton ps :
  Forall (P_part (fun n => forall x, visit ucd self n = Ok x -> skeleton x = skeleton n)) ps ->
  forall ps', mapM (visit_part ucd self) ps = Ok ps' ->
  map skeleton_part ps' = map skeleton_part ps.
Proof.
  intros F. apply (mapM_skeleton _ _ _ ps F).
  intros [t|c] a' Ha E; cbn in E.
  - injection E as <-. reflexivity.
  - apply bind_Ok in E. destruct E as (c' & Ec & [= <-]). cbn.
    rewrite (Ha _ Ec). reflexivity.
Qed.

Lemma visit_skeleton n : forall x, visit ucd self n = Ok x -> skeleton x = skeleton n.
Proof.
  induction n using node_induction; intros x E.
  - injection E as <-. reflexivity.
  - rewrite visit_Attribute in E. apply bind_Ok in E.
    destruct E as (v' & Ev & [= <-]). cbn. rewrite (IHn _ Ev), rebuilt_idem. reflexivity.
  - rewrite visit_Call_plain in E. apply bind_Ok in E.
    destruct E as (f' & Ef & E). apply bind_Ok in E.
    destruct E as (args' & Ea & E). ok_inj E.
    rewrite skeleton_call_plain.
    change (Call (rebuilt (rebuilt h)) (skeleton f') op (map skeleton_arg args') cl =
            Call (rebuilt h) (skeleton n) op (map skeleton_arg args) cl).
    rewrite rebuilt_idem, (IHn _ Ef). f_equal.
    revert args' Ea. apply (mapM_skeleton _ _ _ _ H).
    intros [pre v post] a' Ha E. cbn in E. apply bind_Ok in E.
    destruct E as (v' & Ev & [= <-]). cbn. rewrite (Ha _ Ev). reflexivity.
  - rewrite visit_Dict_plain in E. apply bind_Ok in E.
    destruct E as (elts' & Ee & E). ok_inj E.
    rewrite skeleton_dict_plain.
    change (Dict (rebuilt (rebuilt h)) op (map skeleton_dict_element elts') cl =
            Dict (rebuilt h) op (map skeleton_dict_element elts) cl).
    rewrite rebuilt_idem. f_equal.
    revert elts' Ee. apply (mapM_skeleton _ _ _ _ H).
    intros [k colon v post|pre v post] a' Ha E; cbn in E.
    + apply bind_Ok in E. destruct E as (k' & Ek & E). apply bind_Ok in E.
      destruct E as (v' & Ev & [= <-]). destruct Ha as [Hk1 Hv1].
      cbn. rewrite (Hk1 _ Ek), (Hv1 _ Ev). reflexivity.
    + apply bind_Ok in E. destruct E as (v' & Ev & [= <-]).
      cbn. rewrite (Ha _ Ev). reflexivity.
  - rewrite visit_Collection in E. apply bind_Ok in E.
    destruct E as (elts' & Ee & [= <-]).
    change (Collection (rebuilt (rebuilt h)) k op (map skeleton_element elts') cl =
            Collection (rebuilt h) k op (map skeleton_element elts) cl).
    rewrite rebuilt_idem. f_equal.
    revert elts' Ee. apply (mapM_skeleton _ _ _ _ H).
    intros [v post|pre v post] a' Ha E; cbn in E;
      apply bind_Ok in E; destruct E as (v' & Ev & [= <-]);
      cbn; rewrite (Ha _ Ev); reflexivity.
  - rewrite visit_Subscript_plain in E. apply bind_Ok in E.
    destruct E as (v' & Ev & E). apply bind_Ok in E.
    destruct E as (sl' & Es & E). ok_inj E.
    rewrite skeleton_subscript_plain.
    change (Subscript (rebuilt (rebuilt h)) (skeleton v') op
              (map skeleton_subscript_element sl') cl =
            Subscript (rebuilt h) (skeleton n) op
              (map skeleton_subscript_element sl) cl).
    rewrite rebuilt_idem, (IHn _ Ev). f_equal.
    revert sl' Es. apply (mapM_skeleton _ _ _ _ H).
    intros [[star i|ps] post] a' Ha E; cbn in E.
    + apply bind_Ok in E. destruct E as (i' & Ei & [= <-]). cbn.
      rewrite (skeleton_is_SimpleString _ _ (Ha _ Ei)), (Ha _ Ei). reflexivity.
    + apply bind_Ok in E. destruct E as (ps' & Ep & [= <-]). cbn.
      rewrite (visit_parts_skeleton ps Ha ps' Ep). reflexivity.
  - rewrite visit_SimpleString_plain in E.
    rewrite (skeleton_string_plain ucd _ _ E). reflexivity.
  - rewrite visit_Other in E. apply bind_Ok in E.
    destruct E as (ps' & Ep & [= <-]).
    change (Other (rebuilt (rebuilt h)) (map skeleton_part ps') =
            Other (rebuilt h) (map skeleton_part ps)).
    rewrite rebuilt_idem, (visit_parts_skeleton ps H ps' Ep). reflexivity.
Qed.

End VisitSkeleton.

(** X14: the traversal changes nothing but string literals: the tree it
    returns and the tree it is given have the same skeleton, that is the
    same nodes, names, brackets, separators and verbatim text, once every
    SimpleString is blanked (its token and its parentheses) together with
    the star before an index that is a string literal. *)
Theorem only_literals_change ucd self n x :
  visit ucd self n = Ok x -> skeleton x = skeleton n.
Proof. apply visit_skeleton. Qed.

Lemma only_literals_change_witness :
  skeleton (clone (module1 (subscript (py "'a'")) [])) =
  skeleton (module1 (subscript (py "`a`")) []).
Proof.
  exact (only_literals_change ucd_ascii (__init__ (py "d[`a`]"))
           (module1 (subscript (py "`a`")) [])
           (clone (module1 (subscript (py "'a'")) [])) eq_refl).
Defined.

(* ------------------------------------------------------------------ *)
(** ** The opt-out lookup *)

(** X15: [_has_noqa_comment] answers False for a node without a position
    entry; for a node with one it reads the line the node ends on, the
    first line for a line number below 1 and the last line for one past the
    end; it raises IndexError when the source has no line at all. *)
Theorem has_noqa_comment_line self n :
  match metadata (header_of n), _lines self with
  | None, _ => _has_noqa_comment self n = Ok false
  | Some _, [] => _has_noqa_comment self n = Raise IndexError
  | Some r, first :: rest =>
      _has_noqa_comment self n =
      Ok (contains NOQA_TAG
            (nth (Nat.min (line (end_ r) - 1) (List.length rest)) (first :: rest) []))
  end.
Proof.
  unfold _has_noqa_comment.
  destruct (metadata (header_of n)) as [r|]; [|destruct (_lines self); reflexivity].
  destruct (_lines self) as [|first rest]; [reflexivity|].
  set (l := first :: rest).
  set (i := (Nat.max 1 (Nat.min (List.length l) (line (end_ r))) - 1)%nat).
  assert (Ei : i = Nat.min (line (end_ r) - 1) (List.length rest)).
  { subst i l. cbn [List.length]. lia. }
  assert (Hi : (i < List.length l)%nat).
  { subst i l. cbn [List.length]. lia. }
  rewrite <- Ei.
  rewrite (nth_error_nth' l [] Hi). reflexivity.
Qed.

(* ------------------------------------------------------------------ *)
(** ** Subscripts *)

Section Indices.
Variable ucd : unicodedata.
Variable self : QuoteKeysTransformer.

Hypothesis Hflag : _source_has_noqa self = false.

Lemma requote_index_changed_free u s :
  _has_noqa_comment self u = Ok false -> index_opt_out_free self s ->
  requote_index_changed ucd self u s =
  Ok (index_plain ucd (_source_has_noqa self) s, index_changed ucd self s).
Proof.
  intros Hu Hs. destruct s as [[star t|ps] post]; cbn in *; [|reflexivity].
  rewrite (maybe_requote_new_free ucd self Hflag) by assumption. cbn [bind].
  rewrite Hflag.
  destruct (requote_new_plain ucd false t); reflexivity.
Qed.

Lemma index_plain_forced s : index_forced ucd s (index_plain ucd false s).
Proof.
  destruct s as [[star t|ps] post]; [|reflexivity].
  destruct t as [| | | | | |hs tok|]; try reflexivity.
  cbn [index_forced index_plain requote_new_plain].
  destruct (to_single_quoted_string ucd tok) as [t|] eqn:E; cbn [option_map].
  - exists [], fresh, t. split; [reflexivity|]. split.
    + right. repeat split.
      apply str_eqb_neq. apply (to_single_changes ucd tok t E).
    + intros v Hv He. pose proof (requote_token_spec ucd tok v Hv He) as H.
      unfold requote_token in H. rewrite E in H. exact H.
  - exists star, hs, tok. split; [reflexivity|]. split; [left; auto|].
    intros v Hv He. pose proof (requote_token_spec ucd tok v Hv He) as H.
    unfold requote_token in H. rewrite E in H. exact H.
Qed.

Lemma leave_Subscript_free h v op sl cl :
  _has_noqa_comment self (Subscript h v op sl cl) = Ok false ->
  Forall (index_opt_out_free self) sl ->
  exists h', leave_Subscript ucd self (Subscript h v op sl cl) =
             Ok (Subscript h' v op (map (index_plain ucd false) sl) cl) /\
             lpar h' = lpar h /\ rpar h' = rpar h.
Proof.
  intros Hu F. cbn [leave_Subscript].
  rewrite (mapM_spec (index_opt_out_free self) _
             (fun s => (index_plain ucd (_source_has_noqa self) s,
                        index_changed ucd self s)) sl F)
    by (intros; apply requote_index_changed_free; assumption).
  cbn [bind]. destruct (existsb snd _) eqn:E.
  - exists (rebuilt h). rewrite map_map. cbn [fst]. rewrite Hflag.
    repeat split; reflexivity.
  - apply existsb_snd_false in E; [|apply index_unchanged].
    rewrite Hflag in E. rewrite E. exists h. repeat split; reflexivity.
Qed.

End Indices.

(** X16: on a subscript with no opt-out in force, [leave_Subscript]
    requotes every index that is a string literal and keeps the subscripted
    value, the slices and the layout: the new token of an ordinary literal
    has the same value and is single-quoted, unless the value holds a
    single quote and no double quote; an index whose literal is replaced
    loses its star and its parentheses. *)
Theorem subscript_indices ucd self h v op sl cl :
  _source_has_noqa self = false ->
  _has_noqa_comment self (Subscript h v op sl cl) = Ok false ->
  Forall (index_opt_out_free self) sl ->
  exists h' sl',
    leave_Subscript ucd self (Subscript h v op sl cl) = Ok (Subscript h' v op sl' cl) /\
    lpar h' = lpar h /\ rpar h' = rpar h /\
    Forall2 (index_forced ucd) sl sl'.
Proof.
  intros Hflag Hu F.
  destruct (leave_Subscript_free ucd self Hflag h v op sl cl Hu F) as (h' & E & Hl & Hr).
  exists h', (map (index_plain ucd false) sl).
  repeat split; try assumption.
  clear. induction sl as [|e l IH]; cbn [map]; constructor;
    [apply index_plain_forced | exact IH].
Qed.

(** [d["a"]], the subscript as the parser hands it over. *)
Lemma subscript_indices_witness :
  exists h' sl',
    leave_Subscript ucd_ascii (__init__ (py "d[`a`]")) (subscript (py "`a`")) =
      Ok (Subscript h' (Name (at_ 1 0 1) (py "d")) (py "[") sl' (py "]")) /\
    lpar h' = [] /\ rpar h' = [] /\
    Forall2 (index_forced ucd_ascii)
      [SubscriptElement (Index [] (SimpleString (at_ 1 2 5) (py "`a`"))) []] sl'.
Proof.
  apply (subscript_indices ucd_ascii (__init__ (py "d[`a`]"))
           (at_ 1 0 6) (Name (at_ 1 0 1) (py "d")) (py "[")
           [SubscriptElement (Index [] (SimpleString (at_ 1 2 5) (py "`a`"))) []]
           (py "]")); [reflexivity | reflexivity |].
  constructor; [reflexivity | constructor].
Defined.

Lemma visit_string_default ucd self hs tok v :
  literal_eval ucd tok = Some (PyStr v) -> excluded tok = false -> bmp v ->
  exists hs' d,
    visit ucd self (SimpleString hs tok) = Ok (SimpleString hs' d) /\
    literal_eval ucd d = Some (PyStr v) /\ excluded d = false.
Proof.
  intros Hv He Hb.
  destruct (default_token_quoting ucd tok v Hv He) as (d & Ed & _ & Hx & _ & Hval).
  rewrite visit_SimpleString_plain. cbn [string_plain]. rewrite Ed. cbn [bind].
  destruct (str_eqb d tok) eqn:E.
  - apply str_eqb_eq in E. subst d. eexists _, tok. split; [reflexivity|]. auto.
  - eexists _, d. split; [reflexivity|]. auto.
Qed.

(** X17: without the file-wide annotation, the traversal of a subscript
    with one index that is an ordinary str literal, of a value without code
    points above U+FFFF, returns the subscript with the visited value and
    with the literal single-quoted, of the same value, unless this holds a
    single quote and no double quote; no position entry and no comment is
    asked for. *)
Theorem subscript_key_single_quoted ucd self h v0 v0' op star hs tok post cl v :
  _source_has_noqa self = false ->
  visit ucd self v0 = Ok v0' ->
  literal_eval ucd tok = Some (PyStr v) -> excluded tok = false -> bmp v ->
  exists h' star' hs' tok',
    visit ucd self
      (Subscript h v0 op [SubscriptElement (Index star (SimpleString hs tok)) post] cl) =
    Ok (Subscript h' v0' op
          [SubscriptElement (Index star' (SimpleString hs' tok')) post] cl) /\
    literal_eval ucd tok' = Some (PyStr v) /\
    (is_single_quoted tok' = true \/
     has_char SQ v = true /\ has_char DQ v = false).
Proof.
  intros Hflag E0 Hv He Hb.
  destruct (visit_string_default ucd self hs tok v Hv He Hb) as (hs1 & d & Ed & Hvd & Hed).
  pose proof (requote_token_spec ucd d v Hvd Hed) as Hq.
  rewrite visit_Subscript_plain, E0. cbn [bind].
  rewrite mapM_cons. cbn [visit_subscript_element]. rewrite Ed. cbn [bind mapM].
  cbn [subscript_plain map index_plain]. unfold requote_new_plain. rewrite Hflag.
  unfold requote_token in Hq.
  destruct (to_single_quoted_string ucd d) as [t|]; cbn [option_map];
    eexists _, _, _, _; (split; [reflexivity | exact Hq]).
Qed.

(** [d['a']] stays as it is: the default rule double-quotes the literal,
    the subscript rule single-quotes it again. *)
Lemma subscript_key_single_quoted_witness :
  exists h' star' hs' tok',
    visit ucd_ascii (__init__ (py "d['a']")) (subscript (py "'a'")) =
    Ok (Subscript h' (Name (rebuilt (at_ 1 0 1)) (py "d")) (py "[")
          [SubscriptElement (Index star' (SimpleString hs' tok')) []] (py "]")) /\
    literal_eval ucd_ascii tok' = Some (PyStr (py "a")) /\
    (is_single_quoted tok' = true \/
     has_char SQ (py "a") = true /\ has_char DQ (py "a") = false).
Proof.
  assert (Hb : bmp (py "a")) by (repeat constructor).
  exact (subscript_key_single_quoted ucd_ascii (__init__ (py "d['a']"))
           (at_ 1 0 6) (Name (at_ 1 0 1) (py "d")) (Name (rebuilt (at_ 1 0 1)) (py "d"))
           (py "[") [] (at_ 1 2 5) (py "'a'") [] (py "]") (py "a")
           eq_refl eq_refl eq_refl eq_refl Hb).
Defined.

(* ------------------------------------------------------------------ *)
(** ** Calls *)

Lemma split_last_acc_nosep sep cur a :
  has_char sep a = false -> split_last_acc sep cur a = rev cur ++ a.
Proof.
  revert cur. induction a as [|c a IH]; intros cur H; cbn.
  - rewrite app_nil_r. reflexivity.
  - cbn in H. apply orb_false_iff in H. destruct H as [H1 H2].
    rewrite N.eqb_sym, H1. rewrite IH by assumption. cbn.
    rewrite <- app_assoc. reflexivity.
Qed.

Lemma split_last_acc_app sep cur s t :
  split_last_acc sep cur (s ++ sep :: t) = split_last_acc sep [] t.
Proof.
  revert cur. induction s as [|c s IH]; intros cur; cbn.
  - rewrite N.eqb_refl. reflexivity.
  - destruct (c =? sep); apply IH.
Qed.

Lemma join_snoc sep (l : list str) (a : str) :
  l <> [] -> join sep (l ++ [a]) = join sep l ++ sep ++ a.
Proof.
  induction l as [|p l IH]; intros H; [contradiction|].
  destruct l as [|q r]; [reflexivity|].
  change (join sep ((p :: q :: r) ++ [a]))
    with (p ++ sep ++ join sep ((q :: r) ++ [a])).
  rewrite IH by discriminate.
  change (join sep (p :: q :: r)) with (p ++ sep ++ join sep (q :: r)).
  rewrite <- !app_assoc. reflexivity.
Qed.

Lemma split_last_join (l : list str) (a : str) :
  has_char (chr ".") a = false ->
  split_last (chr ".") (join (py ".") (l ++ [a])) = a.
Proof.
  intros H. unfold split_last. destruct l as [|p l].
  - cbn [app join]. apply (split_last_acc_nosep _ [] a H).
  - rewrite join_snoc by discriminate.
    change (py "." ++ a) with (chr "." :: a).
    rewrite split_last_acc_app. apply (split_last_acc_nosep _ [] a H).
Qed.

Lemma join_snoc_nonempty (l : list str) (a : str) :
  a <> [] -> exists c name, join (py ".") (l ++ [a]) = c :: name.
Proof.
  intros Ha. destruct l as [|p l].
  - destruct a as [|c a]; [contradiction|]. exists c, a. reflexivity.
  - rewrite join_snoc by discriminate.
    destruct (join (py ".") (p :: l)) as [|c r]; eexists _, _; reflexivity.
Qed.

Lemma last_segment_attr h v dot attr names :
  has_char (chr ".") attr = false -> attr <> [] ->
  last_segment_in (func_name_of (Attribute h v dot attr)) names = mem attr names.
Proof.
  intros H1 H2. unfold last_segment_in, func_name_of.
  cbn [dotted_parts rev].
  destruct (join_snoc_nonempty (rev (dotted_parts v)) attr H2) as (c & name & En).
  pose proof (split_last_join (rev (dotted_parts v)) attr H1) as Hs.
  rewrite En in Hs |- *. rewrite Hs. reflexivity.
Qed.

(** X18: for a target [base.attr] whose attribute name is not empty and
    holds no dot, the last segment of the dotted name that [leave_Call]
    builds is the attribute name, whatever the base is: the rules that go
    by the last segment apply to a method of that name on any object. *)
Theorem method_target_last_segment h v dot attr names :
  has_char (chr ".") attr = false -> attr <> [] ->
  last_segment_in (func_name_of (Attribute h v dot attr)) names = mem attr names.
Proof. apply last_segment_attr. Qed.

(** [self.registry().hasattr], a method of the name of a builtin. *)
Lemma method_target_last_segment_witness :
  last_segment_in
    (func_name_of
       (Attribute (at_ 1 0 23)
          (Call (at_ 1 0 15)
             (Attribute (at_ 1 0 13) (Name (at_ 1 0 4) (py "self")) (py ".")
                (py "registry"))
             (py "(") [] (py ")"))
          (py ".") (py "hasattr")))
    ATTR_FUNCS = mem (py "hasattr") ATTR_FUNCS.
Proof.
  apply (method_target_last_segment (at_ 1 0 23)
           (Call (at_ 1 0 15)
              (Attribute (at_ 1 0 13) (Name (at_ 1 0 4) (py "self")) (py ".")
                 (py "registry"))
              (py "(") [] (py ")"))
           (py ".") (py "hasattr") ATTR_FUNCS); [reflexivity | discriminate].
Defined.

Lemma mem_In a names : mem a names = true -> In a names.
Proof.
  unfold mem. intros H. apply existsb_exists in H. destruct H as (x & Hx & E).
  apply str_eqb_eq in E. subst x. exact Hx.
Qed.

Lemma method_in_inv f names :
  method_in f names = true ->
  exists h v dot attr, f = Attribute h v dot attr /\ In attr names.
Proof.
  unfold method_in, method_name. destruct f; try discriminate.
  intros H. apply mem_In in H. eexists _, _, _, _. split; [reflexivity | exact H].
Qed.

Lemma method_names_plain a :
  In a METHOD_NAMES -> has_char (chr ".") a = false /\ a <> [].
Proof.
  intros H. cbn in H.
  repeat (destruct H as [<-|H]; [split; [reflexivity | discriminate]|]).
  contradiction.
Qed.

Lemma method_segment f names1 names2 :
  incl names1 METHOD_NAMES ->
  method_in f names1 = true ->
  last_segment_in (func_name_of f) names2 =
  match method_name f with Some a => mem a names2 | None => false end.
Proof.
  intros Hi H. destruct (method_in_inv f names1 H) as (h & v & dot & attr & -> & Ha).
  destruct (method_names_plain attr (Hi _ Ha)) as [H1 H2].
  rewrite last_segment_attr by assumption. reflexivity.
Qed.

(** Membership facts on the constant name sets. *)
Ltac names :=
  let a := fresh "a" in let H := fresh "H" in
  intros a H; cbn in H;
  repeat (destruct H as [<-|H]; [try reflexivity; try discriminate|]);
  try contradiction.

Lemma incl_MAPPING : incl MAPPING_FIRST_KEY_METHODS METHOD_NAMES.
Proof. names; cbn; tauto. Qed.

Lemma incl_FROM_KEYS : incl FROM_KEYS METHOD_NAMES.
Proof. names; cbn; tauto. Qed.

Lemma incl_DUUNDER_KEY : incl DUUNDER_KEY METHOD_NAMES.
Proof. names; cbn; tauto. Qed.

Lemma incl_DUUNDER_ATTR : incl DUUNDER_ATTR METHOD_NAMES.
Proof. names; cbn; tauto. Qed.

Lemma segment_other f L X :
  last_segment_in (func_name_of f) L = true ->
  (forall a, In a L -> mem a X = false) ->
  last_segment_in (func_name_of f) X = false.
Proof.
  unfold last_segment_in. destruct (func_name_of f) as [[|c n]|]; try discriminate.
  intros H HX. apply HX. apply mem_In. exact H.
Qed.

Lemma segment_no_method f L Y :
  last_segment_in (func_name_of f) L = true ->
  incl Y METHOD_NAMES -> (forall a, In a Y -> mem a L = false) ->
  method_in f Y = false.
Proof.
  intros H Hi HY. destruct (method_in f Y) eqn:E; [|reflexivity].
  rewrite (method_segment f Y L Hi E) in H.
  destruct (method_in_inv f Y E) as (h & v & dot & attr & -> & Ha).
  cbn in H. rewrite (HY attr Ha) in H. discriminate.
Qed.

Lemma method_no_segment f L X :
  method_in f L = true -> incl L METHOD_NAMES ->
  (forall a, In a L -> mem a X = false) ->
  last_segment_in (func_name_of f) X = false.
Proof.
  intros H Hi HX. rewrite (method_segment f L X Hi H).
  destruct (method_in_inv f L H) as (h & v & dot & attr & -> & Ha).
  cbn. apply HX. exact Ha.
Qed.

Lemma method_other f L Y :
  method_in f L = true -> (forall a, In a L -> mem a Y = false) ->
  method_in f Y = false.
Proof.
  intros H HY. destruct (method_in_inv f L H) as (h & v & dot & attr & -> & Ha).
  cbn. apply HY. exact Ha.
Qed.

Section CallRules.
Variable ucd : unicodedata.
Variable self : QuoteKeysTransformer.

(** The rule that requotes the argument at [i]. *)
Local Abbreviation key_rule h f op args cl i :=
  (new_args <- requote_arg ucd self (Call h f op args cl) i args ;;
   Ok (Call (rebuilt h) f op new_args cl)).

Lemma leave_Call_mapping h f op a0 rest cl :
  method_in f MAPPING_FIRST_KEY_METHODS = true ->
  leave_Call ucd self (Call h f op (a0 :: rest) cl) = key_rule h f op (a0 :: rest) cl 0%nat.
Proof.
  intros H. cbn [leave_Call].
  rewrite (method_no_segment f _ ATTR_FUNCS H incl_MAPPING) by names.
  rewrite H. reflexivity.
Qed.

Lemma leave_Call_getter h f op a0 rest cl :
  last_segment_in (func_name_of f) OPERATOR_GETTERS = true ->
  leave_Call ucd self (Call h f op (a0 :: rest) cl) = key_rule h f op (a0 :: rest) cl 0%nat.
Proof.
  intros H. cbn [leave_Call].
  rewrite (segment_other f _ ATTR_FUNCS H) by names.
  rewrite (segment_no_method f _ MAPPING_FIRST_KEY_METHODS H incl_MAPPING) by names.
  rewrite H. reflexivity.
Qed.

(** A call of a dunder method with a first argument that is no dict and
    no collection reaches the last rules. *)
Lemma leave_Call_reaches_dunder h f op pre hs tok post rest cl L :
  method_in f L = true -> incl L METHOD_NAMES ->
  (forall a, In a L -> mem a ATTR_FUNCS = false) ->
  (forall a, In a L -> mem a MAPPING_FIRST_KEY_METHODS = false) ->
  (forall a, In a L -> mem a OPERATOR_GETTERS = false) ->
  leave_Call ucd self (Call h f op (Arg pre (SimpleString hs tok) post :: rest) cl) =
  leave_Call_dunder ucd self
    (Call h f op (Arg pre (SimpleString hs tok) post :: rest) cl).
Proof.
  intros H Hi H1 H2 H3. cbn [leave_Call].
  rewrite (method_no_segment f _ ATTR_FUNCS H Hi H1).
  rewrite (method_other f _ MAPPING_FIRST_KEY_METHODS H H2).
  rewrite (method_no_segment f _ OPERATOR_GETTERS H Hi H3).
  cbn [andb leave_Call_constructor leave_Call_fromkeys].
  destruct (last_segment_in _ _); reflexivity.
Qed.

Lemma leave_Call_dunder_key h f op pre hs tok post rest cl :
  method_in f DUUNDER_KEY = true ->
  leave_Call ucd self (Call h f op (Arg pre (SimpleString hs tok) post :: rest) cl) =
  key_rule h f op (Arg pre (SimpleString hs tok) post :: rest) cl 0%nat.
Proof.
  intros H.
  rewrite (leave_Call_reaches_dunder h f op pre hs tok post rest cl _ H incl_DUUNDER_KEY)
    by names.
  cbn [leave_Call_dunder]. unfold method_in in H.
  destruct (method_name f) as [dunder|]; [|discriminate].
  rewrite H. reflexivity.
Qed.

Lemma leave_Call_dunder_attr h f op args cl idx :
  method_in f DUUNDER_ATTR = true ->
  first_string_index args = Some idx ->
  leave_Call_dunder ucd self (Call h f op args cl) = key_rule h f op args cl idx.
Proof.
  intros H Hi. cbn [leave_Call_dunder].
  pose proof (method_other f _ DUUNDER_KEY H) as Hk.
  unfold method_in in H, Hk.
  destruct (method_name f) as [dunder|]; [|discriminate].
  rewrite Hk by names. rewrite H. cbn [andb].
  destruct args as [|a0 r]; [discriminate|]. cbn [nonempty]. rewrite Hi. reflexivity.
Qed.

Lemma leave_Call_dunder_attr_first h f op pre hs tok post rest cl :
  method_in f DUUNDER_ATTR = true ->
  leave_Call ucd self (Call h f op (Arg pre (SimpleString hs tok) post :: rest) cl) =
  key_rule h f op (Arg pre (SimpleString hs tok) post :: rest) cl 0%nat.
Proof.
  intros H.
  rewrite (leave_Call_reaches_dunder h f op pre hs tok post rest cl _ H incl_DUUNDER_ATTR)
    by names.
  apply leave_Call_dunder_attr; [exact H | reflexivity].
Qed.

Hypothesis Hflag : _source_has_noqa self = false.

Lemma key_rule_string h f op args cl i pre hs tok post v :
  nth_error args i = Some (Arg pre (SimpleString hs tok) post) ->
  _has_noqa_comment self (Call h f op args cl) = Ok false ->
  _has_noqa_comment self (SimpleString hs tok) = Ok false ->
  literal_eval ucd tok = Some (PyStr v) -> excluded tok = false ->
  exists hs' tok',
    key_rule h f op args cl i =
    Ok (Call (rebuilt h) f op
          (replace_nth i (Arg pre (SimpleString hs' tok') post) args) cl) /\
    literal_eval ucd tok' = Some (PyStr v) /\
    (is_single_quoted tok' = true \/
     has_char SQ v = true /\ has_char DQ v = false).
Proof.
  intros Hnth Hn Hs Hv He.
  destruct (maybe_requote_string ucd self Hflag _ hs tok Hn Hs) as [hs' E].
  exists hs', (requote_token ucd tok). split.
  - unfold requote_arg. rewrite Hnth. cbn [arg_value]. rewrite E. reflexivity.
  - apply requote_token_spec; assumption.
Qed.

End CallRules.

(** X19: a call of a method named get, pop, setdefault, __getitem__,
    __setitem__, __getattr__, __setattr__, __delattr__ or __getattribute__,
    or of a target whose last dotted segment is attrgetter, itemgetter or
    methodcaller, whose 1st argument is an ordinary string literal, with no
    opt-out in force, leaves [leave_Call] with that argument requoted and
    nothing else changed: the new token has the same value and is
    single-quoted, unless the value holds a single quote and no double
    quote. *)
Theorem call_first_argument ucd self h f op args cl pre hs tok post v :
  method_in f MAPPING_FIRST_KEY_METHODS
  || last_segment_in (func_name_of f) OPERATOR_GETTERS
  || method_in f DUUNDER_KEY || method_in f DUUNDER_ATTR = true ->
  nth_error args 0 = Some (Arg pre (SimpleString hs tok) post) ->
  _source_has_noqa self = false ->
  _has_noqa_comment self (Call h f op args cl) = Ok false ->
  _has_noqa_comment self (SimpleString hs tok) = Ok false ->
  literal_eval ucd tok = Some (PyStr v) -> excluded tok = false ->
  exists hs' tok',
    leave_Call ucd self (Call h f op args cl) =
    Ok (Call (rebuilt h) f op
          (replace_nth 0 (Arg pre (SimpleString hs' tok') post) args) cl) /\
    literal_eval ucd tok' = Some (PyStr v) /\
    (is_single_quoted tok' = true \/
     has_char SQ v = true /\ has_char DQ v = false).
Proof.
  intros Hf Hnth Hflag Hn Hs Hv He.
  assert (E : leave_Call ucd self (Call h f op args cl) =
              (new_args <- requote_arg ucd self (Call h f op args cl) 0 args ;;
               Ok (Call (rebuilt h) f op new_args cl))).
  { destruct args as [|a0 rest]; [discriminate|]. injection Hnth as ->.
    apply orb_true_iff in Hf. destruct Hf as [Hf|Hf];
      [|apply leave_Call_dunder_attr_first; exact Hf].
    apply orb_true_iff in Hf. destruct Hf as [Hf|Hf];
      [|apply leave_Call_dunder_key; exact Hf].
    apply orb_true_iff in Hf. destruct Hf as [Hf|Hf];
      [apply leave_Call_mapping | apply leave_Call_getter]; exact Hf. }
  rewrite E. eapply key_rule_string; eassumption.
Qed.

(** [d.get("a")], the call as the parser hands it over. *)
Lemma call_first_argument_witness :
  exists hs' tok',
    leave_Call ucd_ascii (__init__ (py "d.get(`a`)")) (get_call (py "`a`")) =
    Ok (Call (rebuilt (at_ 1 0 10))
          (Attribute (at_ 1 0 5) (Name (at_ 1 0 1) (py "d")) (py ".") (py "get"))
          (py "(") [Arg [] (SimpleString hs' tok') []] (py ")")) /\
    literal_eval ucd_ascii tok' = Some (PyStr (py "a")) /\
    (is_single_quoted tok' = true \/
     has_char SQ (py "a") = true /\ has_char DQ (py "a") = false).
Proof.
  exact (call_first_argument ucd_ascii (__init__ (py "d.get(`a`)"))
           (at_ 1 0 10)
           (Attribute (at_ 1 0 5) (Name (at_ 1 0 1) (py "d")) (py ".") (py "get"))
           (py "(") [Arg [] (SimpleString (at_ 1 6 9) (py "`a`")) []] (py ")")
           [] (at_ 1 6 9) (py "`a`") [] (py "a")
           eq_refl eq_refl eq_refl eq_refl eq_refl eq_refl eq_refl).
Defined.

(** X20: a call of a method named __getattr__, __setattr__, __delattr__
    or __getattribute__ whose 1st argument is no string literal and whose
    2nd argument is an ordinary one, with no opt-out in force, leaves
    [leave_Call] with the 2nd argument requoted and nothing else changed. *)
Theorem dunder_attr_second_argument ucd self h f op a0 pre hs tok post rest cl v :
  method_in f DUUNDER_ATTR = true ->
  is_SimpleString (arg_value a0) = false ->
  _source_has_noqa self = false ->
  _has_noqa_comment self
    (Call h f op (a0 :: Arg pre (SimpleString hs tok) post :: rest) cl) = Ok false ->
  _has_noqa_comment self (SimpleString hs tok) = Ok false ->
  literal_eval ucd tok = Some (PyStr v) -> excluded tok = false ->
  exists hs' tok',
    leave_Call ucd self
      (Call h f op (a0 :: Arg pre (SimpleString hs tok) post :: rest) cl) =
    Ok (Call (rebuilt h) f op (a0 :: Arg pre (SimpleString hs' tok') post :: rest) cl) /\
    literal_eval ucd tok' = Some (PyStr v) /\
    (is_single_quoted tok' = true \/
     has_char SQ v = true /\ has_char DQ v = false).
Proof.
  intros Hf H0 Hflag Hn Hs Hv He.
  set (args := a0 :: Arg pre (SimpleString hs tok) post :: rest) in *.
  assert (E : leave_Call ucd self (Call h f op args cl) =
              (new_args <- requote_arg ucd self (Call h f op args cl) 1 args ;;
               Ok (Call (rebuilt h) f op new_args cl))).
  { rewrite <- (leave_Call_dunder_attr ucd self h f op args cl 1 Hf)
      by (subst args; cbn; rewrite H0; reflexivity).
    subst args. cbn [leave_Call].
    rewrite (method_no_segment f _ ATTR_FUNCS Hf incl_DUUNDER_ATTR) by names.
    rewrite (method_other f _ MAPPING_FIRST_KEY_METHODS Hf) by names.
    rewrite (method_no_segment f _ OPERATOR_GETTERS Hf incl_DUUNDER_ATTR) by names.
    cbn [andb]. unfold leave_Call_constructor.
    rewrite (method_no_segment f _ [py "dict"; py "OrderedDict"] Hf incl_DUUNDER_ATTR)
      by names.
    destruct a0 as [pre0 first post0]. unfold leave_Call_fromkeys.
    rewrite (method_other f _ FROM_KEYS Hf) by names.
    destruct first; reflexivity. }
  rewrite E.
  destruct (key_rule_string ucd self Hflag h f op args cl 1 pre hs tok post v
              eq_refl Hn Hs Hv He) as (hs' & tok' & Ek & H).
  exists hs', tok'. split; [exact Ek | exact H].
Qed.

(** [type.__getattr__(obj, "a")], of the repository's tests. *)
Lemma dunder_attr_second_argument_witness :
  exists hs' tok',
    leave_Call ucd_ascii (__init__ (py "type.__getattr__(obj, `a`)"))
      dunder_getattr_call =
    Ok (Call (rebuilt (at_ 1 0 26))
          (Attribute (at_ 1 0 16) (Name (at_ 1 0 4) (py "type")) (py ".")
             (py "__getattr__"))
          (py "(")
          [Arg [] (Name (at_ 1 17 20) (py "obj")) (py ", ");
           Arg [] (SimpleString hs' tok') []]
          (py ")")) /\
    literal_eval ucd_ascii tok' = Some (PyStr (py "a")) /\
    (is_single_quoted tok' = true \/
     has_char SQ (py "a") = true /\ has_char DQ (py "a") = false).
Proof.
  exact (dunder_attr_second_argument ucd_ascii
           (__init__ (py "type.__getattr__(obj, `a`)"))
           (at_ 1 0 26)
           (Attribute (at_ 1 0 16) (Name (at_ 1 0 4) (py "type")) (py ".")
              (py "__getattr__"))
           (py "(") (Arg [] (Name (at_ 1 17 20) (py "obj")) (py ", "))
           [] (at_ 1 22 25) (py "`a`") [] [] (py ")") (py "a")
           eq_refl eq_refl eq_refl eq_refl eq_refl eq_refl eq_refl).
Defined.

Section Constructors.
Variable ucd : unicodedata.
Variable self : QuoteKeysTransformer.

Hypothesis Hflag : _source_has_noqa self = false.

Lemma maybe_requote_free n s :
  _has_noqa_comment self n = Ok false -> _has_noqa_comment self s = Ok false ->
  _maybe_requote ucd self n s = Ok (requote_plain ucd false s).
Proof.
  intros H1 H2. unfold _maybe_requote.
  rewrite (maybe_requote_new_free ucd self Hflag) by assumption. reflexivity.
Qed.

Lemma requote_plain_requoted s : requoted ucd s (requote_plain ucd false s).
Proof.
  destruct s as [| | | | | |hs tok|]; try reflexivity.
  cbn [requoted]. unfold requote_plain, requote_new_plain.
  pose proof (requote_token_spec ucd tok) as H. unfold requote_token in H.
  destruct (to_single_quoted_string ucd tok) as [t|]; cbn [option_map];
    eexists _, _; (split; [reflexivity|]); intros v Hv He; apply H; assumption.
Qed.

Lemma requote_dict_key_free first e :
  _has_noqa_comment self first = Ok false -> key_opt_out_free self e ->
  requote_dict_key ucd self first e = Ok (dict_key_plain ucd false e).
Proof.
  intros Hf He. destruct e as [k c v post|pre v post]; cbn in *; [|reflexivity].
  rewrite maybe_requote_free by assumption. reflexivity.
Qed.

Lemma requote_element_free target e :
  _has_noqa_comment self target = Ok false -> element_opt_out_free self e ->
  requote_element ucd self target e = Ok (element_plain ucd false e).
Proof.
  intros Ht He. destruct e as [v post|pre v post]; cbn in *.
  - rewrite maybe_requote_free by assumption. reflexivity.
  - rewrite Hflag, Ht. reflexivity.
Qed.

Lemma element_plain_forced e : element_forced ucd e (element_plain ucd false e).
Proof.
  destruct e as [v post|pre v post]; [|reflexivity].
  cbn. eexists. split; [reflexivity | apply requote_plain_requoted].
Qed.

Lemma requote_pair_free e :
  pair_opt_out_free self e ->
  exists e', requote_pair ucd self e = Ok e' /\ pair_forced ucd e e'.
Proof.
  intros He. destruct e as [v post|pre v post]; [|exists (StarredElement pre v post); split; reflexivity].
  destruct v as [| | | |hv k opv elts clv| | |];
    try (eexists; split; reflexivity).
  destruct elts as [|pair0 pair_rest]; [eexists; split; reflexivity|].
  cbn [requote_pair pair_forced pair_opt_out_free] in *.
  destruct (is_list_or_tuple k); [|eexists; split; reflexivity].
  destruct (He eq_refl) as [H1 H2].
  rewrite maybe_requote_free by assumption. cbn [bind].
  eexists. split; [reflexivity|]. eexists. split; [reflexivity|].
  apply requote_plain_requoted.
Qed.

Lemma mapM_exists {A B} (P : A -> Prop) (Q : A -> B -> Prop) (f : A -> result B) l :
  Forall P l -> (forall a, P a -> exists b, f a = Ok b /\ Q a b) ->
  exists l', mapM f l = Ok l' /\ Forall2 Q l l'.
Proof.
  intros F H. induction F as [|a l Ha F IH].
  - exists []. split; [reflexivity | constructor].
  - destruct (H a Ha) as (b & Eb & Qb). destruct IH as (l' & El & Ql).
    exists (b :: l'). rewrite mapM_cons, Eb. cbn [bind]. rewrite El.
    split; [reflexivity | constructor; assumption].
Qed.

End Constructors.

(** X21: a call whose target ends in dict or OrderedDict and whose 1st
    argument is a dict literal, with no opt-out in force, leaves
    [leave_Call] as a copy of the call in which every key of that literal
    that is a string literal is requoted and every other element is kept. *)
Theorem dict_constructor_keys ucd self h f op pre hd opd elts cld post rest cl :
  last_segment_in (func_name_of f) [py "dict"; py "OrderedDict"] = true ->
  _source_has_noqa self = false ->
  _has_noqa_comment self (Dict hd opd elts cld) = Ok false ->
  Forall (key_opt_out_free self) elts ->
  exists elts',
    leave_Call ucd self (Call h f op (Arg pre (Dict hd opd elts cld) post :: rest) cl) =
    Ok (Call (rebuilt h) (clone f) op
          (Arg pre (Dict (rebuilt hd) opd elts' cld) post :: map clone_arg rest) cl) /\
    Forall2 (key_forced ucd) elts elts'.
Proof.
  intros Hf Hflag Hd F.
  destruct (mapM_exists (key_opt_out_free self) (key_forced ucd)
              (requote_dict_key ucd self (Dict hd opd elts cld)) elts F)
    as (elts' & E & F2).
  { intros e He. exists (dict_key_plain ucd false e). split.
    - apply requote_dict_key_free; assumption.
    - apply dict_key_plain_forced. }
  exists elts'. split; [|exact F2].
  cbn [leave_Call].
  rewrite (segment_other f _ ATTR_FUNCS Hf) by names.
  rewrite (segment_no_method f _ MAPPING_FIRST_KEY_METHODS Hf incl_MAPPING) by names.
  rewrite (segment_other f _ OPERATOR_GETTERS Hf) by names.
  cbn [andb leave_Call_constructor]. rewrite Hf, E. reflexivity.
Qed.

(** [dict({"a": 1})], of the repository's tests. *)
Lemma dict_constructor_keys_witness :
  exists elts',
    leave_Call ucd_ascii (__init__ (py "dict({`a`: 1})")) dict_of_dict =
    Ok (Call (rebuilt (at_ 1 0 14)) (Name fresh (py "dict")) (py "(")
          [Arg [] (Dict (rebuilt (at_ 1 5 13)) (py "{") elts' (py "}")) []] (py ")")) /\
    Forall2 (key_forced ucd_ascii)
      [DictElement (SimpleString (at_ 1 6 9) (py "`a`")) (py ": ")
         (Other (at_ 1 11 12) [Text (py "1")]) []]
      elts'.
Proof.
  apply (dict_constructor_keys ucd_ascii (__init__ (py "dict({`a`: 1})"))
           (at_ 1 0 14) (Name (at_ 1 0 4) (py "dict")) (py "(") [] (at_ 1 5 13) (py "{")
           [DictElement (SimpleString (at_ 1 6 9) (py "`a`")) (py ": ")
              (Other (at_ 1 11 12) [Text (py "1")]) []]
           (py "}") [] [] (py ")")); [reflexivity | reflexivity | reflexivity |].
  constructor; [reflexivity | constructor].
Defined.

(** X22: a call whose target ends in dict or OrderedDict and whose 1st
    argument is a list or a tuple, with no opt-out in force, leaves
    [leave_Call] as a copy of the call in which the first element of every
    pair (a non-empty tuple or list) of that argument is requoted and every
    other element is kept. *)
Theorem dict_constructor_pairs ucd self h f op pre hc k opc elts clc post rest cl :
  last_segment_in (func_name_of f) [py "dict"; py "OrderedDict"] = true ->
  is_list_or_tuple k = true ->
  _source_has_noqa self = false ->
  Forall (pair_opt_out_free self) elts ->
  exists elts',
    leave_Call ucd self
      (Call h f op (Arg pre (Collection hc k opc elts clc) post :: rest) cl) =
    Ok (Call (rebuilt h) (clone f) op
          (Arg pre (Collection (rebuilt hc) k opc elts' clc) post
             :: map clone_arg rest) cl) /\
    Forall2 (pair_forced ucd) elts elts'.
Proof.
  intros Hf Hk Hflag F.
  destruct (mapM_exists (pair_opt_out_free self) (pair_forced ucd)
              (requote_pair ucd self) elts F (requote_pair_free ucd self Hflag))
    as (elts' & E & F2).
  exists elts'. split; [|exact F2].
  cbn [leave_Call].
  rewrite (segment_other f _ ATTR_FUNCS Hf) by names.
  rewrite (segment_no_method f _ MAPPING_FIRST_KEY_METHODS Hf incl_MAPPING) by names.
  rewrite (segment_other f _ OPERATOR_GETTERS Hf) by names.
  cbn [andb leave_Call_constructor]. rewrite Hf, Hk, E. reflexivity.
Qed.

(** [dict([("a", 1), ("b", 2)])], of the repository's tests. *)
Lemma dict_constructor_pairs_witness :
  exists elts',
    leave_Call ucd_ascii (__init__ (py "dict([(`a`, 1), (`b`, 2)])")) dict_of_pairs =
    Ok (Call (rebuilt (at_ 1 0 26)) (Name fresh (py "dict")) (py "(")
          [Arg [] (Collection (rebuilt (at_ 1 5 25)) KList (py "[") elts' (py "]")) []]
          (py ")")) /\
    Forall2 (pair_forced ucd_ascii)
      [Element
         (Collection (at_par 6 14) KTuple []
            [Element (SimpleString (at_ 1 7 10) (py "`a`")) (py ", ");
             Element (Other (at_ 1 12 13) [Text (py "1")]) []] [])
         (py ", ");
       Element
         (Collection (at_par 16 24) KTuple []
            [Element (SimpleString (at_ 1 17 20) (py "`b`")) (py ", ");
             Element (Other (at_ 1 22 23) [Text (py "2")]) []] [])
         []]
      elts'.
Proof.
  apply (dict_constructor_pairs ucd_ascii
           (__init__ (py "dict([(`a`, 1), (`b`, 2)])"))
           (at_ 1 0 26) (Name (at_ 1 0 4) (py "dict")) (py "(") [] (at_ 1 5 25)
           KList (py "[")
           [Element
              (Collection (at_par 6 14) KTuple []
                 [Element (SimpleString (at_ 1 7 10) (py "`a`")) (py ", ");
                  Element (Other (at_ 1 12 13) [Text (py "1")]) []] [])
              (py ", ");
            Element
              (Collection (at_par 16 24) KTuple []
                 [Element (SimpleString (at_ 1 17 20) (py "`b`")) (py ", ");
                  Element (Other (at_ 1 22 23) [Text (py "2")]) []] [])
              []]
           (py "]") [] [] (py ")")); [reflexivity | reflexivity | reflexivity |].
  constructor; [intros _; split; reflexivity|].
  constructor; [intros _; split; reflexivity | constructor].
Defined.

(** X23: a call of a method named fromkeys whose 1st argument is a list,
    a tuple or a set, with no opt-out in force, leaves [leave_Call] with
    every plain element of that argument requoted and everything else
    kept. *)
Theorem fromkeys_elements ucd self h f op pre ht k opt elts clt post rest cl :
  method_in f FROM_KEYS = true ->
  _source_has_noqa self = false ->
  _has_noqa_comment self (Collection ht k opt elts clt) = Ok false ->
  Forall (element_opt_out_free self) elts ->
  exists elts',
    leave_Call ucd self
      (Call h f op (Arg pre (Collection ht k opt elts clt) post :: rest) cl) =
    Ok (Call (rebuilt h) f op
          (Arg pre (Collection (rebuilt ht) k opt elts' clt) post :: rest) cl) /\
    Forall2 (element_forced ucd) elts elts'.
Proof.
  intros Hf Hflag Ht F.
  destruct (mapM_exists (element_opt_out_free self) (element_forced ucd)
              (requote_element ucd self (Collection ht k opt elts clt)) elts F)
    as (elts' & E & F2).
  { intros e He. exists (element_plain ucd false e). split.
    - apply requote_element_free; assumption.
    - apply element_plain_forced. }
  exists elts'. split; [|exact F2].
  cbn [leave_Call].
  rewrite (method_no_segment f _ ATTR_FUNCS Hf incl_FROM_KEYS) by names.
  rewrite (method_other f _ MAPPING_FIRST_KEY_METHODS Hf) by names.
  rewrite (method_no_segment f _ OPERATOR_GETTERS Hf incl_FROM_KEYS) by names.
  cbn [andb leave_Call_constructor].
  rewrite (method_no_segment f _ [py "dict"; py "OrderedDict"] Hf incl_FROM_KEYS) by names.
  cbn [leave_Call_fromkeys]. rewrite Hf, E. reflexivity.
Qed.

(** [dict.fromkeys(["a", "b"])], of the repository's tests. *)
Lemma fromkeys_elements_witness :
  exists elts',
    leave_Call ucd_ascii (__init__ (py "dict.fromkeys([`a`, `b`])")) fromkeys_call =
    Ok (Call (rebuilt (at_ 1 0 25))
          (Attribute (at_ 1 0 13) (Name (at_ 1 0 4) (py "dict")) (py ".")
             (py "fromkeys"))
          (py "(")
          [Arg [] (Collection (rebuilt (at_ 1 14 24)) KList (py "[") elts' (py "]")) []]
          (py ")")) /\
    Forall2 (element_forced ucd_ascii)
      [Element (SimpleString (at_ 1 15 18) (py "`a`")) (py ", ");
       Element (SimpleString (at_ 1 20 23) (py "`b`")) []]
      elts'.
Proof.
  apply (fromkeys_elements ucd_ascii (__init__ (py "dict.fromkeys([`a`, `b`])"))
           (at_ 1 0 25)
           (Attribute (at_ 1 0 13) (Name (at_ 1 0 4) (py "dict")) (py ".")
              (py "fromkeys"))
           (py "(") [] (at_ 1 14 24) KList (py "[")
           [Element (SimpleString (at_ 1 15 18) (py "`a`")) (py ", ");
            Element (SimpleString (at_ 1 20 23) (py "`b`")) []]
           (py "]") [] [] (py ")")); [reflexivity | reflexivity | reflexivity |].
  constructor; [reflexivity|]. constructor; [reflexivity | constructor].
Defined.

(* ------------------------------------------------------------------ *)
(** ** Excluded literals *)

(** X24: both conversions return None on a triple-quoted, raw or bytes
    token, and whenever the transformation returns, every such token of
    the module stands unmodified at its place in the tree whose text is
    the output. *)
Theorem excluded_literals_unchanged ucd m out changed :
  transform_code ucd m = Ok (out, changed) ->
  (forall tok, excluded tok = true ->
     to_single_quoted_string ucd tok = None /\
     to_double_quoted_string ucd tok = Ok None) /\
  exists x, visit ucd (__init__ (code m)) m = Ok x /\ out = code x /\
    Forall2 (fun t t' => excluded t = true -> t' = t) (tokens m) (tokens x).
Proof.
  intros E. split.
  - intros tok He. split; [apply to_single_excluded | apply to_double_excluded];
      exact He.
  - unfold transform_code in E.
    destruct (visit ucd (__init__ (code m)) m) as [x|] eqn:Ev; [|discriminate].
    injection E as <- _. exists x. repeat split.
    refine (visit_tokens ucd (__init__ (code m))
              (fun t t' => excluded t = true -> t' = t) _ _ _ _ m x Ev).
    + reflexivity.
    + intros t1 t2 t3 H1 H2 He. pose proof (H1 He) as E1. subst t2. exact (H2 He).
    + intros t d Hd He. eapply default_token_excluded; eassumption.
    + intros t k Hk He. rewrite (to_single_excluded ucd t He) in Hk. discriminate.
Qed.

(** [hasattr(obj, r"a")], of the repository's tests. *)
Lemma excluded_literals_unchanged_witness :
  excluded (py "r`a`") = true /\
  ((forall tok, excluded tok = true ->
      to_single_quoted_string ucd_ascii tok = None /\
      to_double_quoted_string ucd_ascii tok = Ok None) /\
   exists x,
     visit ucd_ascii (__init__ (py "hasattr(obj, r`a`)"))
       (module1 (hasattr_call (py "r`a`")) []) = Ok x /\
     py "hasattr(obj, r`a`)" = code x /\
     Forall2 (fun t t' => excluded t = true -> t' = t) [py "r`a`"] (tokens x)).
Proof.
  split; [reflexivity|].
  exact (excluded_literals_unchanged ucd_ascii
           (module1 (hasattr_call (py "r`a`")) [])
           (py "hasattr(obj, r`a`)") false eq_refl).
Defined.

(* ------------------------------------------------------------------ *)
(** ** The repository's tests *)

(** Expectations of the repository's tests (test_strings.py,
    test_transformer.py, test_transformer_textual.py). *)
Lemma repository_tests ucd :
  map is_single_quoted
    [py "'a'"; py "`a`"; py "r'a'"; py "u`a`"; py "'''a'''"; py "```a```"]
    = [true; false; true; false; false; false] /\
  map is_triple_quoted [py "'''a'''"; py "```a```"; py "'a'"; py "`a`"]
    = [true; true; false; false] /\
  map (to_single_quoted_string ucd)
    [py "`a`"; py "'a'"; py "r`a`"; py "b`a`"; py "```a```"]
    = [Some (py "'a'"); None; None; None; None] /\
  transform_code ucd (module1 (hasattr_call (py "`key`")) [])
    = Ok (py "hasattr(obj, 'key')", true) /\
  transform_code ucd (module1 (get_call (py "`a`")) [])
    = Ok (py "d.get('a')", true) /\
  transform_code ucd (module1 (dict_literal (py "`a`")) [])
    = Ok (py "{'a': 1}", true) /\
  transform_code ucd (module1 (subscript (py "`a`")) [])
    = Ok (py "d['a']", true) /\
  transform_code ucd (module1 (hasattr_call (py "`key`")) (py "  # noqa: quote-keys"))
    = Ok (py "hasattr(obj, `key`)  # noqa: quote-keys", false) /\
  transform_code ucd (module1 (hasattr_call (py "r`a`")) [])
    = Ok (py "hasattr(obj, r`a`)", false) /\
  transform_code ucd (module1 (subscript (py "```a```")) [])
    = Ok (py "d[```a```]", false) /\
  transform_code ucd (assignment (py "'myvar'")) = Ok (py "x = `myvar`", true) /\
  transform_code ucd (assignment (py "`myvar`")) = Ok (py "x = `myvar`", false) /\
  transform_code ucd (assignment (py "`foo\`bar`")) = Ok (py "x = 'foo`bar'", true) /\
  transform_code ucd (assignment (py "'foo\'bar'")) = Ok (py "x = `foo'bar`", true).
Proof. repeat split; reflexivity. Qed.

(** The sample calls print as the sources of test_transformer.py and
    transform to what the tests expect. *)
Lemma sample_codes :
  code dict_of_dict = py "dict({`a`: 1})" /\
  code dict_of_pairs = py "dict([(`a`, 1), (`b`, 2)])" /\
  code fromkeys_call = py "dict.fromkeys([`a`, `b`])" /\
  code dunder_getattr_call = py "type.__getattr__(obj, `a`)".
Proof. repeat split; reflexivity. Qed.

Lemma sample_outputs ucd :
  transform_code ucd (module1 dict_of_dict []) = Ok (py "dict({'a': 1})", true) /\
  transform_code ucd (module1 dict_of_pairs []) =
    Ok (py "dict([('a', 1), ('b', 2)])", true) /\
  transform_code ucd (module1 fromkeys_call []) =
    Ok (py "dict.fromkeys(['a', 'b'])", true) /\
  transform_code ucd (module1 dunder_getattr_call []) =
    Ok (py "type.__getattr__(obj, 'a')", true).
Proof. repeat split; reflexivity. Qed.
